(** * HOOMD-blue: domain decomposition, HPMC update engine and helpers

    A shallow embedding of the parts of the sources that the specification
    talks about, followed by the properties proved (or refuted) about them.

    Conventions.
    - [unsigned int] is a 32-bit integer: a [Z] in [0, 2^32) with the
      wrap-around written out ([u32]); [int] is its signed reading ([i32]).
    - Host arrays ([GPUArray], [GlobalArray], [std::vector]) are lists.
    - Code that throws returns [Thrown]; code that returns normally
      returns [Returned]. *)

From Stdlib Require Import ZArith QArith List Bool Lia Arith.
From Stdlib Require Floats.
From Stdlib Require Import Sorting.Sorted Sorting.Permutation Sorting.Mergesort Orders.
Import ListNotations.

Local Open Scope Z_scope.

(** ** Machine integers *)

Module Uint.

Definition modulus : Z := 2 ^ 32.

(** Reduction of a mathematical integer to [unsigned int]. *)
Definition u32 (x : Z) : Z := x mod modulus.

(** Conversion [unsigned int -> int] (two's complement). *)
Definition i32 (x : Z) : Z :=
  let r := x mod modulus in
  if r <? 2 ^ 31 then r else r - modulus.

End Uint.

(** ** Outcome of a call that may throw *)

Inductive outcome (A : Type) : Type :=
| Returned (a : A)
| Thrown (what : nat).

Arguments Returned {A} a.
Arguments Thrown {A} what.

(** ** hoomd/filter/ParticleFilterIntersection.h *)

Module ZOrder <: TotalLeBool.
Definition t := Z.
Definition leb := Z.leb.
Lemma leb_total : forall x y, leb x y = true \/ leb y x = true.
Proof.
  intros x y; unfold leb.
  destruct (Z.leb_spec x y); [now left | right].
  apply Z.leb_le; lia.
Qed.
End ZOrder.

(** [std::sort] on a vector of tags, ascending. *)
Module TagSort := Sort ZOrder.

Module ParticleFilterIntersection.

(** [std::set_intersection(first1, last1, first2, last2, d_first)]:
    while both ranges are non-empty, with [x] the head of the first and
    [y] the head of the second: if [x < y] advance the first range;
    otherwise, if not [y < x], write [x] to the output and advance the
    first range; in both of the latter cases advance the second range.
    The list returned is what has been written at [d_first]. *)
Fixpoint set_intersection (X : list Z) : list Z -> list Z :=
  match X with
  | [] => fun _ => []
  | x :: X' =>
      fix scan (Y : list Z) : list Z :=
        match Y with
        | [] => []
        | y :: Y' =>
            if x <? y then set_intersection X' Y
            else if y <? x then scan Y'
            else x :: set_intersection X' Y'
        end
  end.

Section Filter.

(** The system definition and the two component filters; a filter is
    its virtual [getSelectedTags]. *)
Variable SystemDefinition : Type.
Variables m_f m_g : SystemDefinition -> list Z.

(** [tags] is allocated with [min(X.size(), Y.size())] slots, filled from
    its start by [set_intersection] and cut at the returned iterator. *)
Definition getSelectedTags (sysdef : SystemDefinition) : list Z :=
  let X := TagSort.sort (m_f sysdef) in
  let Y := TagSort.sort (m_g sysdef) in
  let capacity := Nat.min (length X) (length Y) in
  let written := set_intersection X Y in
  firstn capacity written.

End Filter.

End ParticleFilterIntersection.

(** ** libhoomd/communication/DomainDecomposition.cc *)

Module DomainDecomposition.

Import Uint.

(** [Scalar] in this class only enters sums and products of box lengths
    and their comparison; it is modelled by exact rationals (rounding of
    the machine type is not modelled). *)
Definition Scalar := Q.

Record Scalar3 : Type := make_scalar3 { Lx : Scalar; Ly : Scalar; Lz : Scalar }.

Arguments make_scalar3 (Lx Ly Lz)%_Q.

Record uint3 : Type := make_uint3 { ux : Z; uy : Z; uz : Z }.

(** Modelled from the spec: [Index3D] (its header is not among the
    sources).  "grid_position(rank) = row-major decode with x
    fastest-varying": a triple [(i,j,k)] of a [w * h * d] grid has index
    [(k*h + j)*w + i], and [getTriple] inverts it. *)
Record Index3D : Type := mkIndex3D { m_w : Z; m_h : Z; m_d : Z }.

Definition index3 (idx : Index3D) (i j k : Z) : Z :=
  u32 (u32 (u32 (u32 k * m_h idx) + u32 j) * m_w idx + u32 i).

Definition getTriple (idx : Index3D) (i : Z) : uint3 :=
  make_uint3 (i mod m_w idx)
             ((i / m_w idx) mod m_h idx)
             (i / u32 (m_w idx * m_h idx)).

(** A counted loop [for (unsigned i = start; cond(i); i++) body(i)]
    threading a state.  [fuel] bounds the number of evaluations of the
    condition; [None] means the bound was hit before the loop ended. *)
Fixpoint for_loop {S : Type} (fuel : nat) (cond : Z -> bool)
  (body : Z -> S -> option S) (i : Z) (s : S) : option S :=
  match fuel with
  | O => None
  | Datatypes.S fuel' =>
      if cond i then
        match body i s with
        | Some s' => for_loop fuel' cond body (u32 (i + 1)) s'
        | None => None
        end
      else Some s
  end.

(** The variables [findDecomposition] updates while it searches. *)
Record search : Type := mkSearch {
  s_nx : Z; s_ny : Z; s_nz : Z;
  min_surface_area : Scalar;
  found_decomposition : bool
}.

Definition surface_area_of (L : Scalar3) (nx ny nz : Z) : Scalar :=
  (Lx L * Ly L * inject_Z nz + Lx L * Lz L * inject_Z ny
   + Ly L * Lz L * inject_Z nx)%Q.

(** [a < b] on scalars. *)
Definition scalar_lt (a b : Scalar) : bool :=
  match (a ?= b)%Q with Lt => true | _ => false end.

(** Body of the innermost loop, after the [continue]s on a pinned [nz]
    and on a product different from the communicator size. *)
Definition try_triple (size : Z) (L : Scalar3) (nz_in : Z)
  (nx_try ny_try nz_try : Z) (s : search) : search :=
  if negb (nz_in =? 0) && negb (nz_try =? nz_in) then s
  else if negb (u32 (u32 (nx_try * ny_try) * nz_try) =? size) then s
  else
    let surface_area := surface_area_of L nx_try ny_try nz_try in
    if scalar_lt surface_area (min_surface_area s)
       || negb (found_decomposition s)
    then mkSearch nx_try ny_try nz_try surface_area true
    else s.

Definition loop_nz (fuel : nat) (size : Z) (L : Scalar3) (nz_in : Z)
  (nx_try ny_try : Z) (s : search) : option search :=
  for_loop fuel
    (fun nz_try => u32 (u32 (nx_try * ny_try) * nz_try) <=? size)
    (fun nz_try s => Some (try_triple size L nz_in nx_try ny_try nz_try s))
    1 s.

Definition loop_ny (fuel : nat) (size : Z) (L : Scalar3) (ny_in nz_in : Z)
  (nx_try : Z) (s : search) : option search :=
  for_loop fuel
    (fun ny_try => u32 (nx_try * ny_try) <=? size)
    (fun ny_try s =>
       if negb (ny_in =? 0) && negb (ny_try =? ny_in) then Some s
       else loop_nz fuel size L nz_in nx_try ny_try s)
    1 s.

Definition loop_nx (fuel : nat) (size : Z) (L : Scalar3) (nx_in ny_in nz_in : Z)
  (s : search) : option search :=
  for_loop fuel
    (fun nx_try => nx_try <=? size)
    (fun nx_try s =>
       if negb (nx_in =? 0) && negb (nx_try =? nx_in) then Some s
       else loop_ny fuel size L ny_in nz_in nx_try s)
    1 s.

(** [findDecomposition(L, nx, ny, nz)] for a communicator of [size]
    ranks.  The result is the returned flag with the values left in the
    reference parameters [nx], [ny], [nz]. *)
Definition findDecomposition_fuel (fuel : nat) (size : Z) (L : Scalar3)
  (nx ny nz : Z) : option (bool * (Z * Z * Z)) :=
  let min0 := (Lx L * Ly L * inject_Z size + Lx L * Lz L + Ly L * Lz L)%Q in
  let nx_in := nx in
  let ny_in := ny in
  let nz_in := nz in
  let found0 := (nx_in =? 0) && (ny_in =? 0) && (nz_in =? 0) in
  let s0 := mkSearch 1 1 size min0 found0 in
  match loop_nx fuel size L nx_in ny_in nz_in s0 with
  | Some s => Some (found_decomposition s, (s_nx s, s_ny s, s_nz s))
  | None => None
  end.

(** No loop evaluates its condition more than [size + 1] times. *)
Definition findDecomposition (size : Z) (L : Scalar3) (nx ny nz : Z)
  : option (bool * (Z * Z * Z)) :=
  findDecomposition_fuel (Z.to_nat size + 1) size L nx ny nz.

(** The object after construction: grid, indexer and grid position,
    with the diagnostics written to the error stream. *)
Record t : Type := mkDD {
  m_nx : Z; m_ny : Z; m_nz : Z;
  m_index : Index3D;
  m_grid_pos : uint3;
  m_root : Z
}.

Inductive message : Type :=
| UnableToFindDecomposition (size : Z).

(** The constructor.  The search runs on [root] and its result is
    broadcast, so every rank sees the values computed here.  No path
    throws: a failed search writes a message, resets the request to
    [0,0,0] and searches again. *)
Definition construct (size rank root : Z) (L : Scalar3) (nx ny nz : Z)
  : option (outcome (t * list message)) :=
  match findDecomposition size L nx ny nz with
  | None => None
  | Some (found, (nx1, ny1, nz1)) =>
      let finish errs nx ny nz :=
        let idx := mkIndex3D nx ny nz in
        Some (Returned (mkDD nx ny nz idx (getTriple idx rank) root, errs)) in
      if negb found then
        match findDecomposition size L 0 0 0 with
        | None => None
        | Some (_, (nx2, ny2, nz2)) =>
            finish [UnableToFindDecomposition size] nx2 ny2 nz2
        end
      else finish [] nx1 ny1 nz1
  end.

(** The table [adj] of [getNeighborRank]; [dir < 6] is asserted by the
    source. *)
Definition adj_table : list (Z * Z * Z) :=
  [(1, 0, 0); (-1, 0, 0); (0, 1, 0); (0, -1, 0); (0, 0, 1); (0, 0, -1)].

Definition adj (dir : Z) : Z * Z * Z := nth (Z.to_nat dir) adj_table (0, 0, 0).

(** [int v = (int) pos + a; if (v < 0) v += n; else if (v == (int) n) v -= n;]
    The compound assignments mix [int] and [unsigned]: they are computed
    on [unsigned] and converted back. *)
Definition wrap_neighbor (pos a n : Z) : Z :=
  let v := i32 (i32 pos + a) in
  if v <? 0 then i32 (u32 (u32 v + n))
  else if v =? i32 n then i32 (u32 (u32 v - n))
  else v.

Definition getNeighborRank (dd : t) (dir : Z) : Z :=
  let '(ai, aj, ak) := adj dir in
  let ineigh := wrap_neighbor (ux (m_grid_pos dd)) ai (m_nx dd) in
  let jneigh := wrap_neighbor (uy (m_grid_pos dd)) aj (m_ny dd) in
  let kneigh := wrap_neighbor (uz (m_grid_pos dd)) ak (m_nz dd) in
  index3 (m_index dd) ineigh jneigh kneigh.

(** The object that the constructor builds on [rank] for a grid
    [(nx, ny, nz)]. *)
Definition on_rank (nx ny nz rank root : Z) : t :=
  let idx := mkIndex3D nx ny nz in
  mkDD nx ny nz idx (getTriple idx rank) root.

(** [isAtBoundary(dir)]; [m_nx - 1] is computed on [unsigned]. *)
Definition isAtBoundary (dd : t) (dir : Z) : bool :=
  ((dir =? 0) && (ux (m_grid_pos dd) =? u32 (m_nx dd - 1)))
  || ((dir =? 1) && (ux (m_grid_pos dd) =? 0))
  || ((dir =? 2) && (uy (m_grid_pos dd) =? u32 (m_ny dd - 1)))
  || ((dir =? 3) && (uy (m_grid_pos dd) =? 0))
  || ((dir =? 4) && (uz (m_grid_pos dd) =? u32 (m_nz dd - 1)))
  || ((dir =? 5) && (uz (m_grid_pos dd) =? 0)).

(** [calculateLocalBox(global_box)].  The global box enters through
    [getL()] and [getLo()] only; the result is the triple handed to the
    constructor [BoxDim(lo, hi, periodic)].  The fields [Lx], [Ly], [Lz]
    of [Scalar3] are its components x, y, z; the quotient of two vectors
    is taken by component. *)
Definition calculateLocalBox (dd : t) (L lo_g : Scalar3)
  : Scalar3 * Scalar3 * (bool * bool * bool) :=
  let L_local :=
    make_scalar3 (Lx L / inject_Z (m_nx dd)) (Ly L / inject_Z (m_ny dd))
                 (Lz L / inject_Z (m_nz dd)) in
  let lo :=
    make_scalar3 (Lx lo_g + inject_Z (ux (m_grid_pos dd)) * Lx L_local)
                 (Ly lo_g + inject_Z (uy (m_grid_pos dd)) * Ly L_local)
                 (Lz lo_g + inject_Z (uz (m_grid_pos dd)) * Lz L_local) in
  let hi :=
    make_scalar3 (Lx lo + Lx L_local) (Ly lo + Ly L_local) (Lz lo + Lz L_local) in
  let periodic := (m_nx dd =? 1, m_ny dd =? 1, m_nz dd =? 1) in
  (lo, hi, periodic).

End DomainDecomposition.

(** ** hpmc/IntegratorHPMCMonoGPU.h: [detail::UpdateOrderGPU] *)

Module UpdateOrderGPU.

Import Uint.

Record t : Type := mk {
  m_seed : Z;
  m_is_reversed : bool;
  m_update_order : list Z;
  m_reverse_update_order : list Z
}.

Section Shuffle.

(** [hoomd::RandomGenerator rng(HPMCMonoShuffle, seed, timestep, select)]
    followed by [UniformIntDistribution(1)(rng)]: the generator is
    counter based, so the draw is a function of the key.  The generator
    is not among the sources and is left as a parameter. *)
Variable shuffle_draw : Z -> Z -> Z -> bool.

(** The constructor, before its call of [resize]. *)
Definition empty (seed : Z) : t := mk seed false [] [].

Definition size (o : t) : Z := Z.of_nat (length (m_update_order o)).

(** [resize(N)]: nothing happens for [N == 0] or an unchanged size;
    otherwise both arrays are rebuilt and the flag is cleared. *)
Definition resize (N : Z) (o : t) : t :=
  if (N =? 0) || (N =? size o) then o
  else
    let idx := map Z.of_nat (seq 0 (Z.to_nat N)) in
    mk (m_seed o) false
       (map (fun i => i) idx)
       (map (fun i => u32 (u32 (N - i) - 1)) idx).

Definition construct (seed N : Z) : t := resize N (empty seed).

(** [shuffle(timestep, select)]. *)
Definition shuffle (timestep select : Z) (o : t) : t :=
  mk (m_seed o) (shuffle_draw (m_seed o) timestep select)
     (m_update_order o) (m_reverse_update_order o).

(** [get()]: the array in use. *)
Definition get (o : t) : list Z :=
  if m_is_reversed o then m_reverse_update_order o else m_update_order o.

(** [operator[](i)]; an index past the end is outside the model. *)
Definition at_ (o : t) (i : Z) : Z := nth (Z.to_nat i) (get o) 0.

End Shuffle.

End UpdateOrderGPU.

(** ** hpmc/IntegratorHPMCMonoGPU.h: [IntegratorHPMCMonoGPU::update]

    The host code of [update] is embedded as written; the GPU kernels it
    launches are not among the sources and are parameters ([kernels]).
    A kernel is a function of the device memory it is handed, returning
    the arrays it is handed for writing.  Arrays are indexed by local
    particle and hold the [getN()] entries that the kernels work on.
    Left out: profiler and autotuner calls, CUDA error checks, memory
    hints and array resizes, streams and events, the cell list and
    expanded cell list (external broad phase), the per-device counter
    reset and reduction, the host-side maximum of the depletant counts,
    and the optional sub-communicators ([m_ntrial_comm],
    [m_particle_comm] unset, so no [MPI_Allreduce]). *)

Module IntegratorHPMCMonoGPU.

Definition Scalar := Q.

Section Update.

(** Particle data, trial moves, depletant counts and move counters are
    opaque to the host code. *)
Context {ParticleData Trial Depletants Counters : Type}.

(** What [update] reads from the integrator and the system definition. *)
Record config : Type := mkConfig {
  N : Z;                                  (* m_pdata->getN() *)
  NTypes : Z;                             (* m_pdata->getNTypes() *)
  NDimensions : Z;                        (* m_sysdef->getNDimensions() *)
  m_nselect : Z;
  m_seed : Z;
  rank : Z;                               (* m_exec_conf->getRank() *)
  periodic_x : bool;                      (* getGlobalBox().getPeriodic() *)
  periodic_y : bool;
  periodic_z : bool;
  nearest_plane_distance_x : Scalar;      (* of the global box *)
  nearest_plane_distance_y : Scalar;
  nearest_plane_distance_z : Scalar;
  m_nominal_width : Scalar;
  m_fugacity : Z -> Scalar;               (* indexed by m_depletant_idx *)
  m_ntrial : Z -> Z;
  m_depletant_idx : Z -> Z -> Z;
  patch_enabled : bool                    (* m_patch && !m_patch_log *)
}.

(** Device memory. *)
Record mem : Type := mkMem {
  pdata : ParticleData;
  trial : Trial;
  m_reject_out_of_cell : list bool;
  m_reject : list bool;
  m_reject_out : list bool;
  m_condition : Z;
  m_n_depletants : Depletants;
  m_deltaF_int : Z -> list Z;             (* one slice per depletant index *)
  m_req_len : Z;
  counters : Counters;
  m_update_order : UpdateOrderGPU.t
}.

Definition set_pdata v (m : mem) : mem :=
  mkMem v (trial m) (m_reject_out_of_cell m) (m_reject m) (m_reject_out m)
    (m_condition m) (m_n_depletants m) (m_deltaF_int m) (m_req_len m)
    (counters m) (m_update_order m).
Definition set_trial v (m : mem) : mem :=
  mkMem (pdata m) v (m_reject_out_of_cell m) (m_reject m) (m_reject_out m)
    (m_condition m) (m_n_depletants m) (m_deltaF_int m) (m_req_len m)
    (counters m) (m_update_order m).
Definition set_reject_out_of_cell v (m : mem) : mem :=
  mkMem (pdata m) (trial m) v (m_reject m) (m_reject_out m)
    (m_condition m) (m_n_depletants m) (m_deltaF_int m) (m_req_len m)
    (counters m) (m_update_order m).
Definition set_reject v (m : mem) : mem :=
  mkMem (pdata m) (trial m) (m_reject_out_of_cell m) v (m_reject_out m)
    (m_condition m) (m_n_depletants m) (m_deltaF_int m) (m_req_len m)
    (counters m) (m_update_order m).
Definition set_reject_out v (m : mem) : mem :=
  mkMem (pdata m) (trial m) (m_reject_out_of_cell m) (m_reject m) v
    (m_condition m) (m_n_depletants m) (m_deltaF_int m) (m_req_len m)
    (counters m) (m_update_order m).
Definition set_condition v (m : mem) : mem :=
  mkMem (pdata m) (trial m) (m_reject_out_of_cell m) (m_reject m)
    (m_reject_out m) v (m_n_depletants m) (m_deltaF_int m) (m_req_len m)
    (counters m) (m_update_order m).
Definition set_n_depletants v (m : mem) : mem :=
  mkMem (pdata m) (trial m) (m_reject_out_of_cell m) (m_reject m)
    (m_reject_out m) (m_condition m) v (m_deltaF_int m) (m_req_len m)
    (counters m) (m_update_order m).
Definition set_deltaF_int v (m : mem) : mem :=
  mkMem (pdata m) (trial m) (m_reject_out_of_cell m) (m_reject m)
    (m_reject_out m) (m_condition m) (m_n_depletants m) v (m_req_len m)
    (counters m) (m_update_order m).
Definition set_req_len v (m : mem) : mem :=
  mkMem (pdata m) (trial m) (m_reject_out_of_cell m) (m_reject m)
    (m_reject_out m) (m_condition m) (m_n_depletants m) (m_deltaF_int m) v
    (counters m) (m_update_order m).
Definition set_counters v (m : mem) : mem :=
  mkMem (pdata m) (trial m) (m_reject_out_of_cell m) (m_reject m)
    (m_reject_out m) (m_condition m) (m_n_depletants m) (m_deltaF_int m)
    (m_req_len m) v (m_update_order m).
Definition set_update_order v (m : mem) : mem :=
  mkMem (pdata m) (trial m) (m_reject_out_of_cell m) (m_reject m)
    (m_reject_out m) (m_condition m) (m_n_depletants m) (m_deltaF_int m)
    (m_req_len m) (counters m) v.

(** Writing slice [k] of [m_deltaF_int]. *)
Definition set_slice (k : Z) (v : list Z) (d : Z -> list Z) : Z -> list Z :=
  fun k' => if k' =? k then v else d k'.

(** The kernels, with the arguments that identify a launch and the
    memory they read; each returns what it may write, that is the arrays
    passed to it through a non-const pointer.  The two phase kernels of
    the auxiliary variable mode receive
    [d_deltaF_int.data + m_depletant_idx(itype,jtype)*MaxN], the slice of
    their own pair, together with [d_req_len] and the counters. *)
Record kernels : Type := mkKernels {
  hpmc_gen_moves :
    config -> Z -> Z -> mem -> Trial * list bool;
  hpmc_narrow_phase :
    config -> Z -> Z -> mem -> list bool * Counters;
  generate_num_depletants :
    config -> Z -> Z -> Z -> Z -> mem -> Depletants;
  hpmc_insert_depletants :
    config -> Z -> Z -> Z -> Z -> mem -> list bool * Counters;
  generate_num_depletants_ntrial :
    config -> Z -> Z -> Z -> Z -> mem -> Depletants;
  hpmc_depletants_auxilliary_phase1 :
    config -> Z -> Z -> Z -> Z -> Z -> Z -> mem -> list Z * Z * Counters;
  hpmc_depletants_auxilliary_phase2 :
    config -> Z -> Z -> Z -> Z -> Z -> Z -> mem -> list Z * Z * Counters;
  hpmc_depletants_accept :
    config -> Z -> Z -> mem -> list bool;
  computePatchEnergyGPU :
    config -> Z -> Z -> mem -> list bool;
  hpmc_check_convergence :
    config -> mem -> list bool * list bool * Z;
  hpmc_update_pdata :
    mem -> ParticleData * Counters;
  hpmc_shift :
    mem -> ParticleData
}.

(** Kernel launches and host actions, in the order issued. *)
Inductive launch : Type :=
| GenMoves (sweep : Z)
| ResetDeltaF (itype jtype : Z)
| NarrowPhase
| GenerateNumDepletants (itype jtype : Z)
| InsertDepletants (itype jtype : Z)
| GenerateNumDepletantsNtrial (itype jtype : Z)
| DepletantsPhase1 (itype jtype : Z)
| DepletantsPhase2 (itype jtype : Z)
| DepletantsAccept
| PatchEnergy
| CheckConvergence
| SwapReject (now_reject : list bool)
| UpdatePdata
| Shift.

Record state : Type := mkState {
  dev : mem;
  m_max_len : Z;
  issued : list launch                    (* most recent first *)
}.

Definition on_dev (f : mem -> mem) (s : state) : state :=
  mkState (f (dev s)) (m_max_len s) (issued s).
Definition set_max_len (v : Z) (s : state) : state :=
  mkState (dev s) v (issued s).
Definition log (l : launch) (s : state) : state :=
  mkState (dev s) (m_max_len s) (l :: issued s).

(** How a run of [update] (or of one of its loops) ends. *)
Inductive run : Type :=
| Finished (s : state)
| OutOfFuel (s : state)                   (* state reached when fuel ran out *)
| Error (s : state).                      (* std::runtime_error thrown *)

Definition state_of (r : run) : state :=
  match r with Finished s | OutOfFuel s | Error s => s end.

Variable K : kernels.
Variable cfg : config.
Variable timestep : Z.

Definition scalar_le (a b : Scalar) : bool := Qle_bool a b.
Definition scalar_is_zero (a : Scalar) : bool := Qeq_bool a 0.

(** The minimum image test at the start of [update]. *)
Definition box_too_small : bool :=
  (periodic_x cfg
     && scalar_le (nearest_plane_distance_x cfg) (m_nominal_width cfg * 2)%Q)
  || (periodic_y cfg
     && scalar_le (nearest_plane_distance_y cfg) (m_nominal_width cfg * 2)%Q)
  || ((NDimensions cfg =? 3) && periodic_z cfg
     && scalar_le (nearest_plane_distance_z cfg) (m_nominal_width cfg * 2)%Q).

(** The pairs visited by
    [for (itype = 0; itype < NTypes; ++itype)
       for (jtype = itype; jtype < NTypes; ++jtype)]. *)
Definition type_pairs : list (Z * Z) :=
  flat_map
    (fun itype =>
       map (fun d => (Z.of_nat itype, Z.of_nat (itype + d)))
           (seq 0 (Z.to_nat (NTypes cfg) - itype)))
    (seq 0 (Z.to_nat (NTypes cfg))).

(** The scan that sets [have_depletants], [have_auxilliary_variables]
    and [ntrial_tot]. *)
Definition scan_depletants : bool * bool * Z :=
  fold_left
    (fun '(have_depletants, have_aux, ntrial_tot) '(itype, jtype) =>
       let k := m_depletant_idx cfg itype jtype in
       if scalar_is_zero (m_fugacity cfg k)
       then (have_depletants, have_aux, ntrial_tot)
       else
         let ntrial := m_ntrial cfg k in
         if ntrial =? 0 then (true, have_aux, ntrial_tot)
         else (true, true, Uint.u32 (ntrial_tot + ntrial)))
    type_pairs (false, false, 0).

Definition have_depletants : bool := fst (fst scan_depletants).
Definition have_auxilliary_variables : bool := snd (fst scan_depletants).

(** Index of the sweep in the RNG key of the kernels. *)
Definition select_of (i : Z) : Z :=
  Uint.u32 (Uint.u32 (rank cfg * m_nselect cfg) + i).

Definition local_range : list nat := seq 0 (Z.to_nat (N cfg)).

(** [hipMemcpyAsync(d_reject, d_reject_out_of_cell)] and
    [hipMemsetAsync(d_reject_out, 0)] over the GPU partition. *)
Definition init_reject (s : state) : state :=
  on_dev (fun m =>
    set_reject_out (map (fun _ => false) local_range)
      (set_reject (map (fun i => nth i (m_reject_out_of_cell m) false)
                       local_range) m)) s.

(** Reset of the free energy accumulators at the head of the
    [reallocate_smem] loop. *)
Definition reset_deltaF (s : state) : state :=
  fold_left
    (fun s '(itype, jtype) =>
       let k := m_depletant_idx cfg itype jtype in
       if scalar_is_zero (m_fugacity cfg k) then s
       else if negb (m_ntrial cfg k =? 0) then
         log (ResetDeltaF itype jtype)
           (on_dev (fun m =>
              set_deltaF_int
                (set_slice k (map (fun _ => 0) local_range) (m_deltaF_int m)) m) s)
       else s)
    type_pairs s.

Definition launch_narrow_phase (i : Z) (s : state) : state :=
  let '(rej_out, c) := hpmc_narrow_phase K cfg timestep (select_of i) (dev s) in
  log NarrowPhase (on_dev (fun m => set_counters c (set_reject_out rej_out m)) s).

(** One pair of the depletant insertion loop; [ntrial_offset] is
    threaded along. *)
Definition insert_pair (i : Z) (acc : state * Z) (p : Z * Z) : state * Z :=
  let '(s, ntrial_offset) := acc in
  let '(itype, jtype) := p in
  let k := m_depletant_idx cfg itype jtype in
  if scalar_is_zero (m_fugacity cfg k) then (s, ntrial_offset)
  else
    let ntrial := m_ntrial cfg k in
    if ntrial =? 0 then
      let s1 :=
        log (GenerateNumDepletants itype jtype)
          (on_dev (fun m =>
             set_n_depletants
               (generate_num_depletants K cfg timestep (select_of i)
                  itype jtype m) m) s) in
      let '(rej_out, c) :=
        hpmc_insert_depletants K cfg timestep (select_of i) itype jtype (dev s1) in
      (log (InsertDepletants itype jtype)
         (on_dev (fun m => set_counters c (set_reject_out rej_out m)) s1),
       ntrial_offset)
    else
      let s1 :=
        log (GenerateNumDepletantsNtrial itype jtype)
          (on_dev (fun m =>
             set_n_depletants
               (generate_num_depletants_ntrial K cfg ntrial itype jtype
                  ntrial_offset m) m) s) in
      let phase (ker : config -> Z -> Z -> Z -> Z -> Z -> Z -> mem
                       -> list Z * Z * Counters) (l : launch) (s : state) :=
        let '(slice, req, c) :=
          ker cfg timestep (select_of i) itype jtype ntrial (m_max_len s) (dev s) in
        log l (on_dev (fun m =>
                 set_counters c
                   (set_req_len req
                      (set_deltaF_int (set_slice k slice (m_deltaF_int m)) m))) s) in
      let s2 := phase (hpmc_depletants_auxilliary_phase1 K)
                      (DepletantsPhase1 itype jtype) s1 in
      let s3 := phase (hpmc_depletants_auxilliary_phase2 K)
                      (DepletantsPhase2 itype jtype) s2 in
      (s3, Uint.u32 (ntrial_offset + Uint.u32 (Uint.u32 (ntrial * 2) * N cfg))).

Definition insert_depletants (i : Z) (s : state) : state :=
  fst (fold_left (insert_pair i) type_pairs (s, 0)).

(** [while (reallocate_smem)]: rerun the kernels of the iteration while
    the reported scratch length exceeds the allocated one. *)
Fixpoint reallocate_loop (fuel : nat) (i : Z) (s : state) : run :=
  match fuel with
  | O => OutOfFuel s
  | S fuel' =>
      let s1 := reset_deltaF s in
      let s2 := launch_narrow_phase i s1 in
      let s3 := insert_depletants i s2 in
      if m_max_len s3 <? m_req_len (dev s3)
      then reallocate_loop fuel' i (set_max_len (m_req_len (dev s3)) s3)
      else Finished s3
  end.

Definition launch_depletants_accept (i : Z) (s : state) : state :=
  log DepletantsAccept
    (on_dev (fun m =>
       set_reject_out (hpmc_depletants_accept K cfg timestep (select_of i) m) m) s).

Definition launch_patch (i : Z) (s : state) : state :=
  log PatchEnergy
    (on_dev (fun m =>
       set_reject_out (computePatchEnergyGPU K cfg timestep (select_of i) m) m) s).

Definition launch_check_convergence (s : state) : state :=
  let '(rej, rej_out, cond) := hpmc_check_convergence K cfg (dev s) in
  log CheckConvergence
    (on_dev (fun m =>
       set_condition cond (set_reject_out rej_out (set_reject rej m))) s).

(** [std::swap(m_reject, m_reject_out)]. *)
Definition swap_reject (s : state) : state :=
  let s' := on_dev (fun m =>
              set_reject_out (m_reject m) (set_reject (m_reject_out m) m)) s in
  log (SwapReject (m_reject (dev s'))) s'.

(** [while (!converged)]. *)
Fixpoint converge (fuel : nat) (i : Z) (s : state) : run :=
  match fuel with
  | O => OutOfFuel s
  | S fuel' =>
      let s0 := on_dev (set_condition 0) s in
      match reallocate_loop (S fuel') i s0 with
      | Finished s1 =>
          let after_depletants :=
            if have_depletants && have_auxilliary_variables then
              if m_max_len s1 <? m_req_len (dev s1)
              then inl (set_max_len (m_req_len (dev s1)) s1)   (* continue *)
              else inr (launch_depletants_accept i s1)
            else inr s1 in
          match after_depletants with
          | inl s2 => converge fuel' i s2
          | inr s2 =>
              let s3 := if patch_enabled cfg then launch_patch i s2 else s2 in
              let s4 := launch_check_convergence s3 in
              let s5 := swap_reject s4 in
              if m_condition (dev s5) =? 0 then Finished s5
              else converge fuel' i s5
          end
      | r => r
      end
  end.

Definition launch_gen_moves (i : Z) (s : state) : state :=
  let '(tr, ooc) := hpmc_gen_moves K cfg timestep i (dev s) in
  log (GenMoves i)
    (on_dev (fun m => set_reject_out_of_cell ooc (set_trial tr m)) s).

Definition launch_update_pdata (s : state) : state :=
  let '(p, c) := hpmc_update_pdata K (dev s) in
  log UpdatePdata (on_dev (fun m => set_counters c (set_pdata p m)) s).

(** One pass of the loop over [m_nselect]. *)
Definition sweep (fuel : nat) (i : Z) (s : state) : run :=
  match converge fuel i (init_reject (launch_gen_moves i s)) with
  | Finished s' => Finished (launch_update_pdata s')
  | r => r
  end.

Fixpoint sweeps (fuel : nat) (todo : list nat) (s : state) : run :=
  match todo with
  | [] => Finished s
  | i :: todo' =>
      match sweep fuel (Z.of_nat i) s with
      | Finished s' => sweeps fuel todo' s'
      | r => r
      end
  end.

Section Order.

Variable shuffle_draw : Z -> Z -> Z -> bool.

(** [update(timestep)].  The call of the base class
    [IntegratorHPMC::update] and the refresh of the additive cutoffs
    precede the test of the box and launch nothing; [communicate] and
    the invalidation of the AABB tree follow the last kernel.  They are
    outside the state modelled here. *)
Definition update (fuel : nat) (s : state) : run :=
  if 0 <? N cfg then
    if box_too_small then Error s
    else
      let s1 :=
        on_dev (fun m =>
          set_update_order
            (UpdateOrderGPU.shuffle shuffle_draw timestep 0
               (UpdateOrderGPU.resize (N cfg) (m_update_order m))) m) s in
      match sweeps fuel (seq 0 (Z.to_nat (m_nselect cfg))) s1 with
      | Finished s2 =>
          Finished (log Shift (on_dev (fun m => set_pdata (hpmc_shift K m) m) s2))
      | r => r
      end
  else Finished s.

End Order.

End Update.

Arguments mem : clear implicits.
Arguments kernels : clear implicits.
Arguments state : clear implicits.
Arguments run : clear implicits.

(** *** The reject propagation of the convergence engine *)

Section ConvergenceEngine.

Context {ParticleData Trial Depletants Counters : Type}.

Let mem := mem ParticleData Trial Depletants Counters.
Let kernels := kernels ParticleData Trial Depletants Counters.

(** The shape overlap predicate of the external interface, restricted to
    candidate neighbours: [overlap tr i j] tells whether the trial
    configuration of [i] overlaps the trial configuration of its
    neighbour [j]. *)
Variable overlap : Trial -> nat -> nat -> bool.

(** Position of particle [i] in the sampled update order
    ([d_update_order_by_ptl]). *)
Definition order_of (m : mem) (i : nat) : Z :=
  nth i (UpdateOrderGPU.get (m_update_order m)) 0.

(** Modelled from the spec: the kernel [gpu::hpmc_narrow_phase] is not
    among the sources.  "Each iteration, for every i compute
    reject_out[i] = reject_out_of_cell[i] OR (overlap(i.trial, j.trial)
    for any earlier-ordered neighbor j with reject[j] == false)". *)
Definition narrow_phase_spec (n : Z) (m : mem) : list bool :=
  let range := seq 0 (Z.to_nat n) in
  map (fun i =>
         nth i (m_reject_out_of_cell m) false
         || existsb (fun j =>
                       (order_of m j <? order_of m i)
                       && overlap (trial m) i j
                       && negb (nth j (m_reject m) false))
                    range)
      range.

(** Modelled from the spec: the kernel [gpu::hpmc_check_convergence] is
    not among the sources.  "set condition = (any value changed)"; the
    flags themselves are exchanged by the host's swap. *)
Definition check_convergence_spec (n : Z) (m : mem) : list bool * list bool * Z :=
  let changed :=
    existsb (fun i => negb (Bool.eqb (nth i (m_reject_out m) false)
                                     (nth i (m_reject m) false)))
            (seq 0 (Z.to_nat n)) in
  (m_reject m, m_reject_out m, if changed then 1 else m_condition m).

(** The kernels of a run whose reject decision is the one above; the
    remaining kernels stay those of [base]. *)
Definition spec_kernels (base : kernels) : kernels :=
  mkKernels
    (hpmc_gen_moves base)
    (fun cfg _ _ m => (narrow_phase_spec (N cfg) m, counters m))
    (generate_num_depletants base)
    (hpmc_insert_depletants base)
    (generate_num_depletants_ntrial base)
    (hpmc_depletants_auxilliary_phase1 base)
    (hpmc_depletants_auxilliary_phase2 base)
    (hpmc_depletants_accept base)
    (computePatchEnergyGPU base)
    (fun cfg m => check_convergence_spec (N cfg) m)
    (hpmc_update_pdata base)
    (hpmc_shift base).

End ConvergenceEngine.

End IntegratorHPMCMonoGPU.

(** ** HarmonicBondForceCompute.cc: [computeForces]

    [Scalar] is the IEEE binary64 type of the double precision build. *)

Module HarmonicBondForceCompute.

Import Floats.

Definition Scalar := float.

Record Scalar4 : Type := make_scalar4 { x : Scalar; y : Scalar; z : Scalar; w : Scalar }.

Arguments make_scalar4 (x y z w)%_float.

Record Bond : Type := mkBond { type : Z; a : Z; b : Z }.

Record BoxDim : Type := mkBox {
  xlo : Scalar; xhi : Scalar;
  ylo : Scalar; yhi : Scalar;
  zlo : Scalar; zhi : Scalar
}.

Arguments mkBox (xlo xhi ylo yhi zlo zhi)%_float.

(** [l[i] = f(l[i])]; an index past the end is excluded by the
    assertions of the source and leaves the array as it is. *)
Fixpoint alter {A : Type} (f : A -> A) (i : nat) (l : list A) : list A :=
  match l, i with
  | [], _ => []
  | v :: l', O => f v :: l'
  | v :: l', S i' => v :: alter f i' l'
  end.

(** [if (d >= L2) d -= L; else if (d < -L2) d += L;] *)
Definition pull_back (d L L2 : Scalar) : Scalar :=
  if (L2 <=? d)%float then (d - L)%float
  else if (d <? - L2)%float then (d + L)%float
  else d.

(** The values computed for one bond before they are added to the
    arrays. *)
Record terms : Type := mkTerms {
  dx : Scalar; dy : Scalar; dz : Scalar;
  r : Scalar;
  forcemag_divr_raw : Scalar;             (* before the isfinite test *)
  forcemag_divr : Scalar;
  bond_eng : Scalar;
  bond_virialxx : Scalar; bond_virialxy : Scalar; bond_virialxz : Scalar;
  bond_virialyy : Scalar; bond_virialyz : Scalar; bond_virialzz : Scalar
}.

Definition bond_terms (box : BoxDim) (pos_a pos_b : Scalar4) (K r_0 : Scalar)
  : terms :=
  let Lx := (xhi box - xlo box)%float in
  let Ly := (yhi box - ylo box)%float in
  let Lz := (zhi box - zlo box)%float in
  let Lx2 := (Lx / 2)%float in
  let Ly2 := (Ly / 2)%float in
  let Lz2 := (Lz / 2)%float in
  let dx := pull_back (x pos_b - x pos_a)%float Lx Lx2 in
  let dy := pull_back (y pos_b - y pos_a)%float Ly Ly2 in
  let dz := pull_back (z pos_b - z pos_a)%float Lz Lz2 in
  let rsq := (dx * dx + dy * dy + dz * dz)%float in
  let r := PrimFloat.sqrt rsq in
  let raw := (K * (r_0 / r - 1))%float in
  let forcemag_divr := if negb (is_finite raw) then 0%float else raw in
  let bond_eng := (0.5 * 0.5 * K * (r_0 - r) * (r_0 - r))%float in
  let forcemag_div2r := (0.5 * forcemag_divr)%float in
  mkTerms dx dy dz r raw forcemag_divr bond_eng
    (dx * dx * forcemag_div2r)%float (dx * dy * forcemag_div2r)%float
    (dx * dz * forcemag_div2r)%float (dy * dy * forcemag_div2r)%float
    (dy * dz * forcemag_div2r)%float (dz * dz * forcemag_div2r)%float.

(** What is added to the force, energy and virial of particle [b]; for
    particle [a] the force is subtracted. *)
Definition add_force (sign_b : bool) (t : terms) (f : Scalar4) : Scalar4 :=
  if sign_b then
    make_scalar4 (x f + forcemag_divr t * dx t)%float
                 (y f + forcemag_divr t * dy t)%float
                 (z f + forcemag_divr t * dz t)%float
                 (w f + bond_eng t)%float
  else
    make_scalar4 (x f - forcemag_divr t * dx t)%float
                 (y f - forcemag_divr t * dy t)%float
                 (z f - forcemag_divr t * dz t)%float
                 (w f + bond_eng t)%float.

Definition add_virial (virial_pitch idx : nat) (t : terms) (v : list Scalar)
  : list Scalar :=
  let add (row : nat) (c : Scalar) (v : list Scalar) :=
    alter (fun old => (old + c)%float) (row * virial_pitch + idx)%nat v in
  add 5%nat (bond_virialzz t)
    (add 4%nat (bond_virialyz t)
       (add 3%nat (bond_virialyy t)
          (add 2%nat (bond_virialxz t)
             (add 1%nat (bond_virialxy t)
                (add 0%nat (bond_virialxx t) v))))).

Record arrays : Type := mkArrays {
  h_force : list Scalar4;
  h_virial : list Scalar
}.

Section Compute.

Variable box : BoxDim.
Variable h_pos : list Scalar4.
Variable h_rtag : list Z.
Variables m_K m_r_0 : list Scalar.
Variable virial_pitch : nat.

Definition zero4 : Scalar4 := make_scalar4 0 0 0 0.

(** The terms of a bond, from the particle and parameter arrays. *)
Definition terms_of (bond : Bond) : terms :=
  let idx_a := Z.to_nat (nth (Z.to_nat (a bond)) h_rtag 0%Z) in
  let idx_b := Z.to_nat (nth (Z.to_nat (b bond)) h_rtag 0%Z) in
  bond_terms box (nth idx_a h_pos zero4) (nth idx_b h_pos zero4)
    (nth (Z.to_nat (type bond)) m_K 0%float)
    (nth (Z.to_nat (type bond)) m_r_0 0%float).

(** Body of the loop over the bonds. *)
Definition add_bond (acc : arrays) (bond : Bond) : arrays :=
  let idx_a := Z.to_nat (nth (Z.to_nat (a bond)) h_rtag 0%Z) in
  let idx_b := Z.to_nat (nth (Z.to_nat (b bond)) h_rtag 0%Z) in
  let t := terms_of bond in
  let f1 := alter (add_force true t) idx_b (h_force acc) in
  let v1 := add_virial virial_pitch idx_b t (h_virial acc) in
  let f2 := alter (add_force false t) idx_a f1 in
  let v2 := add_virial virial_pitch idx_a t v1 in
  mkArrays f2 v2.

(** [computeForces]: both arrays are zeroed, then every bond is added.
    No path throws. *)
Definition computeForces (bonds : list Bond) (old : arrays) : outcome arrays :=
  let zeroed := mkArrays (map (fun _ => zero4) (h_force old))
                         (map (fun _ => 0%float) (h_virial old)) in
  Returned (fold_left add_bond bonds zeroed).

End Compute.

(** *** The constructor and [setParams] *)

(** The parameter arrays, one entry per bond type. *)
Record params : Type := mkParams {
  NBondTypes : Z;                         (* m_bond_data->getNBondTypes() *)
  m_K : list Scalar;
  m_r_0 : list Scalar
}.

Inductive warning : Type :=
| NegativeK                               (* "K < 0 specified" *)
| NegativeR0.                             (* "r_0 <= 0 specified" *)

(** The constructor throws if there is no bond type; otherwise it
    allocates both arrays, whose entries are indeterminate ([junk_K],
    [junk_r_0]) until [setParams] writes them. *)
Definition construct (n_bond_types : Z) (junk_K junk_r_0 : nat -> Scalar)
  : outcome params :=
  if n_bond_types =? 0 then Thrown 0%nat
  else
    let range := seq 0 (Z.to_nat n_bond_types) in
    Returned (mkParams n_bond_types (map junk_K range) (map junk_r_0 range)).

(** [setParams(type, K, r_0)]: throws on a type that does not exist,
    else writes both entries and warns about negative values. *)
Definition setParams (p : params) (typ : Z) (K r_0 : Scalar)
  : outcome (params * list warning) :=
  if NBondTypes p <=? typ then Thrown 1%nat
  else
    let p' := mkParams (NBondTypes p)
                (alter (fun _ => K) (Z.to_nat typ) (m_K p))
                (alter (fun _ => r_0) (Z.to_nat typ) (m_r_0 p)) in
    Returned (p',
              (if (K <? 0)%float then [NegativeK] else [])
              ++ (if (r_0 <? 0)%float then [NegativeR0] else [])).

End HarmonicBondForceCompute.

(** * Properties *)

(** ** Machine integers *)

Module UintFacts.

Import Uint.

Lemma u32_id (x : Z) : 0 <= x < 2 ^ 32 -> u32 x = x.
Proof. intros H; unfold u32, modulus; now apply Z.mod_small. Qed.

Lemma i32_id (x : Z) : - 2 ^ 31 <= x < 2 ^ 31 -> i32 x = x.
Proof.
  intros H; unfold i32, modulus.
  destruct (Z_lt_le_dec x 0) as [Hneg|Hpos].
  - replace (x mod 2 ^ 32) with (x + 2 ^ 32).
    + destruct (Z.ltb_spec (x + 2 ^ 32) (2 ^ 31)); lia.
    + apply Z.mod_unique with (q := -1); lia.
  - rewrite Z.mod_small by lia.
    destruct (Z.ltb_spec x (2 ^ 31)); lia.
Qed.

End UintFacts.

(** ** ParticleFilterIntersection *)

Module ParticleFilterIntersectionFacts.

Import ParticleFilterIntersection.

Lemma sort_strongly_sorted (l : list Z) : StronglySorted Z.le (TagSort.sort l).
Proof.
  assert (H : StronglySorted (fun a b => is_true (ZOrder.leb a b)) (TagSort.sort l)).
  { apply TagSort.StronglySorted_sort.
    intros a b c Hab Hbc; unfold ZOrder.leb, is_true in *.
    apply Z.leb_le; apply Z.leb_le in Hab, Hbc; lia. }
  induction H as [|a l' Hs IH Hall]; constructor; auto.
  eapply Forall_impl; [|exact Hall].
  intros b Hb; now apply Z.leb_le.
Qed.

Lemma sort_count (l : list Z) (t : Z) :
  count_occ Z.eq_dec (TagSort.sort l) t = count_occ Z.eq_dec l t.
Proof.
  symmetry; revert t; apply (Permutation_count_occ Z.eq_dec).
  apply TagSort.Permuted_sort.
Qed.

(** Every element written comes from the first range. *)
Lemma set_intersection_incl (X Y : list Z) (t : Z) :
  In t (set_intersection X Y) -> In t X.
Proof.
  revert Y; induction X as [|x X' IHX]; intros Y; [simpl; tauto|].
  induction Y as [|y Y' IHY]; [simpl; tauto|].
  simpl; destruct (x <? y); [intros H; right; exact (IHX _ H)|].
  destruct (y <? x); [exact IHY|].
  intros [H|H]; [now left | right; exact (IHX _ H)].
Qed.

(** The output never overruns the [min(X.size(), Y.size())] slots. *)
Lemma set_intersection_cons (x y : Z) (X' Y' : list Z) :
  set_intersection (x :: X') (y :: Y')
  = if x <? y then set_intersection X' (y :: Y')
    else if y <? x then set_intersection (x :: X') Y'
    else x :: set_intersection X' Y'.
Proof. reflexivity. Qed.

(** The output never overruns the [min(X.size(), Y.size())] slots. *)
Lemma set_intersection_length (X Y : list Z) :
  (length (set_intersection X Y) <= Nat.min (length X) (length Y))%nat.
Proof.
  revert Y; induction X as [|x X' IHX]; intros Y; [simpl; lia|].
  induction Y as [|y Y' IHY]; [simpl; lia|].
  rewrite set_intersection_cons.
  destruct (x <? y).
  - specialize (IHX (y :: Y')). cbn [length] in *. lia.
  - destruct (y <? x).
    + cbn [length] in *. lia.
    + specialize (IHX Y'). cbn [length] in *. lia.
Qed.

Lemma set_intersection_sorted (X Y : list Z) :
  StronglySorted Z.le X -> StronglySorted Z.le (set_intersection X Y).
Proof.
  revert Y; induction X as [|x X' IHX]; intros Y HX; [constructor|].
  inversion HX as [|? ? HX' Hall]; subst.
  induction Y as [|y Y' IHY]; [constructor|].
  simpl; destruct (x <? y); [now apply IHX|].
  destruct (y <? x); [exact IHY|].
  constructor; [now apply IHX|].
  apply Forall_forall; intros t Ht.
  apply set_intersection_incl in Ht.
  rewrite Forall_forall in Hall; now apply Hall.
Qed.

Lemma count_below_head (y : Z) (Y : list Z) (t : Z) :
  StronglySorted Z.le (y :: Y) -> t < y -> count_occ Z.eq_dec (y :: Y) t = 0%nat.
Proof.
  intros HS Hlt; apply count_occ_not_In; intros Hin.
  inversion HS as [|? ? _ Hall]; subst.
  destruct Hin as [->|Hin]; [lia|].
  rewrite Forall_forall in Hall; specialize (Hall _ Hin); lia.
Qed.

(** On sorted ranges the output holds each value as often as the range
    that holds it less often. *)
Lemma set_intersection_count (X Y : list Z) (t : Z) :
  StronglySorted Z.le X -> StronglySorted Z.le Y ->
  count_occ Z.eq_dec (set_intersection X Y) t
  = Nat.min (count_occ Z.eq_dec X t) (count_occ Z.eq_dec Y t).
Proof.
  revert Y; induction X as [|x X' IHX]; intros Y HX HY; [reflexivity|].
  assert (HX' : StronglySorted Z.le X') by (inversion HX; assumption).
  induction Y as [|y Y' IHY]; [simpl; lia|].
  assert (HY' : StronglySorted Z.le Y') by (inversion HY; assumption).
  rewrite set_intersection_cons.
  destruct (Z.ltb_spec x y) as [Hxy|Hxy].
  - rewrite (IHX _ HX' HY).
    destruct (Z.eq_dec x t) as [->|Hne].
    + rewrite (count_below_head y Y' t HY Hxy); lia.
    + now rewrite (count_occ_cons_neq _ X' Hne).
  - destruct (Z.ltb_spec y x) as [Hyx|Hyx].
    + rewrite (IHY HY').
      destruct (Z.eq_dec y t) as [->|Hne].
      * rewrite (count_below_head x X' t HX Hyx); lia.
      * now rewrite (count_occ_cons_neq _ Y' Hne).
    + assert (y = x) by lia; subst y.
      destruct (Z.eq_dec x t) as [->|Hne].
      * rewrite !count_occ_cons_eq by reflexivity.
        rewrite (IHX _ HX' HY'); lia.
      * rewrite !(count_occ_cons_neq _ _ Hne).
        now apply IHX.
Qed.

Example set_intersection_multiset :
  set_intersection [1; 2; 2; 5; 7] [2; 2; 2; 3; 7; 9] = [2; 2; 7].
Proof. reflexivity. Qed.

Example getSelectedTags_unsorted_components :
  getSelectedTags unit (fun _ => [7; 1; 5; 2]) (fun _ => [9; 2; 7; 3]) tt = [2; 7].
Proof. reflexivity. Qed.

(** C10.  [getSelectedTags] of the intersection of two filters returns
    an ascending list; a tag is in it exactly when it is in the result of
    both components; each tag occurs as often as in the component that
    holds it less often, hence once when the components are free of
    duplicates; no tag missing from a component is returned. *)
Theorem getSelectedTags_is_intersection
  (SystemDefinition : Type) (m_f m_g : SystemDefinition -> list Z)
  (sysdef : SystemDefinition) :
  let tags := getSelectedTags SystemDefinition m_f m_g sysdef in
  StronglySorted Z.le tags
  /\ (forall t, In t tags <-> In t (m_f sysdef) /\ In t (m_g sysdef))
  /\ (forall t, count_occ Z.eq_dec tags t
                = Nat.min (count_occ Z.eq_dec (m_f sysdef) t)
                          (count_occ Z.eq_dec (m_g sysdef) t))
  /\ (NoDup (m_f sysdef) -> NoDup (m_g sysdef) -> NoDup tags).
Proof.
  intros tags.
  set (X := TagSort.sort (m_f sysdef)).
  set (Y := TagSort.sort (m_g sysdef)).
  assert (Htags : tags = set_intersection X Y).
  { unfold tags, getSelectedTags; fold X Y.
    apply firstn_all2, set_intersection_length. }
  assert (HX : StronglySorted Z.le X) by apply sort_strongly_sorted.
  assert (HY : StronglySorted Z.le Y) by apply sort_strongly_sorted.
  assert (Hcount : forall t, count_occ Z.eq_dec tags t
                    = Nat.min (count_occ Z.eq_dec (m_f sysdef) t)
                              (count_occ Z.eq_dec (m_g sysdef) t)).
  { intros t; rewrite Htags, set_intersection_count by assumption.
    unfold X, Y; now rewrite !sort_count. }
  split; [rewrite Htags; now apply set_intersection_sorted|].
  split; [|split; [exact Hcount|]].
  - intros t.
    rewrite (count_occ_In Z.eq_dec tags), (count_occ_In Z.eq_dec (m_f sysdef)),
      (count_occ_In Z.eq_dec (m_g sysdef)), Hcount; lia.
  - intros Hf Hg.
    apply (NoDup_count_occ Z.eq_dec); intros t; rewrite Hcount.
    rewrite (NoDup_count_occ Z.eq_dec) in Hf; specialize (Hf t); lia.
Qed.

End ParticleFilterIntersectionFacts.

(** ** UpdateOrderGPU *)

Module UpdateOrderGPUFacts.

Import Uint UintFacts UpdateOrderGPU.

Lemma nth_map_seq {A : Type} (f : nat -> A) (n i : nat) (d : A) :
  (i < n)%nat -> nth i (map f (seq 0 n)) d = f i.
Proof.
  intros Hi.
  rewrite (nth_indep _ d (f 0%nat)) by (now rewrite length_map, length_seq).
  rewrite map_nth, seq_nth by assumption; reflexivity.
Qed.

(** The two arrays after a [resize] that rebuilds them. *)
Lemma resize_arrays (N : Z) (o : t) (i : Z) :
  0 < N < 2 ^ 32 -> N <> size o -> 0 <= i < N ->
  nth (Z.to_nat i) (m_update_order (resize N o)) 0 = i
  /\ nth (Z.to_nat i) (m_reverse_update_order (resize N o)) 0 = N - 1 - i
  /\ m_is_reversed (resize N o) = false.
Proof.
  intros HN Hsize Hi; unfold resize.
  destruct (Z.eqb_spec N 0) as [|_]; [lia|].
  destruct (Z.eqb_spec N (size o)) as [|_]; [contradiction|].
  cbn [orb m_update_order m_reverse_update_order m_is_reversed].
  rewrite !map_map, !nth_map_seq by lia.
  rewrite Z2Nat.id by lia.
  repeat split; trivial.
  rewrite (u32_id (N - i)) by lia.
  rewrite u32_id by lia; lia.
Qed.

(** On [getN()] particles the order built by [update] maps every
    particle to a position below [N]. *)
Lemma order_in_range (draw : Z -> Z -> Z -> bool) (N ts sel : Z) (o : t) (i : Z) :
  0 < N < 2 ^ 32 -> N <> size o -> 0 <= i < N ->
  0 <= at_ (shuffle draw ts sel (resize N o)) i < N.
Proof.
  intros HN Hsize Hi.
  destruct (resize_arrays N o i HN Hsize Hi) as (Hf & Hr & _).
  unfold at_, get, shuffle; cbn [m_is_reversed m_update_order m_reverse_update_order].
  destruct (draw _ ts sel); [rewrite Hr | rewrite Hf]; lia.
Qed.

(** C9.  [shuffle] changes the reversal flag only, setting it to the bit
    drawn for [(seed, timestep, select)]; after a [resize] to a new
    nonzero [N] the forward order holds [i] and the reverse order
    [N-1-i] at index [i], the flag is unset, and [operator[]] returns
    [i] or [N-1-i] as the flag is unset or set. *)
Theorem shuffle_touches_only_the_flag
  (draw : Z -> Z -> Z -> bool) (o : t) (N timestep select i : Z) :
  0 < N < 2 ^ 32 -> N <> size o -> 0 <= i < N ->
  (m_update_order (shuffle draw timestep select o) = m_update_order o
   /\ m_reverse_update_order (shuffle draw timestep select o)
      = m_reverse_update_order o
   /\ m_seed (shuffle draw timestep select o) = m_seed o
   /\ m_is_reversed (shuffle draw timestep select o)
      = draw (m_seed o) timestep select)
  /\ (nth (Z.to_nat i) (m_update_order (resize N o)) 0 = i
      /\ nth (Z.to_nat i) (m_reverse_update_order (resize N o)) 0 = N - 1 - i
      /\ m_is_reversed (resize N o) = false)
  /\ at_ (resize N o) i = i
  /\ at_ (shuffle draw timestep select (resize N o)) i
     = if m_is_reversed (shuffle draw timestep select (resize N o))
       then N - 1 - i else i.
Proof.
  intros HN Hsize Hi.
  destruct (resize_arrays N o i HN Hsize Hi) as (Hf & Hr & Hflag).
  split; [repeat split|].
  split; [repeat split; assumption|].
  split.
  - unfold at_, get; now rewrite Hflag.
  - unfold at_, get, shuffle;
      cbn [m_is_reversed m_update_order m_reverse_update_order].
    destruct (draw _ timestep select); assumption.
Qed.

Lemma shuffle_touches_only_the_flag_witness :
  at_ (shuffle (fun _ _ _ => true) 7 0 (resize 4 (empty 42))) 1 = 2.
Proof.
  exact (proj2 (proj2 (proj2
    (shuffle_touches_only_the_flag (fun _ _ _ => true) (empty 42) 4 7 0 1
       ltac:(lia) ltac:(vm_compute; discriminate)
       ltac:(lia))))).
Defined.

End UpdateOrderGPUFacts.

(** ** DomainDecomposition: neighbour ranks *)

Module NeighborFacts.

Import Uint UintFacts DomainDecomposition.

(** The code's wrapping is the residue modulo the extent. *)
Lemma wrap_neighbor_mod (pos a n : Z) :
  0 <= pos < n -> n < 2 ^ 31 -> -1 <= a <= 1 ->
  wrap_neighbor pos a n = (pos + a) mod n.
Proof.
  intros Hpos Hn Ha; unfold wrap_neighbor.
  rewrite (i32_id pos), (i32_id (pos + a)), (i32_id n) by lia.
  destruct (Z.ltb_spec (pos + a) 0) as [Hneg|Hnn].
  - assert (pos + a = -1) as -> by lia.
    replace (u32 (-1)) with (2 ^ 32 - 1) by reflexivity.
    replace (u32 (2 ^ 32 - 1 + n)) with (n - 1).
    + rewrite i32_id by lia.
      apply Z.mod_unique with (q := -1); lia.
    + unfold u32, modulus.
      apply Z.mod_unique with (q := 1); lia.
  - destruct (Z.eqb_spec (pos + a) n) as [Heq|Hne].
    + rewrite Heq, (u32_id n), Z.sub_diag by lia.
      rewrite Z.mod_same by lia; reflexivity.
    + rewrite Z.mod_small by lia; reflexivity.
Qed.

Lemma index3_in_grid (nx ny nz i j k : Z) :
  0 <= i < nx -> 0 <= j < ny -> 0 <= k < nz -> nx * ny * nz < 2 ^ 31 ->
  index3 (mkIndex3D nx ny nz) i j k = (k * ny + j) * nx + i
  /\ 0 <= (k * ny + j) * nx + i < nx * ny * nz.
Proof.
  intros Hi Hj Hk Hsize.
  assert (0 <= k * ny) by nia.
  assert (k * ny <= (nz - 1) * ny) by nia.
  assert (0 <= k * ny + j < ny * nz) by lia.
  assert (0 <= (k * ny + j) * nx) by nia.
  assert ((k * ny + j) * nx <= (ny * nz - 1) * nx) by nia.
  assert (Hb : 0 <= (k * ny + j) * nx + i < nx * ny * nz) by lia.
  assert (ny * nz <= nx * ny * nz) by nia.
  assert (nz <= ny * nz) by nia.
  assert (ny <= ny * nz) by nia.
  assert (1 <= ny * nz) by nia.
  assert (nx <= nx * ny * nz) by nia.
  split; [|exact Hb].
  unfold index3; cbn [m_h m_w].
  rewrite (u32_id k), (u32_id j), (u32_id i) by lia.
  rewrite (u32_id (k * ny)) by lia.
  rewrite (u32_id (k * ny + j)) by lia.
  apply u32_id; lia.
Qed.

(** [getTriple] inverts the indexer on the grid. *)
Lemma getTriple_index3 (nx ny nz i j k : Z) :
  0 <= i < nx -> 0 <= j < ny -> 0 <= k < nz -> nx * ny * nz < 2 ^ 31 ->
  getTriple (mkIndex3D nx ny nz) ((k * ny + j) * nx + i) = make_uint3 i j k.
Proof.
  intros Hi Hj Hk Hsize.
  assert (0 < nx * ny) by nia.
  assert (nx * ny * 1 <= nx * ny * nz) by (apply Z.mul_le_mono_nonneg_l; lia).
  unfold getTriple; cbn [m_h m_w].
  rewrite (u32_id (nx * ny)) by lia.
  assert (Hdiv : ((k * ny + j) * nx + i) / nx = k * ny + j).
  { rewrite Z.add_comm, Z.div_add by lia.
    rewrite Z.div_small by lia; lia. }
  f_equal.
  - rewrite Z.add_comm, Z.mod_add by lia. apply Z.mod_small; lia.
  - rewrite Hdiv, Z.add_comm, Z.mod_add by lia. apply Z.mod_small; lia.
  - rewrite <- Z.div_div by lia.
    rewrite Hdiv, Z.add_comm, Z.div_add by lia.
    rewrite Z.div_small by lia; lia.
Qed.

(** The grid position of a rank lies in the grid and indexes the rank. *)
Lemma getTriple_in_grid (nx ny nz A : Z) :
  0 < nx -> 0 < ny -> 0 < nz -> nx * ny * nz < 2 ^ 31 -> 0 <= A < nx * ny * nz ->
  let p := getTriple (mkIndex3D nx ny nz) A in
  0 <= ux p < nx /\ 0 <= uy p < ny /\ 0 <= uz p < nz
  /\ (uz p * ny + uy p) * nx + ux p = A.
Proof.
  intros Hx Hy Hz Hsize HA p.
  assert (0 < nx * ny) by nia.
  assert (nx * ny * 1 <= nx * ny * nz) by (apply Z.mul_le_mono_nonneg_l; lia).
  unfold p, getTriple; cbn [m_h m_w ux uy uz].
  rewrite (u32_id (nx * ny)) by lia.
  rewrite <- Z.div_div by lia.
  pose proof (Z.mod_pos_bound A nx Hx).
  pose proof (Z.mod_pos_bound (A / nx) ny Hy).
  pose proof (Z.div_mod A nx ltac:(lia)) as E1.
  pose proof (Z.div_mod (A / nx) ny ltac:(lia)) as E2.
  assert (0 <= A / nx) by (apply Z.div_pos; lia).
  assert (0 <= A / nx / ny) by (apply Z.div_pos; lia).
  assert (A / nx / ny < nz).
  { apply Z.div_lt_upper_bound; [lia|].
    apply Z.div_lt_upper_bound; [lia|]. nia. }
  repeat split; lia.
Qed.

(** The direction opposite to [dir]: 0 and 1, 2 and 3, 4 and 5. *)
Definition opposite (dir : Z) : Z :=
  if Z.even dir then dir + 1 else dir - 1.

(** [getNeighborRank] with the row of [adj] made explicit. *)
Definition neighbor_by (dd : t) (a : Z * Z * Z) : Z :=
  let '(ai, aj, ak) := a in
  index3 (m_index dd)
    (wrap_neighbor (ux (m_grid_pos dd)) ai (m_nx dd))
    (wrap_neighbor (uy (m_grid_pos dd)) aj (m_ny dd))
    (wrap_neighbor (uz (m_grid_pos dd)) ak (m_nz dd)).

Lemma getNeighborRank_by (dd : t) (dir : Z) :
  getNeighborRank dd dir = neighbor_by dd (adj dir).
Proof. unfold getNeighborRank, neighbor_by; now destruct (adj dir) as [[? ?] ?]. Qed.

Lemma neighbor_by_torus (nx ny nz A root ai aj ak : Z) :
  0 < nx -> 0 < ny -> 0 < nz -> nx * ny * nz < 2 ^ 31 -> 0 <= A < nx * ny * nz ->
  -1 <= ai <= 1 -> -1 <= aj <= 1 -> -1 <= ak <= 1 ->
  let dd := on_rank nx ny nz A root in
  let p := m_grid_pos dd in
  let B := neighbor_by dd (ai, aj, ak) in
  getTriple (m_index dd) B
  = make_uint3 ((ux p + ai) mod nx) ((uy p + aj) mod ny) ((uz p + ak) mod nz)
  /\ 0 <= B < nx * ny * nz
  /\ neighbor_by (on_rank nx ny nz B root) (- ai, - aj, - ak) = A.
Proof.
  intros Hx Hy Hz Hsize HA Hai Haj Hak dd p B.
  destruct (getTriple_in_grid nx ny nz A Hx Hy Hz Hsize HA)
    as (Hpx & Hpy & Hpz & HpA).
  change (getTriple (mkIndex3D nx ny nz) A) with p in Hpx, Hpy, Hpz, HpA.
  assert (0 < nx * ny) by nia.
  assert (nx * ny * 1 <= nx * ny * nz) by (apply Z.mul_le_mono_nonneg_l; lia).
  assert (nx * 1 <= nx * ny) by (apply Z.mul_le_mono_nonneg_l; lia).
  assert (0 < ny * nz) by nia.
  assert (1 * (ny * nz) <= nx * (ny * nz)) by (apply Z.mul_le_mono_nonneg_r; lia).
  assert (ny * 1 <= ny * nz) by (apply Z.mul_le_mono_nonneg_l; lia).
  assert (1 * nz <= ny * nz) by (apply Z.mul_le_mono_nonneg_r; lia).
  pose proof (Z.mod_pos_bound (ux p + ai) nx Hx) as Bx.
  pose proof (Z.mod_pos_bound (uy p + aj) ny Hy) as By.
  pose proof (Z.mod_pos_bound (uz p + ak) nz Hz) as Bz.
  assert (HB : B = ((uz p + ak) mod nz * ny + (uy p + aj) mod ny) * nx
                   + (ux p + ai) mod nx).
  { unfold B, neighbor_by, dd, on_rank; cbn [m_index m_grid_pos m_nx m_ny m_nz].
    change (getTriple (mkIndex3D nx ny nz) A) with p.
    rewrite !wrap_neighbor_mod by lia.
    now apply index3_in_grid. }
  destruct (index3_in_grid nx ny nz _ _ _ Bx By Bz Hsize) as (_ & HBrange).
  rewrite <- HB in HBrange.
  assert (HT : getTriple (mkIndex3D nx ny nz) B
               = make_uint3 ((ux p + ai) mod nx) ((uy p + aj) mod ny)
                            ((uz p + ak) mod nz)).
  { rewrite HB; now apply getTriple_index3. }
  split; [exact HT|]. split; [exact HBrange|].
  unfold neighbor_by, on_rank; cbn [m_index m_grid_pos m_nx m_ny m_nz].
  rewrite HT; cbn [ux uy uz].
  rewrite !wrap_neighbor_mod by lia.
  rewrite !Z.add_opp_r, !Zminus_mod_idemp_l.
  replace (ux p + ai - ai) with (ux p) by lia.
  replace (uy p + aj - aj) with (uy p) by lia.
  replace (uz p + ak - ak) with (uz p) by lia.
  rewrite !Z.mod_small by lia.
  destruct (index3_in_grid nx ny nz _ _ _ Hpx Hpy Hpz Hsize) as (-> & _).
  exact HpA.
Qed.

Example neighbors_of_corner :
  map (getNeighborRank (on_rank 3 2 2 0 0)) [0; 1; 2; 3; 4; 5] = [1; 2; 3; 3; 6; 6].
Proof. reflexivity. Qed.

(** C4.  On a grid whose extents multiply to the number of ranks, the
    neighbour of rank [A] in direction [d] is the rank whose grid
    coordinate is that of [A] moved by the row [adj d] (plus or minus
    one along the axis of [d]) and wrapped modulo the extents; and [A] is
    the neighbour of that rank in the opposite direction. *)
Theorem getNeighborRank_torus_symmetric (nx ny nz A root d : Z) :
  0 < nx -> 0 < ny -> 0 < nz -> nx * ny * nz < 2 ^ 31 ->
  0 <= A < nx * ny * nz -> 0 <= d < 6 ->
  let dd := on_rank nx ny nz A root in
  let p := m_grid_pos dd in
  let B := getNeighborRank dd d in
  adj d = (let s := if Z.even d then 1 else -1 in
           (if d / 2 =? 0 then s else 0,
            if d / 2 =? 1 then s else 0,
            if d / 2 =? 2 then s else 0))
  /\ getTriple (m_index dd) B
     = make_uint3 ((ux p + fst (fst (adj d))) mod nx)
                  ((uy p + snd (fst (adj d))) mod ny)
                  ((uz p + snd (adj d)) mod nz)
  /\ 0 <= B < nx * ny * nz
  /\ getNeighborRank (on_rank nx ny nz B root) (opposite d) = A.
Proof.
  intros Hx Hy Hz Hsize HA Hd dd p B.
  assert (Hcases : d = 0 \/ d = 1 \/ d = 2 \/ d = 3 \/ d = 4 \/ d = 5) by lia.
  unfold B; rewrite !getNeighborRank_by.
  destruct Hcases as [->|[->|[->|[->|[->| ->]]]]];
    (split; [reflexivity|]);
    match goal with
    | |- context [neighbor_by dd (adj ?k)] =>
        let a := eval vm_compute in (adj k) in
        change (adj k) with a;
        let b := eval vm_compute in (adj (opposite k)) in
        change (adj (opposite k)) with b
    end;
    cbn [fst snd].
  - exact (neighbor_by_torus nx ny nz A root 1 0 0 Hx Hy Hz Hsize HA
             ltac:(lia) ltac:(lia) ltac:(lia)).
  - exact (neighbor_by_torus nx ny nz A root (-1) 0 0 Hx Hy Hz Hsize HA
             ltac:(lia) ltac:(lia) ltac:(lia)).
  - exact (neighbor_by_torus nx ny nz A root 0 1 0 Hx Hy Hz Hsize HA
             ltac:(lia) ltac:(lia) ltac:(lia)).
  - exact (neighbor_by_torus nx ny nz A root 0 (-1) 0 Hx Hy Hz Hsize HA
             ltac:(lia) ltac:(lia) ltac:(lia)).
  - exact (neighbor_by_torus nx ny nz A root 0 0 1 Hx Hy Hz Hsize HA
             ltac:(lia) ltac:(lia) ltac:(lia)).
  - exact (neighbor_by_torus nx ny nz A root 0 0 (-1) Hx Hy Hz Hsize HA
             ltac:(lia) ltac:(lia) ltac:(lia)).
Qed.

Lemma getNeighborRank_torus_symmetric_witness :
  getNeighborRank (on_rank 2 2 2 (getNeighborRank (on_rank 2 2 2 5 0) 0) 0)
    (opposite 0) = 5.
Proof.
  exact (proj2 (proj2 (proj2
    (getNeighborRank_torus_symmetric 2 2 2 5 0 0
       ltac:(lia) ltac:(lia) ltac:(lia) ltac:(lia) ltac:(lia) ltac:(lia))))).
Defined.

End NeighborFacts.

(** ** DomainDecomposition: the search for a decomposition *)

Module DecompositionFacts.

Import Uint UintFacts DomainDecomposition.

(** Hoare rule for the counted loop: an invariant carried from [lo] to
    the first index [hi] where the condition fails, with fuel to spare. *)
Lemma for_loop_inv {S : Type} (Inv : Z -> S -> Prop) (cond : Z -> bool)
  (body : Z -> S -> option S) (hi : Z) :
  hi < 2 ^ 32 ->
  cond hi = false ->
  forall (fuel : nat) (lo : Z) (s : S),
    0 <= lo <= hi ->
    (forall i, lo <= i < hi -> cond i = true) ->
    (forall i s, lo <= i < hi -> Inv i s ->
                 exists s', body i s = Some s' /\ Inv (i + 1) s') ->
    Inv lo s ->
    (Z.to_nat (hi - lo) < fuel)%nat ->
    exists s', for_loop fuel cond body lo s = Some s' /\ Inv hi s'.
Proof.
  intros Hhi Hend fuel; induction fuel as [|fuel IH];
    intros lo s Hlo Hcond Hbody Hinv Hfuel; [lia|].
  cbn [for_loop].
  destruct (Z.eq_dec lo hi) as [->|Hne].
  - rewrite Hend; eauto.
  - rewrite Hcond by lia.
    destruct (Hbody lo s ltac:(lia) Hinv) as (s' & -> & Hinv').
    rewrite u32_id by lia.
    apply IH; try lia; trivial.
    + intros i Hi; apply Hcond; lia.
    + intros i s0 Hi; apply Hbody; lia.
Qed.

Lemma scalar_lt_spec (a b : Scalar) :
  if scalar_lt a b then (a < b)%Q else (b <= a)%Q.
Proof.
  unfold scalar_lt; destruct (a ?= b)%Q eqn:E.
  - apply Qeq_alt in E; rewrite E; apply Qle_refl.
  - now apply Qlt_alt.
  - apply Qgt_alt in E; now apply Qlt_le_weak.
Qed.

(** Bounds of the loops for a communicator of [P] ranks. *)
Lemma product_bound (P a b : Z) :
  0 < P -> 0 < a -> 0 <= b -> a * b <= P <-> b <= P / a.
Proof.
  intros HP Ha Hb; split; intros H.
  - apply Z.div_le_lower_bound; lia.
  - pose proof (Z.mul_div_le P a Ha). nia.
Qed.

Lemma product_bound_next (P a : Z) :
  0 < P -> 0 < a -> P < a * (P / a + 1) <= P + a.
Proof.
  intros HP Ha.
  pose proof (Z.mul_div_le P a Ha).
  pose proof (Z.mul_succ_div_gt P a Ha).
  lia.
Qed.

Section Search.

Variable P : Z.
Variable L : Scalar3.
Hypothesis HP : 0 < P < 2 ^ 31.

Let fuel := (Z.to_nat P + 1)%nat.

(** A factorization of [P] into three positive extents. *)
Definition factorization (a b c : Z) : Prop :=
  1 <= a /\ 1 <= b /\ 1 <= c /\ a * b * c = P.

(** The search state holds a factorization whose area is minimal among
    the factorizations in [V]. *)
Definition best (V : Z -> Z -> Z -> Prop) (s : search) : Prop :=
  found_decomposition s = true
  /\ factorization (s_nx s) (s_ny s) (s_nz s)
  /\ (min_surface_area s == surface_area_of L (s_nx s) (s_ny s) (s_nz s))%Q
  /\ forall a b c, factorization a b c -> V a b c ->
       (min_surface_area s <= surface_area_of L a b c)%Q.

Lemma best_weaken (V V' : Z -> Z -> Z -> Prop) (s : search) :
  best V s ->
  (forall a b c, factorization a b c -> V' a b c -> V a b c) ->
  best V' s.
Proof.
  intros (Hf & Hfac & Hmin & Hall) Hsub; repeat split; trivial; try apply Hfac.
  intros a b c Habc HV'; apply Hall; auto.
Qed.

Lemma try_triple_best (V : Z -> Z -> Z -> Prop) (a b c : Z) (s : search) :
  1 <= a -> 1 <= b -> 1 <= c -> a * b <= P -> a * b * c <= 2 * P ->
  best V s ->
  best (fun a' b' c' => V a' b' c' \/ (a' = a /\ b' = b /\ c' = c))
       (try_triple P L 0 a b c s).
Proof.
  intros Ha Hb Hc Hab Habc Hbest.
  unfold try_triple; cbn [Z.eqb negb andb].
  assert (0 <= a * b) by nia.
  assert (0 <= a * b * c) by nia.
  rewrite (u32_id (a * b)), (u32_id (a * b * c)) by lia.
  destruct (Z.eqb_spec (a * b * c) P) as [Heq|Hne]; cbn [negb].
  - destruct Hbest as (Hf & Hfac & Hmin & Hall).
    rewrite Hf; cbn [negb]; rewrite orb_false_r.
    pose proof (scalar_lt_spec (surface_area_of L a b c) (min_surface_area s)) as Hlt.
    destruct (scalar_lt (surface_area_of L a b c) (min_surface_area s)).
    + repeat split; cbn [found_decomposition s_nx s_ny s_nz min_surface_area];
        try lia; try apply Qeq_refl.
      intros a' b' c' Hfac' [HV|(-> & -> & ->)]; [|apply Qle_refl].
      apply Qle_trans with (min_surface_area s); [now apply Qlt_le_weak|auto].
    + repeat split; trivial; try apply Hfac.
      intros a' b' c' Hfac' [HV|(-> & -> & ->)]; auto.
  - apply (best_weaken V); trivial.
    intros a' b' c' (_ & _ & _ & Hprod) [HV|(-> & -> & ->)]; [trivial|lia].
Qed.

(** The innermost loop visits every third extent of a factorization
    that starts with [(a, b)]. *)
Lemma loop_nz_best (V : Z -> Z -> Z -> Prop) (a b : Z) (s : search) :
  1 <= a -> 1 <= b -> a * b <= P ->
  best V s ->
  exists s', loop_nz fuel P L 0 a b s = Some s'
             /\ best (fun a' b' c' => V a' b' c' \/ (a' = a /\ b' = b)) s'.
Proof.
  intros Ha Hb Hab Hbest.
  assert (Hab0 : 0 < a * b) by nia.
  pose proof (product_bound_next P (a * b) ltac:(lia) Hab0) as Hnext.
  assert (0 <= P / (a * b) <= P).
  { split; [apply Z.div_pos; lia|].
    apply Z.div_le_upper_bound; [lia|]. nia. }
  destruct (for_loop_inv
              (fun k s => best (fun a' b' c' =>
                                  V a' b' c' \/ (a' = a /\ b' = b /\ c' < k)) s)
              (fun nz_try => u32 (u32 (a * b) * nz_try) <=? P)
              (fun nz_try s => Some (try_triple P L 0 a b nz_try s))
              (P / (a * b) + 1) ltac:(lia))
    with (fuel := fuel) (lo := 1) (s := s) as (s' & Hrun & Hs').
  - rewrite (u32_id (a * b)), u32_id by lia. apply Z.leb_gt; lia.
  - lia.
  - intros i Hi.
    assert (a * b * i <= P) by (apply product_bound; lia).
    assert (0 <= a * b * i) by nia.
    rewrite (u32_id (a * b)), u32_id by lia. now apply Z.leb_le.
  - intros i s0 Hi Hinv; eexists; split; [reflexivity|].
    assert (a * b * i <= P) by (apply product_bound; lia).
    assert (0 <= a * b * i) by nia.
    pose proof (try_triple_best _ a b i s0 ltac:(lia) ltac:(lia) ltac:(lia)
                  ltac:(lia) ltac:(lia) Hinv) as Hstep.
    eapply best_weaken; [exact Hstep|].
    cbn beta; intros a' b' c' _ [HV|(-> & -> & Hc)]; [auto|].
    destruct (Z.eq_dec c' i) as [->|]; [right; auto|].
    left; right; repeat split; lia.
  - eapply best_weaken; [exact Hbest|].
    cbn beta; intros a' b' c' (_ & _ & Hc' & _) [HV|(_ & _ & Hc)]; [trivial|lia].
  - unfold fuel; lia.
  - exists s'; split; [exact Hrun|].
    eapply best_weaken; [exact Hs'|].
    cbn beta; intros a' b' c' (Ha' & Hb' & Hc' & Hprod) [HV|(-> & ->)]; [auto|].
    right; repeat split; trivial.
    assert (c' <= P / (a * b)) by (apply product_bound; lia).
    lia.
Qed.

Lemma loop_ny_best (V : Z -> Z -> Z -> Prop) (a : Z) (s : search) :
  1 <= a <= P ->
  best V s ->
  exists s', loop_ny fuel P L 0 0 a s = Some s'
             /\ best (fun a' b' c' => V a' b' c' \/ a' = a) s'.
Proof.
  intros Ha Hbest.
  pose proof (product_bound_next P a ltac:(lia) ltac:(lia)) as Hnext.
  assert (0 <= P / a <= P).
  { split; [apply Z.div_pos; lia|].
    apply Z.div_le_upper_bound; [lia|]. nia. }
  destruct (for_loop_inv
              (fun j s => best (fun a' b' c' =>
                                  V a' b' c' \/ (a' = a /\ b' < j)) s)
              (fun ny_try => u32 (a * ny_try) <=? P)
              (fun ny_try s =>
                 if negb (0 =? 0) && negb (ny_try =? 0) then Some s
                 else loop_nz fuel P L 0 a ny_try s)
              (P / a + 1) ltac:(lia))
    with (fuel := fuel) (lo := 1) (s := s) as (s' & Hrun & Hs').
  - rewrite u32_id by lia. apply Z.leb_gt; lia.
  - lia.
  - intros i Hi.
    assert (a * i <= P) by (apply product_bound; lia).
    assert (0 <= a * i) by nia.
    rewrite u32_id by lia. now apply Z.leb_le.
  - intros i s0 Hi Hinv; cbn [Z.eqb negb andb].
    assert (a * i <= P) by (apply product_bound; lia).
    destruct (loop_nz_best _ a i s0 ltac:(lia) ltac:(lia) ltac:(lia) Hinv)
      as (s1 & Hrun1 & Hs1).
    exists s1; split; [exact Hrun1|].
    eapply best_weaken; [exact Hs1|].
    cbn beta; intros a' b' c' _ [HV|(-> & Hb)]; [auto|].
    destruct (Z.eq_dec b' i) as [->|]; [right; auto|].
    left; right; split; lia.
  - eapply best_weaken; [exact Hbest|].
    cbn beta; intros a' b' c' (_ & Hb' & _) [HV|(_ & Hb)]; [trivial|lia].
  - unfold fuel; lia.
  - exists s'; split; [exact Hrun|].
    eapply best_weaken; [exact Hs'|].
    cbn beta; intros a' b' c' (Ha' & Hb' & Hc' & Hprod) [HV| ->]; [auto|].
    right; split; trivial.
    assert (a * b' <= P) by nia.
    assert (b' <= P / a) by (apply product_bound; lia).
    lia.
Qed.

Lemma loop_nx_best (s : search) :
  best (fun _ _ _ => False) s ->
  exists s', loop_nx fuel P L 0 0 0 s = Some s'
             /\ best (fun _ _ _ => True) s'.
Proof.
  intros Hbest.
  destruct (for_loop_inv
              (fun i s => best (fun a' b' c' => a' < i) s)
              (fun nx_try => nx_try <=? P)
              (fun nx_try s =>
                 if negb (0 =? 0) && negb (nx_try =? 0) then Some s
                 else loop_ny fuel P L 0 0 nx_try s)
              (P + 1) ltac:(lia))
    with (fuel := fuel) (lo := 1) (s := s) as (s' & Hrun & Hs').
  - apply Z.leb_gt; lia.
  - lia.
  - intros i Hi. apply Z.leb_le; lia.
  - intros i s0 Hi Hinv; cbn [Z.eqb negb andb].
    destruct (loop_ny_best _ i s0 ltac:(lia) Hinv) as (s1 & Hrun1 & Hs1).
    exists s1; split; [exact Hrun1|].
    eapply best_weaken; [exact Hs1|].
    cbn beta; intros a' b' c' _ Ha'.
    destruct (Z.eq_dec a' i); [now right | left; lia].
  - eapply best_weaken; [exact Hbest|].
    cbn beta; intros a' b' c' (Ha' & _) Hlt; lia.
  - unfold fuel; lia.
  - exists s'; split; [exact Hrun|].
    eapply best_weaken; [exact Hs'|].
    cbn beta; intros a' b' c' (Ha' & Hb' & Hc' & Hprod) _.
    assert (1 <= b' * c') by nia.
    nia.
Qed.

(** The unconstrained search ends, reports success and leaves a
    factorization of least area. *)
Lemma unconstrained_search :
  exists nx ny nz,
    findDecomposition P L 0 0 0 = Some (true, (nx, ny, nz))
    /\ factorization nx ny nz
    /\ forall a b c, factorization a b c ->
         (surface_area_of L nx ny nz <= surface_area_of L a b c)%Q.
Proof.
  unfold findDecomposition, findDecomposition_fuel; cbn [Z.eqb andb].
  change (Z.to_nat P + 1)%nat with fuel.
  match goal with
  | |- context [loop_nx _ _ _ _ _ _ ?s0] =>
      destruct (loop_nx_best s0) as (s' & Hrun & Hf & Hfac & Hmin & Hall)
  end.
  - repeat split; cbn [found_decomposition s_nx s_ny s_nz min_surface_area];
      try lia; try tauto.
    unfold surface_area_of. change (inject_Z 1) with 1%Q. ring.
  - rewrite Hrun, Hf.
    exists (s_nx s'), (s_ny s'), (s_nz s'); repeat split; try apply Hfac.
    intros a b c Habc; rewrite <- Hmin; now apply Hall.
Qed.

(** *** Pinned dimensions without a matching factorization *)

Variables nx_in ny_in nz_in : Z.

Definition matches (a b c : Z) : Prop :=
  (nx_in = 0 \/ a = nx_in) /\ (ny_in = 0 \/ b = ny_in) /\ (nz_in = 0 \/ c = nz_in).

Hypothesis no_match : forall a b c, factorization a b c -> ~ matches a b c.

Lemma pinned_spec (pin v : Z) :
  negb (pin =? 0) && negb (v =? pin) = false -> pin = 0 \/ v = pin.
Proof.
  destruct (Z.eqb_spec pin 0); [now left|].
  destruct (Z.eqb_spec v pin); [now right|discriminate].
Qed.

Lemma pinned_loop_nz (a b : Z) (s : search) :
  1 <= a -> 1 <= b -> a * b <= P ->
  (nx_in = 0 \/ a = nx_in) -> (ny_in = 0 \/ b = ny_in) ->
  loop_nz fuel P L nz_in a b s = Some s.
Proof.
  intros Ha Hb Hab Hpx Hpy.
  assert (Hab0 : 0 < a * b) by nia.
  pose proof (product_bound_next P (a * b) ltac:(lia) Hab0) as Hnext.
  assert (0 <= P / (a * b) <= P).
  { split; [apply Z.div_pos; lia|].
    apply Z.div_le_upper_bound; [lia|]. nia. }
  destruct (for_loop_inv (fun _ s' => s' = s)
              (fun nz_try => u32 (u32 (a * b) * nz_try) <=? P)
              (fun nz_try s => Some (try_triple P L nz_in a b nz_try s))
              (P / (a * b) + 1) ltac:(lia))
    with (fuel := fuel) (lo := 1) (s := s) as (s' & Hrun & ->);
    trivial; try lia.
  - rewrite (u32_id (a * b)), u32_id by lia. apply Z.leb_gt; lia.
  - intros i Hi.
    assert (a * b * i <= P) by (apply product_bound; lia).
    assert (0 <= a * b * i) by nia.
    rewrite (u32_id (a * b)), u32_id by lia. now apply Z.leb_le.
  - intros i s0 Hi ->; eexists; split; [|reflexivity].
    f_equal; unfold try_triple.
    destruct (negb (nz_in =? 0) && negb (i =? nz_in)) eqn:Hpz; [reflexivity|].
    apply pinned_spec in Hpz.
    assert (a * b * i <= P) by (apply product_bound; lia).
    assert (0 <= a * b * i) by nia.
    rewrite (u32_id (a * b)), u32_id by lia.
    destruct (Z.eqb_spec (a * b * i) P) as [Heq|]; [|reflexivity].
    exfalso; apply (no_match a b i); repeat split; trivial; lia.
Qed.

Lemma pinned_loop_ny (a : Z) (s : search) :
  1 <= a <= P -> (nx_in = 0 \/ a = nx_in) ->
  loop_ny fuel P L ny_in nz_in a s = Some s.
Proof.
  intros Ha Hpx.
  pose proof (product_bound_next P a ltac:(lia) ltac:(lia)) as Hnext.
  assert (0 <= P / a <= P).
  { split; [apply Z.div_pos; lia|].
    apply Z.div_le_upper_bound; [lia|]. nia. }
  destruct (for_loop_inv (fun _ s' => s' = s)
              (fun ny_try => u32 (a * ny_try) <=? P)
              (fun ny_try s =>
                 if negb (ny_in =? 0) && negb (ny_try =? ny_in) then Some s
                 else loop_nz fuel P L nz_in a ny_try s)
              (P / a + 1) ltac:(lia))
    with (fuel := fuel) (lo := 1) (s := s) as (s' & Hrun & ->);
    trivial; try lia.
  - rewrite u32_id by lia. apply Z.leb_gt; lia.
  - intros i Hi.
    assert (a * i <= P) by (apply product_bound; lia).
    assert (0 <= a * i) by nia.
    rewrite u32_id by lia. now apply Z.leb_le.
  - intros i s0 Hi ->; exists s; split; [|reflexivity].
    destruct (negb (ny_in =? 0) && negb (i =? ny_in)) eqn:Hpy; [reflexivity|].
    apply pinned_spec in Hpy.
    assert (a * i <= P) by (apply product_bound; lia).
    apply pinned_loop_nz; trivial; lia.
Qed.

Lemma pinned_loop_nx (s : search) :
  loop_nx fuel P L nx_in ny_in nz_in s = Some s.
Proof.
  destruct (for_loop_inv (fun _ s' => s' = s)
              (fun nx_try => nx_try <=? P)
              (fun nx_try s =>
                 if negb (nx_in =? 0) && negb (nx_try =? nx_in) then Some s
                 else loop_ny fuel P L ny_in nz_in nx_try s)
              (P + 1) ltac:(lia))
    with (fuel := fuel) (lo := 1) (s := s) as (s' & Hrun & ->);
    trivial; try lia.
  intros i s0 Hi ->; exists s; split; [|reflexivity].
    destruct (negb (nx_in =? 0) && negb (i =? nx_in)) eqn:Hpx; [reflexivity|].
    apply pinned_spec in Hpx.
    apply pinned_loop_ny; trivial; lia.
Qed.

(** The search leaves its initial guess and reports failure. *)
Lemma pinned_search_fails :
  nx_in <> 0 \/ ny_in <> 0 \/ nz_in <> 0 ->
  findDecomposition P L nx_in ny_in nz_in = Some (false, (1, 1, P)).
Proof.
  intros Hpinned.
  unfold findDecomposition, findDecomposition_fuel.
  change (Z.to_nat P + 1)%nat with fuel.
  rewrite pinned_loop_nx; cbn [found_decomposition s_nx s_ny s_nz].
  destruct (Z.eqb_spec nx_in 0), (Z.eqb_spec ny_in 0), (Z.eqb_spec nz_in 0);
    cbn [andb]; try reflexivity; lia.
Qed.

End Search.

Example findDecomposition_flat_box :
  findDecomposition 8 (make_scalar3 8 1 1) 0 0 0 = Some (true, (8, 1, 1)).
Proof. vm_compute; reflexivity. Qed.

Example findDecomposition_pinned_ny :
  findDecomposition 12 (make_scalar3 1 1 1) 0 3 0 = Some (true, (2, 3, 2)).
Proof. vm_compute; reflexivity. Qed.



(** C5, as the code has it.  When a dimension is pinned and no
    factorization of the communicator size matches the pinned values,
    [findDecomposition] returns false; the constructor then writes a
    diagnostic, searches again with all dimensions unconstrained and
    returns normally with the decomposition found by that search. *)
Theorem unsatisfiable_pins_fall_back (P rank root : Z) (L : Scalar3) (nx ny nz : Z) :
  0 < P < 2 ^ 31 ->
  nx <> 0 \/ ny <> 0 \/ nz <> 0 ->
  (forall a b c, 1 <= a -> 1 <= b -> 1 <= c -> a * b * c = P ->
     ~ ((nx = 0 \/ a = nx) /\ (ny = 0 \/ b = ny) /\ (nz = 0 \/ c = nz))) ->
  findDecomposition P L nx ny nz = Some (false, (1, 1, P))
  /\ exists nx' ny' nz',
       findDecomposition P L 0 0 0 = Some (true, (nx', ny', nz'))
       /\ nx' * ny' * nz' = P
       /\ construct P rank root L nx ny nz
          = Some (Returned (on_rank nx' ny' nz' rank root,
                            [UnableToFindDecomposition P])).
Proof.
  intros HP Hpinned Hno.
  assert (Hfail : findDecomposition P L nx ny nz = Some (false, (1, 1, P))).
  { apply pinned_search_fails; trivial.
    intros a b c (Ha & Hb & Hc & Habc); now apply Hno. }
  split; [exact Hfail|].
  destruct (unconstrained_search P L HP) as (nx' & ny' & nz' & Hrun & Hfac & _).
  exists nx', ny', nz'; split; [exact Hrun|]. split; [apply Hfac|].
  unfold construct; rewrite Hfail; cbn [negb]; rewrite Hrun; reflexivity.
Qed.

Lemma unsatisfiable_pins_fall_back_witness :
  findDecomposition 4 (make_scalar3 1 1 1) 3 0 0 = Some (false, (1, 1, 4)).
Proof.
  refine (proj1 (unsatisfiable_pins_fall_back 4 0 0 (make_scalar3 1 1 1) 3 0 0
                   ltac:(lia) ltac:(lia) _)).
  intros a b c Ha Hb Hc Habc ([H|H] & _); [lia|].
  subst a; lia.
Defined.

(** C5, as stated, fails: four ranks with [nx] pinned to three have no
    matching factorization, yet the constructor does not throw; it
    returns the grid (1,2,2) of the unconstrained search. *)
Lemma unsatisfiable_pins_do_not_abort :
  findDecomposition 4 (make_scalar3 1 1 1) 3 0 0 = Some (false, (1, 1, 4))
  /\ construct 4 0 0 (make_scalar3 1 1 1) 3 0 0
     = Some (Returned (on_rank 1 2 2 0 0, [UnableToFindDecomposition 4])).
Proof. split; vm_compute; reflexivity. Qed.

End DecompositionFacts.

(** ** IntegratorHPMCMonoGPU: [update] with arbitrary kernels *)

Module UpdateFacts.

Import IntegratorHPMCMonoGPU.

Section AnyKernels.

Context {ParticleData Trial Depletants Counters : Type}.

Let kernels := kernels ParticleData Trial Depletants Counters.
Let state := state ParticleData Trial Depletants Counters.

Variable K : kernels.
Variable cfg : config.
Variable timestep : Z.
Variable shuffle_draw : Z -> Z -> Z -> bool.

Lemma scalar_le_of_lt (a b : Scalar) : (a < b)%Q -> scalar_le a b = true.
Proof. intros H; apply Qle_bool_iff; now apply Qlt_le_weak. Qed.

(** The test of [update] fires on a periodic x or y axis, and on a
    periodic z axis of a three dimensional system. *)
Lemma box_too_small_fires :
  (periodic_x cfg = true
   /\ (nearest_plane_distance_x cfg < m_nominal_width cfg * 2)%Q)
  \/ (periodic_y cfg = true
      /\ (nearest_plane_distance_y cfg < m_nominal_width cfg * 2)%Q)
  \/ (NDimensions cfg = 3 /\ periodic_z cfg = true
      /\ (nearest_plane_distance_z cfg < m_nominal_width cfg * 2)%Q) ->
  box_too_small cfg = true.
Proof.
  unfold box_too_small.
  intros [(Hp & Hlt)|[(Hp & Hlt)|(Hd & Hp & Hlt)]];
    rewrite Hp, (scalar_le_of_lt _ _ Hlt); cbn [andb orb].
  - reflexivity.
  - now rewrite orb_true_r.
  - rewrite Hd; cbn [Z.eqb andb]. apply orb_true_r.
Qed.

(** *** Depletant kernels and the accumulator of one depletant index *)

(** Launches that insert depletants for index [k], or clear its
    accumulator. *)
Definition depletant_launch_of (k : Z) (l : launch) : bool :=
  match l with
  | ResetDeltaF itype jtype
  | GenerateNumDepletants itype jtype
  | InsertDepletants itype jtype
  | GenerateNumDepletantsNtrial itype jtype
  | DepletantsPhase1 itype jtype
  | DepletantsPhase2 itype jtype => m_depletant_idx cfg itype jtype =? k
  | _ => false
  end.

Variable k : Z.
Hypothesis zero_fugacity : (m_fugacity cfg k == 0)%Q.

(** [s'] extends [s] by launches that are not for [k] and holds the
    same slice [k] of the accumulator. *)
Definition untouched (s s' : state) : Prop :=
  m_deltaF_int (dev s') k = m_deltaF_int (dev s) k
  /\ exists new, issued s' = new ++ issued s
                 /\ Forall (fun l => depletant_launch_of k l = false) new.

Lemma untouched_refl (s : state) : untouched s s.
Proof. split; [reflexivity|]. exists []; split; [reflexivity|constructor]. Qed.

Lemma untouched_trans (s1 s2 s3 : state) :
  untouched s1 s2 -> untouched s2 s3 -> untouched s1 s3.
Proof.
  intros (Hd1 & n1 & Hi1 & Hf1) (Hd2 & n2 & Hi2 & Hf2).
  split; [congruence|].
  exists (n2 ++ n1); split; [rewrite Hi2, Hi1; apply app_assoc|].
  apply Forall_app; now split.
Qed.

Lemma untouched_log (l : launch) (s : state) :
  depletant_launch_of k l = false -> untouched s (log l s).
Proof.
  intros Hl; split; [reflexivity|].
  exists [l]; split; [reflexivity|]. now constructor.
Qed.

Lemma untouched_on_dev (f : mem _ _ _ _ -> mem _ _ _ _) (s : state) :
  m_deltaF_int (f (dev s)) k = m_deltaF_int (dev s) k ->
  untouched s (on_dev f s).
Proof.
  intros Hf; split; [exact Hf|].
  exists []; split; [reflexivity|constructor].
Qed.

Lemma untouched_set_max_len (v : Z) (s : state) : untouched s (set_max_len v s).
Proof. split; [reflexivity|]. exists []; split; [reflexivity|constructor]. Qed.

Lemma other_index (itype jtype : Z) :
  scalar_is_zero (m_fugacity cfg (m_depletant_idx cfg itype jtype)) = false ->
  (m_depletant_idx cfg itype jtype =? k) = false.
Proof.
  intros Hnz; destruct (Z.eqb_spec (m_depletant_idx cfg itype jtype) k) as [E|]; trivial.
  rewrite E in Hnz. unfold scalar_is_zero in Hnz.
  apply Qeq_bool_iff in zero_fugacity; congruence.
Qed.

Lemma untouched_fold {A : Type} (f : state -> A -> state) (l : list A) :
  (forall s a, untouched s (f s a)) ->
  forall s, untouched s (fold_left f l s).
Proof.
  intros Hf; induction l as [|a l IH]; intros s; [apply untouched_refl|].
  cbn [fold_left]; eapply untouched_trans; [apply Hf|apply IH].
Qed.

Lemma untouched_launch (l : launch) (f : mem _ _ _ _ -> mem _ _ _ _) (s : state) :
  depletant_launch_of k l = false ->
  m_deltaF_int (f (dev s)) k = m_deltaF_int (dev s) k ->
  untouched s (log l (on_dev f s)).
Proof.
  intros Hl Hf.
  apply (untouched_trans s (on_dev f s));
    [now apply untouched_on_dev | now apply untouched_log].
Qed.

Lemma set_slice_other (itype jtype : Z) (v : list Z) (d : Z -> list Z) :
  (m_depletant_idx cfg itype jtype =? k) = false ->
  set_slice (m_depletant_idx cfg itype jtype) v d k = d k.
Proof. intros Hk; unfold set_slice. now rewrite Z.eqb_sym, Hk. Qed.

Lemma untouched_reset_deltaF (s : state) : untouched s (reset_deltaF cfg s).
Proof.
  unfold reset_deltaF; apply untouched_fold; clear s.
  intros s [itype jtype].
  destruct (scalar_is_zero _) eqn:Hz; [apply untouched_refl|].
  pose proof (other_index _ _ Hz) as Hk.
  destruct (negb _); [|apply untouched_refl].
  apply untouched_launch; [exact Hk|].
  cbn [dev m_deltaF_int set_deltaF_int]. now apply set_slice_other.
Qed.

Lemma untouched_narrow_phase (i : Z) (s : state) :
  untouched s (launch_narrow_phase K cfg timestep i s).
Proof.
  unfold launch_narrow_phase; destruct (hpmc_narrow_phase _ _ _ _ _) as [r c].
  now apply untouched_launch.
Qed.

Lemma untouched_insert_pair (i : Z) (acc : state * Z) (p : Z * Z) :
  untouched (fst acc) (fst (insert_pair K cfg timestep i acc p)).
Proof.
  destruct acc as [s off], p as [itype jtype]; unfold insert_pair; cbn [fst].
  destruct (scalar_is_zero _) eqn:Hz; [apply untouched_refl|].
  pose proof (other_index _ _ Hz) as Hk.
  destruct (m_ntrial cfg _ =? 0).
  - destruct (hpmc_insert_depletants _ _ _ _ _ _ _) as [r c]; cbn [fst].
    eapply untouched_trans; [|apply untouched_launch; [exact Hk|reflexivity]].
    apply untouched_launch; [exact Hk|reflexivity].
  - destruct (hpmc_depletants_auxilliary_phase2 _ _ _ _ _ _ _ _ _)
      as [[sl2 rq2] c2].
    cbn [fst].
    eapply untouched_trans;
      [|apply untouched_launch;
        [exact Hk
        |cbn [dev m_deltaF_int set_deltaF_int set_req_len set_counters];
         now apply set_slice_other]].
    destruct (hpmc_depletants_auxilliary_phase1 _ _ _ _ _ _ _ _ _)
      as [[sl1 rq1] c1].
    eapply untouched_trans;
      [|apply untouched_launch;
        [exact Hk
        |cbn [dev m_deltaF_int set_deltaF_int set_req_len set_counters];
         now apply set_slice_other]].
    apply untouched_launch; [exact Hk|reflexivity].
Qed.

Lemma untouched_insert_pairs (i : Z) (l : list (Z * Z)) (acc : state * Z) :
  untouched (fst acc) (fst (fold_left (insert_pair K cfg timestep i) l acc)).
Proof.
  revert acc; induction l as [|p l IH]; intros acc; [apply untouched_refl|].
  cbn [fold_left].
  eapply untouched_trans; [apply untouched_insert_pair|apply IH].
Qed.

Lemma untouched_insert_depletants (i : Z) (s : state) :
  untouched s (insert_depletants K cfg timestep i s).
Proof. exact (untouched_insert_pairs i (type_pairs cfg) (s, 0)). Qed.

Lemma untouched_reallocate_loop (fuel : nat) (i : Z) (s : state) :
  untouched s (state_of (reallocate_loop K cfg timestep fuel i s)).
Proof.
  revert s; induction fuel as [|fuel IH]; intros s; [apply untouched_refl|].
  cbn [reallocate_loop].
  assert (H3 : untouched s (insert_depletants K cfg timestep i
                 (launch_narrow_phase K cfg timestep i (reset_deltaF cfg s)))).
  { eapply untouched_trans; [apply untouched_reset_deltaF|].
    eapply untouched_trans; [apply untouched_narrow_phase|].
    apply untouched_insert_depletants. }
  destruct (_ <? _); [|exact H3].
  eapply untouched_trans; [exact H3|].
  eapply untouched_trans; [apply untouched_set_max_len|apply IH].
Qed.

Lemma untouched_patch (i : Z) (s : state) :
  untouched s (launch_patch K cfg timestep i s).
Proof. unfold launch_patch; now apply untouched_launch. Qed.

Lemma untouched_depletants_accept (i : Z) (s : state) :
  untouched s (launch_depletants_accept K cfg timestep i s).
Proof. unfold launch_depletants_accept; now apply untouched_launch. Qed.

Lemma untouched_check_convergence (s : state) :
  untouched s (launch_check_convergence K cfg s).
Proof.
  unfold launch_check_convergence.
  destruct (hpmc_check_convergence _ _ _) as [[rj rjo] cd].
  now apply untouched_launch.
Qed.

Lemma untouched_swap_reject (s : state) : untouched s (swap_reject s).
Proof. unfold swap_reject; cbv zeta; now apply untouched_launch. Qed.

Lemma untouched_converge (fuel : nat) (i : Z) (s : state) :
  untouched s (state_of (converge K cfg timestep fuel i s)).
Proof.
  revert s; induction fuel as [|fuel IH]; intros s; [apply untouched_refl|].
  cbn [converge].
  pose proof (untouched_reallocate_loop (S fuel) i (on_dev (set_condition 0) s)) as H1.
  assert (H0 : untouched s (on_dev (set_condition 0) s))
    by now apply untouched_on_dev.
  destruct (reallocate_loop K cfg timestep (S fuel) i _) as [s1|s1|s1];
    cbn [state_of] in *; try (eapply untouched_trans; eassumption).
  assert (H01 : untouched s s1) by (eapply untouched_trans; eassumption).
  set (finish := fun s2 : state =>
         swap_reject
           (launch_check_convergence K cfg
              (if patch_enabled cfg then launch_patch K cfg timestep i s2 else s2))).
  assert (Hfinish : forall s2, untouched s2 (finish s2)).
  { intros s2; unfold finish.
    eapply untouched_trans; [|apply untouched_swap_reject].
    eapply untouched_trans; [|apply untouched_check_convergence].
    destruct (patch_enabled cfg); [apply untouched_patch|apply untouched_refl]. }
  assert (Hrest : forall s2, untouched s s2 ->
            untouched s (state_of (if m_condition (dev (finish s2)) =? 0
                                   then Finished (finish s2)
                                   else converge K cfg timestep fuel i (finish s2)))).
  { intros s2 H2.
    assert (untouched s (finish s2)) by (eapply untouched_trans; [exact H2|apply Hfinish]).
    destruct (_ =? 0); [assumption|].
    eapply untouched_trans; [eassumption|apply IH]. }
  destruct (have_depletants cfg && have_auxilliary_variables cfg).
  - destruct (m_max_len s1 <? m_req_len (dev s1)).
    + eapply untouched_trans; [exact H01|].
      eapply untouched_trans; [apply untouched_set_max_len|apply IH].
    + apply Hrest. eapply untouched_trans; [exact H01|].
      apply untouched_depletants_accept.
  - now apply Hrest.
Qed.

Lemma untouched_sweep (fuel : nat) (i : Z) (s : state) :
  untouched s (state_of (sweep K cfg timestep fuel i s)).
Proof.
  unfold sweep.
  assert (H0 : untouched s (init_reject cfg (launch_gen_moves K cfg timestep i s))).
  { eapply untouched_trans; [|now apply untouched_on_dev].
    unfold launch_gen_moves.
    destruct (hpmc_gen_moves _ _ _ _ _) as [tr ooc].
    now apply untouched_launch. }
  pose proof (untouched_converge fuel i
                (init_reject cfg (launch_gen_moves K cfg timestep i s))) as H1.
  destruct (converge _ _ _ _ _ _) as [s1|s1|s1]; cbn [state_of] in *;
    try (eapply untouched_trans; eassumption).
  eapply untouched_trans; [eapply untouched_trans; eassumption|].
  unfold launch_update_pdata; destruct (hpmc_update_pdata _ _) as [p c].
  now apply untouched_launch.
Qed.

Lemma untouched_sweeps (fuel : nat) (todo : list nat) (s : state) :
  untouched s (state_of (sweeps K cfg timestep fuel todo s)).
Proof.
  revert s; induction todo as [|i todo IH]; intros s; [apply untouched_refl|].
  cbn [sweeps].
  pose proof (untouched_sweep fuel (Z.of_nat i) s) as H1.
  destruct (sweep _ _ _ _ _ _) as [s1|s1|s1]; cbn [state_of] in *; trivial.
  eapply untouched_trans; [exact H1|apply IH].
Qed.

Lemma untouched_update (fuel : nat) (s : state) :
  untouched s (state_of (update K cfg timestep shuffle_draw fuel s)).
Proof.
  unfold update.
  destruct (0 <? N cfg); [|apply untouched_refl].
  destruct (box_too_small cfg); [apply untouched_refl|].
  set (s1 := on_dev _ s).
  assert (H0 : untouched s s1) by now apply untouched_on_dev.
  pose proof (untouched_sweeps fuel (seq 0 (Z.to_nat (m_nselect cfg))) s1) as H1.
  destruct (sweeps K cfg timestep fuel _ s1) as [s2|s2|s2];
    cbn [state_of] in H1 |- *;
    try exact (untouched_trans s s1 s2 H0 H1).
  apply (untouched_trans s s2); [exact (untouched_trans s s1 s2 H0 H1)|].
  now apply untouched_launch.
Qed.

End AnyKernels.

(** *** A run to evaluate: two particles, kernels that reject nothing *)

Definition idle_kernels : kernels unit unit unit unit :=
  mkKernels
    (fun cfg _ _ _ => (tt, map (fun _ => false) (seq 0 (Z.to_nat (N cfg)))))
    (fun _ _ _ m => (m_reject m, tt))
    (fun _ _ _ _ _ _ => tt)
    (fun _ _ _ _ _ m => (m_reject_out m, tt))
    (fun _ _ _ _ _ _ => tt)
    (fun _ _ _ _ _ _ _ m => ([], m_req_len m, tt))
    (fun _ _ _ _ _ _ _ m => ([], m_req_len m, tt))
    (fun _ _ _ m => m_reject_out m)
    (fun _ _ _ m => m_reject_out m)
    (fun _ m => (m_reject m, m_reject_out m, m_condition m))
    (fun _ => (tt, tt))
    (fun _ => tt).

Definition fresh_state (seed : Z) : state unit unit unit unit :=
  mkState
    (mkMem tt tt [] [] [] 0 tt (fun _ => [0; 0]) 0 tt (UpdateOrderGPU.empty seed))
    0 [].

(** Two particles of one type, one sweep per step, no depletants, no
    patch energy; box lengths 10, 10 and [lz], interaction range 1. *)
Definition small_system (dimensions : Z) (lz : Scalar) : config :=
  mkConfig 2 1 dimensions 1 42 0 true true true 10%Q 10%Q lz 1%Q
           (fun _ => 0%Q) (fun _ => 0) (fun _ _ => 0) false.

(** C6, as the code has it.  With at least one local particle, a global
    box whose nearest plane distance on a periodic x or y axis, or on a
    periodic z axis of a three dimensional system, is below twice the
    nominal width makes [update] throw at once: the state is the one
    [update] was entered with, so no trial move has been generated or
    committed. *)
Theorem small_box_is_fatal {ParticleData Trial Depletants Counters : Type}
  (K : kernels ParticleData Trial Depletants Counters) (cfg : config)
  (timestep : Z) (shuffle_draw : Z -> Z -> Z -> bool) (fuel : nat)
  (s : state ParticleData Trial Depletants Counters) :
  0 < N cfg ->
  (periodic_x cfg = true
   /\ (nearest_plane_distance_x cfg < m_nominal_width cfg * 2)%Q)
  \/ (periodic_y cfg = true
      /\ (nearest_plane_distance_y cfg < m_nominal_width cfg * 2)%Q)
  \/ (NDimensions cfg = 3 /\ periodic_z cfg = true
      /\ (nearest_plane_distance_z cfg < m_nominal_width cfg * 2)%Q) ->
  update K cfg timestep shuffle_draw fuel s = Error s.
Proof.
  intros HN Hbox; unfold update.
  destruct (Z.ltb_spec 0 (N cfg)); [|lia].
  now rewrite (box_too_small_fires cfg Hbox).
Qed.

Lemma small_box_is_fatal_witness :
  update idle_kernels (small_system 3 1%Q) 0 (fun _ _ _ => false) 3 (fresh_state 42)
  = Error (fresh_state 42).
Proof.
  apply small_box_is_fatal; [reflexivity|].
  right; right; repeat split; reflexivity.
Defined.

(** C6, as stated, fails on the z axis of a two dimensional system: the
    periodic z extent 1 is below twice the range 1, yet [update] runs
    its sweep and commits it. *)
Lemma small_z_in_two_dimensions_runs :
  periodic_z (small_system 2 1%Q) = true
  /\ (nearest_plane_distance_z (small_system 2 1%Q)
      < m_nominal_width (small_system 2 1%Q) * 2)%Q
  /\ exists s',
       update idle_kernels (small_system 2 1%Q) 0 (fun _ _ _ => false) 3
         (fresh_state 42) = Finished s'
       /\ issued s'
          = [Shift; UpdatePdata; SwapReject [false; false]; CheckConvergence;
             NarrowPhase; GenMoves 0].
Proof.
  split; [reflexivity|]. split; [reflexivity|].
  eexists; split; vm_compute; reflexivity.
Qed.

(** C8.  For a type pair of zero fugacity, whatever the kernels do and
    however long [update] runs: no launch issued is a depletant kernel
    (or an accumulator reset) for the index of that pair, the slice of
    the free energy accumulator at that index is the one [update] was
    entered with, and it is zero everywhere if it was so on entry. *)
Theorem zero_fugacity_inserts_nothing {ParticleData Trial Depletants Counters : Type}
  (K : kernels ParticleData Trial Depletants Counters) (cfg : config)
  (timestep : Z) (shuffle_draw : Z -> Z -> Z -> bool) (fuel : nat)
  (s : state ParticleData Trial Depletants Counters) (itype jtype : Z) :
  let k := m_depletant_idx cfg itype jtype in
  (m_fugacity cfg k == 0)%Q ->
  Forall (fun v => v = 0) (m_deltaF_int (dev s) k) ->
  let s' := state_of (update K cfg timestep shuffle_draw fuel s) in
  (exists new,
     issued s' = new ++ issued s
     /\ Forall (fun l => depletant_launch_of cfg k l = false) new)
  /\ m_deltaF_int (dev s') k = m_deltaF_int (dev s) k
  /\ Forall (fun v => v = 0) (m_deltaF_int (dev s') k).
Proof.
  intros k Hzero Hinit s'.
  destruct (untouched_update K cfg timestep shuffle_draw k Hzero fuel s)
    as (Hslice & Hnew).
  fold s' in Hslice, Hnew.
  split; [exact Hnew|]. split; [exact Hslice|].
  now rewrite Hslice.
Qed.

Lemma zero_fugacity_inserts_nothing_witness :
  Forall (fun v => v = 0)
    (m_deltaF_int
       (dev (state_of (update idle_kernels (small_system 3 10%Q) 0
                         (fun _ _ _ => false) 3 (fresh_state 42)))) 0).
Proof.
  refine (proj2 (proj2 (zero_fugacity_inserts_nothing idle_kernels
                          (small_system 3 10%Q) 0 (fun _ _ _ => false) 3
                          (fresh_state 42) 0 0 _ _))).
  - reflexivity.
  - repeat constructor.
Defined.

End UpdateFacts.

(** ** IntegratorHPMCMonoGPU: the convergence loop on the reject
       propagation of the specification *)

Module ConvergenceFacts.

Import IntegratorHPMCMonoGPU.
Import UpdateOrderGPUFacts.

(** The reject flags logged at the swaps, most recent first. *)
Definition swaps (l : list launch) : list (list bool) :=
  flat_map (fun e => match e with SwapReject r => [r] | _ => [] end) l.

(** Number of passes through the body of [while (!converged)]: each
    pass launches the convergence check once. *)
Definition iterations (l : list launch) : nat :=
  length (filter (fun e => match e with CheckConvergence => true | _ => false end) l).

Lemma existsb_ext_in {A : Type} (f g : A -> bool) (l : list A) :
  (forall a, In a l -> f a = g a) -> existsb f l = existsb g l.
Proof.
  induction l as [|a l IH]; intros H; [reflexivity|].
  cbn [existsb]; rewrite (H a (or_introl eq_refl)), IH; trivial.
  intros b Hb; apply H; now right.
Qed.

Lemma fold_left_skip {A B : Type} (f : A -> B -> A) (l : list B) (a : A) :
  (forall a b, In b l -> f a b = a) -> fold_left f l a = a.
Proof.
  revert a; induction l as [|b l IH]; intros a H; [reflexivity|].
  cbn [fold_left]; rewrite (H a b (or_introl eq_refl)).
  apply IH; intros a' b' Hb'; apply H; now right.
Qed.

Section Engine.

Context {ParticleData Trial Depletants Counters : Type}.

Variable overlap : Trial -> nat -> nat -> bool.
Variable base : kernels ParticleData Trial Depletants Counters.
Variable cfg : config.
Variable timestep : Z.

Local Abbreviation K := (spec_kernels overlap base).
Local Abbreviation n := (Z.to_nat (N cfg)).

(** One application of the reject propagation to the flags [r], with the
    sweep's data taken from [m]. *)
Definition next (m : mem ParticleData Trial Depletants Counters) (r : list bool)
  : list bool :=
  narrow_phase_spec overlap (N cfg) (set_reject r m).

(** The flags after [t] iterations, started from [r0]. *)
Definition flags (m : mem ParticleData Trial Depletants Counters)
  (r0 : list bool) (t : nat) : list bool :=
  Nat.iter t (next m) r0.

Definition changed (r r' : list bool) : bool :=
  existsb (fun i => negb (Bool.eqb (nth i r' false) (nth i r false))) (seq 0 n).

Definition same_sweep (m m' : mem ParticleData Trial Depletants Counters) : Prop :=
  m_reject_out_of_cell m' = m_reject_out_of_cell m
  /\ trial m' = trial m
  /\ m_update_order m' = m_update_order m.

Lemma next_same_sweep m m' r : same_sweep m m' -> next m' r = next m r.
Proof.
  intros (Hooc & Htr & Hord); unfold next, narrow_phase_spec, order_of.
  cbn [set_reject m_reject_out_of_cell trial m_reject m_update_order].
  now rewrite Hooc, Htr, Hord.
Qed.

Lemma length_next m r : length (next m r) = n.
Proof. unfold next, narrow_phase_spec; now rewrite length_map, length_seq. Qed.

Lemma nth_next m r i :
  (i < n)%nat ->
  nth i (next m r) false
  = nth i (m_reject_out_of_cell m) false
    || existsb (fun j => (order_of m j <? order_of m i)
                         && overlap (trial m) i j
                         && negb (nth j r false))
               (seq 0 n).
Proof.
  intros Hi; unfold next, narrow_phase_spec.
  rewrite nth_map_seq by assumption. reflexivity.
Qed.

(** The new flag of [i] reads the flags of earlier-ordered particles
    only. *)
Lemma next_congr m r r' i :
  (i < n)%nat ->
  (forall j, (j < n)%nat -> order_of m j < order_of m i ->
             nth j r false = nth j r' false) ->
  nth i (next m r) false = nth i (next m r') false.
Proof.
  intros Hi H; rewrite !nth_next by assumption; f_equal.
  apply existsb_ext_in; intros j Hj; apply in_seq in Hj.
  destruct (Z.ltb_spec (order_of m j) (order_of m i)) as [Hlt|]; [|reflexivity].
  rewrite (H j) by (trivial; lia); reflexivity.
Qed.

Lemma changed_false r r' :
  length r = n -> length r' = n -> changed r r' = false <-> r' = r.
Proof.
  intros Hr Hr'; unfold changed; split.
  - intros H; apply (nth_ext _ _ false false); [congruence|].
    intros i Hi.
    destruct (Bool.eqb (nth i r' false) (nth i r false)) eqn:E;
      [now apply eqb_prop|].
    exfalso; assert (Ht : existsb
        (fun i => negb (Bool.eqb (nth i r' false) (nth i r false))) (seq 0 n) = true).
    { apply existsb_exists; exists i; split; [apply in_seq; lia|now rewrite E]. }
    congruence.
  - intros ->; apply not_true_is_false; intros H.
    apply existsb_exists in H; destruct H as (i & _ & Hi).
    now rewrite eqb_reflx in Hi.
Qed.

(** *** Stabilisation along the update order *)

Section Stabilisation.

Variable m : mem ParticleData Trial Depletants Counters.

Hypothesis order_in_range :
  forall i, (i < n)%nat -> 0 <= order_of m i < N cfg.

(** The flags the loop starts from: the copy of [reject_out_of_cell]. *)
Let r0 : list bool := map (fun i => nth i (m_reject_out_of_cell m) false) (seq 0 n).

Lemma length_flags t : length (flags m r0 t) = n.
Proof.
  destruct t as [|t]; [unfold flags, r0; cbn; now rewrite length_map, length_seq|].
  apply length_next.
Qed.

(** A particle rejected for leaving its cell stays rejected. *)
Lemma out_of_cell_stays t i :
  (i < n)%nat -> nth i (m_reject_out_of_cell m) false = true ->
  nth i (flags m r0 t) false = true.
Proof.
  intros Hi Hooc; destruct t as [|t].
  - unfold flags, r0; cbn [Nat.iter nat_rect]. now rewrite nth_map_seq.
  - change (flags m r0 (S t)) with (next m (flags m r0 t)).
    rewrite nth_next, Hooc by assumption; reflexivity.
Qed.

(** The flag of the particle at position [p] of the update order no
    longer changes after [p] iterations. *)
Lemma flag_settles t i :
  (i < n)%nat -> order_of m i <= Z.of_nat t ->
  nth i (flags m r0 (S t)) false = nth i (flags m r0 t) false.
Proof.
  revert i; induction t as [|t IH]; intros i Hi Hpos.
  - change (flags m r0 1) with (next m r0).
    rewrite nth_next by assumption.
    unfold flags, r0; cbn [Nat.iter nat_rect]; rewrite nth_map_seq by assumption.
    rewrite (existsb_ext_in _ (fun _ => false)).
    + assert (E : forall l : list nat, existsb (fun _ => false) l = false)
        by (induction l; auto).
      rewrite E; apply orb_false_r.
    + intros j Hj; apply in_seq in Hj.
      pose proof (order_in_range j ltac:(lia)).
      destruct (Z.ltb_spec (order_of m j) (order_of m i)); [lia|reflexivity].
  - change (flags m r0 (S (S t))) with (next m (flags m r0 (S t))).
    change (flags m r0 (S t)) with (next m (flags m r0 t)) at 2.
    apply next_congr; [assumption|].
    intros j Hj Hlt; apply IH; [assumption|lia].
Qed.

Lemma flags_settled t :
  (n <= S t)%nat -> flags m r0 (S t) = flags m r0 t.
Proof.
  intros Ht; apply (nth_ext _ _ false false); [now rewrite !length_flags|].
  rewrite length_flags; intros i Hi.
  apply flag_settles; [assumption|].
  pose proof (order_in_range i Hi); lia.
Qed.

End Stabilisation.

(** *** The loop of a sweep without depletants and patch energy *)

Hypothesis no_depletants : forall k, (m_fugacity cfg k == 0)%Q.
Hypothesis no_patch : patch_enabled cfg = false.

Lemma fugacity_is_zero k : scalar_is_zero (m_fugacity cfg k) = true.
Proof. apply Qeq_bool_iff, no_depletants. Qed.

Lemma reset_deltaF_skips (s : state ParticleData Trial Depletants Counters) :
  reset_deltaF cfg s = s.
Proof.
  unfold reset_deltaF; apply fold_left_skip.
  intros a [itype jtype] _; now rewrite fugacity_is_zero.
Qed.

Lemma insert_depletants_skips i (s : state ParticleData Trial Depletants Counters) :
  insert_depletants K cfg timestep i s = s.
Proof.
  unfold insert_depletants; rewrite fold_left_skip; [reflexivity|].
  intros [a off] [itype jtype] _; unfold insert_pair.
  now rewrite fugacity_is_zero.
Qed.

Lemma no_have_depletants : have_depletants cfg = false.
Proof.
  unfold have_depletants, scan_depletants; rewrite fold_left_skip; [reflexivity|].
  intros [[a b] c] [itype jtype] _; now rewrite fugacity_is_zero.
Qed.

(** Device memory after the narrow phase. *)
Definition narrowed (m : mem ParticleData Trial Depletants Counters)
  : mem ParticleData Trial Depletants Counters :=
  set_counters (counters m) (set_reject_out (next m (m_reject m)) m).

Lemma launch_narrow_phase_spec i (s : state ParticleData Trial Depletants Counters) :
  launch_narrow_phase K cfg timestep i s = log NarrowPhase (on_dev narrowed s).
Proof. reflexivity. Qed.

Lemma reallocate_pass fuel i (s : state ParticleData Trial Depletants Counters) :
  (2 <= fuel)%nat ->
  exists ml extra,
    reallocate_loop K cfg timestep fuel i s
    = Finished (mkState (narrowed (dev s)) ml (extra ++ issued s))
    /\ swaps extra = [] /\ iterations extra = 0%nat.
Proof.
  intros Hfuel; destruct fuel as [|[|fuel]]; try lia.
  cbn [reallocate_loop].
  rewrite !reset_deltaF_skips, !insert_depletants_skips, !launch_narrow_phase_spec.
  cbn [log on_dev dev m_max_len issued set_max_len].
  destruct (m_max_len s <? m_req_len (narrowed (dev s))).
  - change (m_req_len (narrowed (narrowed (dev s)))) with (m_req_len (dev s)).
    change (m_req_len (narrowed (dev s))) with (m_req_len (dev s)).
    rewrite Z.ltb_irrefl.
    exists (m_req_len (dev s)), [NarrowPhase; NarrowPhase]; repeat split.
  - exists (m_max_len s), [NarrowPhase]; repeat split.
Qed.

Lemma swaps_app l1 l2 : swaps (l1 ++ l2) = swaps l1 ++ swaps l2.
Proof. unfold swaps; apply flat_map_app. Qed.

Lemma iterations_app l1 l2 : iterations (l1 ++ l2) = (iterations l1 + iterations l2)%nat.
Proof. unfold iterations; now rewrite filter_app, length_app. Qed.

(** One pass through the body of [while (!converged)]. *)
Lemma converge_pass fuel i (s : state ParticleData Trial Depletants Counters) :
  (1 <= fuel)%nat ->
  exists s5,
    same_sweep (dev s) (dev s5)
    /\ m_reject (dev s5) = next (dev s) (m_reject (dev s))
    /\ swaps (issued s5) = m_reject (dev s5) :: swaps (issued s)
    /\ iterations (issued s5) = S (iterations (issued s))
    /\ converge K cfg timestep (S fuel) i s
       = if changed (m_reject (dev s)) (m_reject (dev s5))
         then converge K cfg timestep fuel i s5
         else Finished s5.
Proof.
  intros Hfuel; cbn [converge].
  destruct (reallocate_pass (S fuel) i (on_dev (set_condition 0) s) ltac:(lia))
    as (ml & extra & -> & Hsw & Hit).
  rewrite no_have_depletants, no_patch; cbn [andb].
  set (s5 := swap_reject (launch_check_convergence K cfg _)).
  exists s5; split; [repeat split|].
  split; [reflexivity|].
  assert (Hiss : issued s5
                 = SwapReject (m_reject (dev s5)) :: CheckConvergence
                   :: extra ++ issued s) by reflexivity.
  split.
  { rewrite Hiss.
    change (swaps (SwapReject (m_reject (dev s5)) :: CheckConvergence
                   :: extra ++ issued s))
      with (m_reject (dev s5) :: swaps (extra ++ issued s)).
    now rewrite swaps_app, Hsw. }
  split.
  { rewrite Hiss.
    change (iterations (SwapReject (m_reject (dev s5)) :: CheckConvergence
                        :: extra ++ issued s))
      with (S (iterations (extra ++ issued s))).
    now rewrite iterations_app, Hit. }
  assert (Hcond : m_condition (dev s5)
                  = if changed (m_reject (dev s)) (m_reject (dev s5)) then 1 else 0)
    by reflexivity.
  rewrite Hcond.
  destruct (changed (m_reject (dev s)) (m_reject (dev s5))); reflexivity.
Qed.

Section Loop.

Variable m0 : mem ParticleData Trial Depletants Counters.
Variable i : Z.

Hypothesis order_in_range :
  forall j, (j < n)%nat -> 0 <= order_of m0 j < N cfg.

Let r0 : list bool := map (fun j => nth j (m_reject_out_of_cell m0) false) (seq 0 n).

(** From flags that are [t] iterations old the loop ends within [d + 1]
    further passes, where [t + d + 1] reaches the number of particles;
    it logs the iterates it goes through. *)
Lemma converge_bound (d : nat) :
  forall (t : nat) (s : state ParticleData Trial Depletants Counters) (fuel : nat),
    same_sweep m0 (dev s) ->
    m_reject (dev s) = flags m0 r0 t ->
    (n <= S (t + d))%nat ->
    (d + 2 <= fuel)%nat ->
    exists s' k,
      (1 <= k <= S d)%nat
      /\ converge K cfg timestep fuel i s = Finished s'
      /\ same_sweep m0 (dev s')
      /\ m_reject (dev s') = flags m0 r0 (t + k)
      /\ swaps (issued s') = rev (map (flags m0 r0) (seq (S t) k)) ++ swaps (issued s)
      /\ iterations (issued s') = (iterations (issued s) + k)%nat.
Proof.
  induction d as [|d IH]; intros t s fuel Hsame Hrej Hn Hfuel;
    (destruct fuel as [|fuel]; [lia|]);
    destruct (converge_pass fuel i s ltac:(lia))
      as (s5 & Hsame5 & Hrej5 & Hsw5 & Hit5 & ->);
    assert (Hflags5 : m_reject (dev s5) = flags m0 r0 (S t))
      by (rewrite Hrej5, Hrej, (next_same_sweep m0 (dev s)) by assumption;
          reflexivity);
    assert (Hsame05 : same_sweep m0 (dev s5))
      by (destruct Hsame as (? & ? & ?), Hsame5 as (? & ? & ?);
          repeat split; congruence);
    assert (Hdone : changed (m_reject (dev s)) (m_reject (dev s5)) = false ->
              exists s' k,
                (1 <= k <= 1)%nat
                /\ Finished s5 = Finished s'
                /\ same_sweep m0 (dev s')
                /\ m_reject (dev s') = flags m0 r0 (t + k)
                /\ swaps (issued s')
                   = rev (map (flags m0 r0) (seq (S t) k)) ++ swaps (issued s)
                /\ iterations (issued s') = (iterations (issued s) + k)%nat)
      by (intros _; exists s5, 1%nat;
          split; [lia|]; split; [reflexivity|]; split; [exact Hsame05|];
          split; [rewrite Hflags5; f_equal; lia|];
          split; [rewrite Hsw5, Hflags5; reflexivity|lia]).
  - destruct (changed _ _) eqn:Hch.
    + exfalso.
      rewrite Hflags5, Hrej in Hch.
      pose proof (flags_settled m0 order_in_range t ltac:(lia)) as Hset.
      change (flags m0 r0 (S t) = flags m0 r0 t) in Hset.
      rewrite Hset in Hch.
      assert (Hno : changed (flags m0 r0 t) (flags m0 r0 t) = false)
        by (apply changed_false; trivial; apply length_flags).
      congruence.
    + destruct (Hdone eq_refl) as (s' & k & Hk & Hrest); exists s', k; split; [lia|exact Hrest].
  - destruct (changed _ _) eqn:Hch.
    + destruct (IH (S t) s5 fuel Hsame05 Hflags5 ltac:(lia) ltac:(lia))
        as (s' & k & Hk & Hrun & Hsame' & Hrej' & Hsw' & Hit').
      exists s', (S k).
      split; [lia|]. split; [exact Hrun|]. split; [exact Hsame'|].
      split; [rewrite Hrej'; f_equal; lia|].
      split; [|rewrite Hit', Hit5; lia].
      rewrite Hsw', Hsw5, Hflags5.
      cbn [seq map rev]. now rewrite <- app_assoc.
    + destruct (Hdone eq_refl) as (s' & k & Hk & Hrest); exists s', k; split; [lia|exact Hrest].
Qed.

End Loop.

(** The loop of one sweep: it ends within [N] passes and logs the
    iterates of the propagation. *)
Lemma sweep_converges (i : Z) (s : state ParticleData Trial Depletants Counters)
  (fuel : nat) :
  0 < N cfg ->
  (forall j, (j < n)%nat -> 0 <= order_of (dev s) j < N cfg) ->
  (n + 1 <= fuel)%nat ->
  let m0 := dev (init_reject cfg (launch_gen_moves K cfg timestep i s)) in
  exists s' k,
    (1 <= k <= n)%nat
    /\ sweep K cfg timestep fuel i s = Finished s'
    /\ swaps (issued s')
       = rev (map (flags m0 (m_reject m0)) (seq 1 k)) ++ swaps (issued s)
    /\ iterations (issued s') = (iterations (issued s) + k)%nat.
Proof.
  intros HN Horder Hfuel m0.
  assert (Horder0 : forall j, (j < n)%nat -> 0 <= order_of m0 j < N cfg).
  { intros j Hj; unfold m0, init_reject, launch_gen_moves.
    destruct (hpmc_gen_moves _ _ _ _ _) as [tr ooc]. now apply Horder. }
  assert (Hiss0 : swaps (issued (init_reject cfg (launch_gen_moves K cfg timestep i s)))
                  = swaps (issued s)
                  /\ iterations (issued (init_reject cfg
                                          (launch_gen_moves K cfg timestep i s)))
                     = iterations (issued s)).
  { unfold init_reject, launch_gen_moves.
    destruct (hpmc_gen_moves _ _ _ _ _) as [tr ooc]. split; reflexivity. }
  destruct Hiss0 as (Hsw0 & Hit0).
  destruct (converge_bound m0 i Horder0 (n - 1) 0
              (init_reject cfg (launch_gen_moves K cfg timestep i s)) fuel)
    as (s1 & k & Hk & Hrun & _ & _ & Hsw & Hit).
  - repeat split.
  - reflexivity.
  - lia.
  - lia.
  - unfold sweep; rewrite Hrun.
    exists (launch_update_pdata K s1), k.
    split; [lia|]. split; [reflexivity|].
    unfold launch_update_pdata; destruct (hpmc_update_pdata _ _) as [p c].
    cbn [log on_dev issued].
    change (swaps (UpdatePdata :: issued s1)) with (swaps (issued s1)).
    change (iterations (UpdatePdata :: issued s1)) with (iterations (issued s1)).
    rewrite Hsw, Hit, Hsw0, Hit0. split; reflexivity.
Qed.

End Engine.

(** The order that [update] installs for [N] particles satisfies the
    range condition used above. *)
Lemma update_order_in_range {ParticleData Trial Depletants Counters : Type}
  (draw : Z -> Z -> Z -> bool) (timestep Np : Z)
  (m : mem ParticleData Trial Depletants Counters) (j : nat) :
  0 < Np < 2 ^ 32 -> Np <> UpdateOrderGPU.size (m_update_order m) ->
  (j < Z.to_nat Np)%nat ->
  0 <= order_of
         (set_update_order
            (UpdateOrderGPU.shuffle draw timestep 0
               (UpdateOrderGPU.resize Np (m_update_order m))) m) j < Np.
Proof.
  intros HN Hsize Hj.
  pose proof (order_in_range draw Np timestep 0 (m_update_order m) (Z.of_nat j)
                HN Hsize ltac:(lia)) as H.
  unfold UpdateOrderGPU.at_ in H; rewrite Nat2Z.id in H. exact H.
Qed.

(** *** A chain of three particles *)

(** Particle [i] overlaps, in their trial configurations, the particle
    before it. *)
Definition chain_overlap (_ : unit) (i j : nat) : bool := (i =? S j)%nat.

Definition chain_kernels : kernels unit unit unit unit :=
  spec_kernels chain_overlap UpdateFacts.idle_kernels.

Definition chain_system : config :=
  mkConfig 3 1 3 1 42 0 true true true 10%Q 10%Q 10%Q 1%Q
           (fun _ => 0%Q) (fun _ => 0) (fun _ _ => 0) false.

Definition chain_state : state unit unit unit unit :=
  mkState
    (mkMem tt tt [] [] [] 0 tt (fun _ => []) 0 tt (UpdateOrderGPU.construct 42 3))
    0 [].

Lemma chain_order_in_range (j : nat) :
  (j < Z.to_nat (N chain_system))%nat ->
  0 <= order_of (dev chain_state) j < N chain_system.
Proof.
  intros Hj; change (Z.to_nat (N chain_system)) with 3%nat in Hj.
  destruct j as [|[|[|j]]]; [vm_compute; split; congruence ..|lia].
Qed.



(** C1, as the propagation has it.  In such a sweep the loop ends
    within [N] passes and the flags in [reject] after the passes are the
    iterates [R 1, R 2, ...] of the propagation started from
    [reject_out_of_cell]; in every iterate a particle flagged in
    [reject_out_of_cell] is rejected, and the flag of the particle at
    position [p] of the update order is the same in all iterates from
    the [p]-th on. *)
Theorem reject_flags_settle_in_update_order
  {ParticleData Trial Depletants Counters : Type}
  (overlap : Trial -> nat -> nat -> bool)
  (base : kernels ParticleData Trial Depletants Counters)
  (cfg : config) (timestep i : Z)
  (s : state ParticleData Trial Depletants Counters) (fuel : nat) :
  0 < N cfg ->
  (forall k, (m_fugacity cfg k == 0)%Q) ->
  patch_enabled cfg = false ->
  (forall j, (j < Z.to_nat (N cfg))%nat -> 0 <= order_of (dev s) j < N cfg) ->
  (Z.to_nat (N cfg) + 1 <= fuel)%nat ->
  let m0 := dev (init_reject cfg
                   (launch_gen_moves (spec_kernels overlap base) cfg timestep i s)) in
  let R := flags overlap cfg m0 (m_reject m0) in
  (exists s' k,
     (1 <= k <= Z.to_nat (N cfg))%nat
     /\ sweep (spec_kernels overlap base) cfg timestep fuel i s = Finished s'
     /\ swaps (issued s') = rev (map R (seq 1 k)) ++ swaps (issued s))
  /\ (forall t j, (j < Z.to_nat (N cfg))%nat ->
        nth j (m_reject_out_of_cell m0) false = true ->
        nth j (R t) false = true)
  /\ (forall t j, (j < Z.to_nat (N cfg))%nat ->
        order_of m0 j <= Z.of_nat t ->
        nth j (R (S t)) false = nth j (R t) false).
Proof.
  intros HN Hdep Hpatch Horder Hfuel m0 R.
  assert (Horder0 : forall j, (j < Z.to_nat (N cfg))%nat ->
                              0 <= order_of m0 j < N cfg).
  { intros j Hj; unfold m0, init_reject, launch_gen_moves.
    destruct (hpmc_gen_moves _ _ _ _ _) as [tr ooc]. now apply Horder. }
  split; [|split].
  - destruct (sweep_converges overlap base cfg timestep Hdep Hpatch i s fuel
                HN Horder Hfuel) as (s' & k & Hk & Hrun & Hsw & _).
    exists s', k; auto.
  - intros t j Hj Hooc. now apply (out_of_cell_stays overlap cfg m0).
  - intros t j Hj Hpos. now apply (flag_settles overlap cfg m0 Horder0).
Qed.

Lemma reject_flags_settle_in_update_order_witness :
  nth 2 (flags chain_overlap chain_system
           (dev (init_reject chain_system
                   (launch_gen_moves chain_kernels chain_system 0 0 chain_state)))
           [false; false; false] 3) false
  = nth 2 (flags chain_overlap chain_system
             (dev (init_reject chain_system
                     (launch_gen_moves chain_kernels chain_system 0 0 chain_state)))
             [false; false; false] 2) false.
Proof.
  refine (proj2 (proj2
    (reject_flags_settle_in_update_order chain_overlap UpdateFacts.idle_kernels
       chain_system 0 0 chain_state 4
       ltac:(reflexivity) (fun _ => Qeq_refl 0) eq_refl
       chain_order_in_range ltac:(vm_compute; lia))) 2%nat 2%nat _ _).
  - vm_compute; lia.
  - vm_compute; congruence.
Defined.

(** C1, as stated, fails.  In the chain the third particle overlaps the
    trial position of the second, which overlaps the trial position of
    the first.  The loop takes three passes; [reject] of the third
    particle is set after the first pass and cleared after the second,
    when the second particle has been found rejected. *)
Lemma reject_flag_reverts_in_chain :
  exists s',
    sweep chain_kernels chain_system 0 4 0 chain_state = Finished s'
    /\ rev (swaps (issued s'))
       = [[false; true; true]; [false; true; false]; [false; true; false]]
    /\ iterations (issued s') = 3%nat.
Proof. eexists; split; [|split]; vm_compute; reflexivity. Qed.

End ConvergenceFacts.

(** ** HarmonicBondForceCompute *)

Module HarmonicBondFacts.

Import Floats.
Import HarmonicBondForceCompute.

(** A finite binary64 number is a zero or a normal or subnormal number. *)
Lemma finite_cases (v : float) :
  is_finite v = true ->
  (exists s, Prim2SF v = S754_zero s) \/ (exists s m e, Prim2SF v = S754_finite s m e).
Proof.
  unfold is_finite, is_nan, is_infinity; rewrite !eqb_spec, abs_spec.
  change (Prim2SF infinity) with (S754_infinity false).
  destruct (Prim2SF v) as [s|s| |s m e] eqn:E.
  - intros _; left; now exists s.
  - destruct s; cbn; discriminate.
  - cbn; discriminate.
  - intros _; right; now exists s, m, e.
Qed.

Lemma mul_zero_l (v : float) : is_finite v = true -> is_zero (0 * v) = true.
Proof.
  intros Hv; unfold is_zero; rewrite eqb_spec, mul_spec.
  change (Prim2SF 0) with (S754_zero false); change (Prim2SF zero) with (S754_zero false).
  destruct (finite_cases v Hv) as [(s & ->)|(s & m & e & ->)]; reflexivity.
Qed.

Lemma mul_zero_r (v : float) : is_finite v = true -> is_zero (v * 0) = true.
Proof.
  intros Hv; unfold is_zero; rewrite eqb_spec, mul_spec.
  change (Prim2SF 0) with (S754_zero false); change (Prim2SF zero) with (S754_zero false).
  destruct (finite_cases v Hv) as [(s & ->)|(s & m & e & ->)]; reflexivity.
Qed.

(** The separation of a bond and the products of its components that
    enter the virial are finite. *)
Definition finite_separation (t : terms) : bool :=
  is_finite (dx t) && is_finite (dy t) && is_finite (dz t)
  && is_finite (dx t * dx t) && is_finite (dx t * dy t) && is_finite (dx t * dz t)
  && is_finite (dy t * dy t) && is_finite (dy t * dz t) && is_finite (dz t * dz t).

(** Two particles at the same place, bonded with [K = 1] and
    [r_0 = 1], in a box of length ten. *)
Definition unit_box : BoxDim := mkBox (-5) 5 (-5) 5 (-5) 5.
Definition origin : Scalar4 := make_scalar4 0 0 0 0.
Definition coincident_bond : Bond := mkBond 0 0 1.


Lemma coincident_terms :
  let t := terms_of unit_box [origin; origin] [0; 1] [1%float] [1%float]
             coincident_bond in
  is_finite (forcemag_divr_raw t) = false
  /\ forcemag_divr t = 0%float
  /\ bond_eng t = 0.25%float.
Proof. repeat split. Qed.

(** C7, as the code has it.  For a bond whose force magnitude is not
    finite the magnitude is replaced by zero: the force and the virial
    the bond adds to both particles are zero as long as the separation
    and the products of its components are finite (as for coincident
    particles); the energy added is still
    [0.5 * 0.5 * K * (r_0 - r) * (r_0 - r)]; the loop goes on over the
    remaining bonds and [computeForces] returns. *)
Theorem non_finite_force_is_zeroed
  (box : BoxDim) (h_pos : list Scalar4) (h_rtag : list Z)
  (m_K m_r_0 : list Scalar) (virial_pitch : nat)
  (before after : list Bond) (bond : Bond) (old : arrays) :
  let t := terms_of box h_pos h_rtag m_K m_r_0 bond in
  let K := nth (Z.to_nat (type bond)) m_K 0%float in
  let r_0 := nth (Z.to_nat (type bond)) m_r_0 0%float in
  is_finite (forcemag_divr_raw t) = false ->
  finite_separation t = true ->
  forcemag_divr t = 0%float
  /\ (is_zero (forcemag_divr t * dx t) = true
      /\ is_zero (forcemag_divr t * dy t) = true
      /\ is_zero (forcemag_divr t * dz t) = true)
  /\ (is_zero (bond_virialxx t) = true /\ is_zero (bond_virialxy t) = true
      /\ is_zero (bond_virialxz t) = true /\ is_zero (bond_virialyy t) = true
      /\ is_zero (bond_virialyz t) = true /\ is_zero (bond_virialzz t) = true)
  /\ bond_eng t = (0.5 * 0.5 * K * (r_0 - r t) * (r_0 - r t))%float
  /\ exists out,
       computeForces box h_pos h_rtag m_K m_r_0 virial_pitch
         (before ++ bond :: after) old = Returned out
       /\ out = fold_left (add_bond box h_pos h_rtag m_K m_r_0 virial_pitch) after
                  (add_bond box h_pos h_rtag m_K m_r_0 virial_pitch
                     (fold_left (add_bond box h_pos h_rtag m_K m_r_0 virial_pitch)
                        before
                        (mkArrays (map (fun _ => zero4) (h_force old))
                                  (map (fun _ => 0%float) (h_virial old))))
                     bond).
Proof.
  intros t K r_0 Hraw Hfin.
  assert (Hmag : forcemag_divr t = 0%float).
  { unfold t, terms_of, bond_terms in *; cbn [forcemag_divr forcemag_divr_raw] in *.
    now rewrite Hraw. }
  unfold finite_separation in Hfin.
  repeat (apply andb_prop in Hfin; destruct Hfin as [Hfin ?]).
  split; [exact Hmag|].
  split; [rewrite Hmag; repeat split; now apply mul_zero_l|].
  split.
  - assert (Hv : forall p, is_finite p = true ->
                           is_zero (p * (0.5 * forcemag_divr t)) = true).
    { intros p Hp; rewrite Hmag.
      change (0.5 * 0)%float with 0%float. now apply mul_zero_r. }
    repeat split; apply Hv; assumption.
  - split; [reflexivity|].
    eexists; split; [reflexivity|].
    now rewrite fold_left_app.
Qed.

Lemma non_finite_force_is_zeroed_witness :
  is_zero (forcemag_divr
             (terms_of unit_box [origin; origin] [0; 1] [1%float] [1%float]
                coincident_bond)
           * dx (terms_of unit_box [origin; origin] [0; 1] [1%float] [1%float]
                   coincident_bond)) = true.
Proof.
  exact (proj1 (proj1 (proj2
    (non_finite_force_is_zeroed unit_box [origin; origin] [0; 1]
       [1%float] [1%float] 2 [] [] coincident_bond
       (mkArrays [origin; origin] (repeat 0%float 12))
       eq_refl eq_refl)))).
Defined.

(** C7, as stated, fails on the energy: for the two coincident
    particles the force magnitude is infinite and is zeroed, force and
    virial stay zero, but each particle receives the energy 0.25. *)
Lemma coincident_bond_adds_energy :
  is_finite (forcemag_divr_raw
               (terms_of unit_box [origin; origin] [0; 1] [1%float] [1%float]
                  coincident_bond)) = false
  /\ computeForces unit_box [origin; origin] [0; 1] [1%float] [1%float] 2
       [coincident_bond] (mkArrays [origin; origin] (repeat 0%float 12))
     = Returned (mkArrays [make_scalar4 0 0 0 0.25; make_scalar4 0 0 0 0.25]
                          (repeat 0%float 12)).
Proof. split; vm_compute; reflexivity. Qed.

End HarmonicBondFacts.


(** ** ParticleFilterIntersection: algebra of nested intersections *)

Module ParticleFilterIntersectionAlgebra.

Import ParticleFilterIntersection ParticleFilterIntersectionFacts.

(** Two ascending lists that hold every value equally often are equal. *)
Lemma sorted_count_unique (l1 l2 : list Z) :
  StronglySorted Z.le l1 -> StronglySorted Z.le l2 ->
  (forall t, count_occ Z.eq_dec l1 t = count_occ Z.eq_dec l2 t) ->
  l1 = l2.
Proof.
  revert l2; induction l1 as [|a l1 IH]; intros l2 H1 H2 Hc.
  - symmetry; apply (count_occ_inv_nil Z.eq_dec); intros t; now rewrite <- Hc.
  - destruct l2 as [|b l2].
    + specialize (Hc a); rewrite count_occ_cons_eq in Hc by reflexivity.
      cbn in Hc; discriminate.
    + inversion H1 as [|? ? H1' Hall1]; inversion H2 as [|? ? H2' Hall2]; subst.
      rewrite Forall_forall in Hall1, Hall2.
      assert (Hab : a = b).
      { assert (In a (b :: l2)) as [->|Ha].
        { apply (count_occ_In Z.eq_dec); rewrite <- Hc.
          rewrite count_occ_cons_eq by reflexivity; lia. }
        - reflexivity.
        - assert (In b (a :: l1)) as [->|Hb].
          { apply (count_occ_In Z.eq_dec); rewrite Hc.
            rewrite count_occ_cons_eq by reflexivity; lia. }
          + reflexivity.
          + specialize (Hall1 _ Hb); specialize (Hall2 _ Ha); lia. }
      subst b; f_equal; apply IH; trivial.
      intros t; specialize (Hc t).
      destruct (Z.eq_dec a t) as [->|Hne].
      * rewrite !count_occ_cons_eq in Hc by reflexivity; lia.
      * now rewrite !(count_occ_cons_neq _ _ Hne) in Hc.
Qed.

Section Filters.

Variable SystemDefinition : Type.

Local Abbreviation inter := (getSelectedTags SystemDefinition).

Lemma inter_sorted f g s : StronglySorted Z.le (inter f g s).
Proof.
  unfold getSelectedTags.
  rewrite firstn_all2 by apply set_intersection_length.
  apply set_intersection_sorted, sort_strongly_sorted.
Qed.

Lemma inter_count f g s t :
  count_occ Z.eq_dec (inter f g s) t
  = Nat.min (count_occ Z.eq_dec (f s) t) (count_occ Z.eq_dec (g s) t).
Proof.
  unfold getSelectedTags.
  rewrite firstn_all2 by apply set_intersection_length.
  rewrite set_intersection_count by apply sort_strongly_sorted.
  now rewrite !sort_count.
Qed.

End Filters.

(** The intersection filter is itself a filter, so intersections nest.
    The tags selected do not depend on the order of the components nor
    on how three components are grouped. *)
Theorem intersection_commutative_associative
  (SystemDefinition : Type)
  (f g h : SystemDefinition -> list Z) (s : SystemDefinition) :
  getSelectedTags SystemDefinition f g s = getSelectedTags SystemDefinition g f s
  /\ getSelectedTags SystemDefinition (getSelectedTags SystemDefinition f g) h s
     = getSelectedTags SystemDefinition f (getSelectedTags SystemDefinition g h) s.
Proof.
  split; apply sorted_count_unique; try apply inter_sorted; intros t;
    rewrite !inter_count; lia.
Qed.

(** Intersecting a filter with itself returns its tags in ascending
    order, duplicates kept; a component that selects nothing makes the
    intersection empty; the result is never longer than a component. *)
Theorem intersection_idempotent_and_empty
  (SystemDefinition : Type)
  (f g : SystemDefinition -> list Z) (s : SystemDefinition) :
  getSelectedTags SystemDefinition f f s = TagSort.sort (f s)
  /\ (g s = [] -> getSelectedTags SystemDefinition f g s = []
                  /\ getSelectedTags SystemDefinition g f s = [])
  /\ (length (getSelectedTags SystemDefinition f g s)
      <= Nat.min (length (f s)) (length (g s)))%nat.
Proof.
  split; [|split].
  - apply sorted_count_unique;
      [apply inter_sorted|apply sort_strongly_sorted|].
    intros t; rewrite inter_count, sort_count; lia.
  - intros Hg; split; apply (count_occ_inv_nil Z.eq_dec); intros t;
      rewrite inter_count, Hg; cbn; lia.
  - unfold getSelectedTags.
    rewrite firstn_all2 by apply set_intersection_length.
    pose proof (set_intersection_length (TagSort.sort (f s)) (TagSort.sort (g s))) as H.
    rewrite <- !(Permutation_length (TagSort.Permuted_sort _)) in H. exact H.
Qed.

End ParticleFilterIntersectionAlgebra.


(** ** UpdateOrderGPU: the order kept by sequences of operations *)

Module UpdateOrderGPUInvariant.

Import Uint UintFacts UpdateOrderGPU UpdateOrderGPUFacts.

(** The calls a user can make on an order after its construction. *)
Inductive op : Type :=
| Resize (N : Z)
| Shuffle (timestep select : Z).

Definition apply (draw : Z -> Z -> Z -> bool) (o : t) (c : op) : t :=
  match c with
  | Resize N => resize N o
  | Shuffle timestep select => shuffle draw timestep select o
  end.

Definition in_range (c : op) : Prop :=
  match c with Resize N => 0 <= N < 2 ^ 32 | Shuffle _ _ => True end.

Definition iota (n : nat) : list Z := map Z.of_nat (seq 0 n).

(** Both arrays list [0 .. n-1], one upwards and one downwards. *)
Definition well_formed (o : t) : Prop :=
  m_update_order o = iota (length (m_update_order o))
  /\ m_reverse_update_order o = rev (iota (length (m_update_order o))).

Lemma rev_iota (n : nat) :
  map (fun i => Z.of_nat n - 1 - i) (iota n) = rev (iota n).
Proof.
  apply (nth_ext _ _ 0 0).
  - unfold iota; now rewrite length_rev, !length_map.
  - unfold iota; rewrite !length_map, length_seq; intros i Hi.
    rewrite rev_nth by (now rewrite length_map, length_seq).
    rewrite length_map, length_seq, map_map.
    rewrite !nth_map_seq by lia. lia.
Qed.

Lemma resize_well_formed (N : Z) (o : t) :
  0 <= N < 2 ^ 32 -> well_formed o -> well_formed (resize N o).
Proof.
  intros HN Hwf; unfold resize.
  destruct (Z.eqb_spec N 0) as [|Hnz]; [exact Hwf|].
  destruct (Z.eqb_spec N (size o)) as [|Hns]; [exact Hwf|].
  cbn [orb]; unfold well_formed; cbn [m_update_order m_reverse_update_order].
  rewrite map_id, length_map, length_seq. fold (iota (Z.to_nat N)).
  split; [reflexivity|].
  rewrite <- rev_iota; apply map_ext_in; intros i Hi.
  unfold iota in Hi; apply in_map_iff in Hi; destruct Hi as (j & <- & Hj).
  apply in_seq in Hj.
  rewrite (u32_id (N - Z.of_nat j)) by lia.
  rewrite u32_id by lia. lia.
Qed.

Lemma size_resize (N : Z) (o : t) :
  0 < N -> size (resize N o) = N.
Proof.
  intros HN; unfold resize.
  destruct (Z.eqb_spec N 0) as [|_]; [lia|].
  destruct (Z.eqb_spec N (size o)) as [->|_]; [reflexivity|].
  cbn [orb]; unfold size; cbn [m_update_order].
  rewrite !length_map, length_seq; lia.
Qed.

Lemma iota_permutation_rev (n : nat) : Permutation (rev (iota n)) (iota n).
Proof. apply Permutation_sym, Permutation_rev. Qed.

Lemma NoDup_iota (n : nat) : NoDup (iota n).
Proof.
  unfold iota; apply Finite.Injective_map_NoDup; [|apply seq_NoDup].
  intros a b; apply Nat2Z.inj.
Qed.

(** Whatever resizes and shuffles follow the construction, the two
    arrays list [0 .. size-1] upwards and downwards, and the order in
    use visits every index below the size exactly once. *)
Theorem order_is_always_a_permutation
  (draw : Z -> Z -> Z -> bool) (seed N : Z) (calls : list op) :
  0 <= N < 2 ^ 32 -> Forall in_range calls ->
  let o := fold_left (apply draw) calls (construct seed N) in
  let n := length (m_update_order o) in
  m_update_order o = iota n
  /\ m_reverse_update_order o = rev (m_update_order o)
  /\ Permutation (get o) (iota n)
  /\ NoDup (get o)
  /\ m_seed o = seed.
Proof.
  intros HN Hcalls.
  assert (H0 : well_formed (construct seed N) /\ m_seed (construct seed N) = seed).
  { split; [apply resize_well_formed; [exact HN|split; reflexivity]|].
    unfold construct, resize, empty.
    destruct (_ || _); reflexivity. }
  revert H0; generalize (construct seed N) as o0.
  induction Hcalls as [|c calls Hc _ IH]; intros o0 (Hwf & Hseed); cbn [fold_left].
  - cbv zeta. destruct Hwf as (Hf & Hr).
    split; [exact Hf|]. split; [now rewrite Hr, <- Hf|].
    assert (Hperm : Permutation (get o0) (iota (length (m_update_order o0)))).
    { unfold get; destruct (m_is_reversed o0).
      - rewrite Hr; apply iota_permutation_rev.
      - rewrite <- Hf; apply Permutation_refl. }
    split; [exact Hperm|]. split; [|exact Hseed].
    eapply Permutation_NoDup; [apply Permutation_sym, Hperm|apply NoDup_iota].
  - apply IH; destruct c as [M|ts sel]; cbn [apply in_range] in *.
    + split; [now apply resize_well_formed|].
      unfold resize; destruct (_ || _); [exact Hseed|exact Hseed].
    + split; [exact Hwf|exact Hseed].
Qed.

Lemma order_is_always_a_permutation_witness :
  NoDup (get (fold_left (apply (fun _ _ _ => true))
                [Shuffle 3 0; Resize 5; Shuffle 4 1; Resize 5; Resize 0]
                (construct 42 3))).
Proof.
  refine (proj1 (proj2 (proj2 (proj2
    (order_is_always_a_permutation (fun _ _ _ => true) 42 3
       [Shuffle 3 0; Resize 5; Shuffle 4 1; Resize 5; Resize 0]
       ltac:(lia) _))))).
  repeat constructor; cbn; lia.
Defined.

(** [resize] to the size an order already has is no reset: the arrays
    and a reversal flag set by [shuffle] stay as they are; so does
    [resize(0)].  Any other size clears the flag. *)
Theorem resize_to_current_size_keeps_the_flag
  (draw : Z -> Z -> Z -> bool) (o : t) (N M timestep select : Z) :
  0 < N -> 0 < M -> M <> N ->
  resize N (shuffle draw timestep select (resize N o))
  = shuffle draw timestep select (resize N o)
  /\ resize 0 (shuffle draw timestep select (resize N o))
     = shuffle draw timestep select (resize N o)
  /\ resize N (resize N o) = resize N o
  /\ m_is_reversed (resize M (shuffle draw timestep select (resize N o))) = false.
Proof.
  intros HN HM HMN.
  assert (Hsize : size (shuffle draw timestep select (resize N o)) = N)
    by (exact (size_resize N o HN)).
  pose proof (size_resize N o HN) as Hsize'.
  split; [|split; [|split]].
  - unfold resize at 1. rewrite Hsize, Z.eqb_refl, orb_true_r. reflexivity.
  - reflexivity.
  - unfold resize at 1. rewrite Hsize', Z.eqb_refl, orb_true_r. reflexivity.
  - unfold resize at 1. rewrite Hsize.
    destruct (Z.eqb_spec M 0); [lia|]. destruct (Z.eqb_spec M N); [lia|].
    reflexivity.
Qed.

Lemma resize_to_current_size_keeps_the_flag_witness :
  m_is_reversed
    (resize 4 (shuffle (fun _ _ _ => true) 7 0 (resize 4 (empty 42)))) = true.
Proof.
  rewrite (proj1 (resize_to_current_size_keeps_the_flag (fun _ _ _ => true)
                    (empty 42) 4 5 7 0 ltac:(lia) ltac:(lia) ltac:(lia))).
  reflexivity.
Defined.

End UpdateOrderGPUInvariant.


(** ** DomainDecomposition: the search with pinned dimensions *)

Module PinnedSearchFacts.

Import Uint UintFacts DomainDecomposition DecompositionFacts.

Section Pinned.

Variable P : Z.
Variable L : Scalar3.
Hypothesis HP : 0 < P < 2 ^ 31.
Variables nx_in ny_in nz_in : Z.

Let fuel := (Z.to_nat P + 1)%nat.

Local Abbreviation fits := (matches nx_in ny_in nz_in).
Local Abbreviation fact := (factorization P).

(** The state a pinned search starts from. *)
Variable s0 : search.
Hypothesis not_found_yet : found_decomposition s0 = false.

(** Among the triples in [V] either none is a factorization that fits
    the pins and the state is untouched, or the state holds one of least
    area. *)
Definition pinned_best (V : Z -> Z -> Z -> Prop) (s : search) : Prop :=
  found_decomposition s = true
  /\ fact (s_nx s) (s_ny s) (s_nz s)
  /\ fits (s_nx s) (s_ny s) (s_nz s)
  /\ (min_surface_area s == surface_area_of L (s_nx s) (s_ny s) (s_nz s))%Q
  /\ forall a b c, fact a b c -> fits a b c -> V a b c ->
       (min_surface_area s <= surface_area_of L a b c)%Q.

Definition pinned_inv (V : Z -> Z -> Z -> Prop) (s : search) : Prop :=
  (s = s0 /\ forall a b c, fact a b c -> fits a b c -> ~ V a b c)
  \/ pinned_best V s.

Lemma pinned_inv_weaken (V V' : Z -> Z -> Z -> Prop) (s : search) :
  pinned_inv V s ->
  (forall a b c, fact a b c -> fits a b c -> V' a b c -> V a b c) ->
  pinned_inv V' s.
Proof.
  intros [(Hs & Hnone)|(Hf & Hfac & Hfit & Hmin & Hall)] Hsub.
  - left; split; [exact Hs|].
    intros a b c Hfa Hfi HV'; exact (Hnone a b c Hfa Hfi (Hsub a b c Hfa Hfi HV')).
  - right; repeat split; trivial; try apply Hfac; try apply Hfit.
    intros a b c Hfa Hfi HV'; apply Hall; auto.
Qed.

Lemma try_triple_pinned (V : Z -> Z -> Z -> Prop) (a b c : Z) (s : search) :
  1 <= a -> 1 <= b -> 1 <= c -> a * b <= P -> a * b * c <= 2 * P ->
  (nx_in = 0 \/ a = nx_in) -> (ny_in = 0 \/ b = ny_in) ->
  pinned_inv V s ->
  pinned_inv (fun a' b' c' => V a' b' c' \/ (a' = a /\ b' = b /\ c' = c))
             (try_triple P L nz_in a b c s).
Proof.
  intros Ha Hb Hc Hab Habc Hpx Hpy Hinv.
  unfold try_triple.
  destruct (negb (nz_in =? 0) && negb (c =? nz_in)) eqn:Hpz.
  { apply (pinned_inv_weaken V); trivial.
    intros a' b' c' _ (_ & _ & Hfz) [HV|(-> & -> & ->)]; [trivial|].
    exfalso; apply andb_prop in Hpz; destruct Hpz as (H1 & H2).
    apply negb_true_iff in H1, H2; apply Z.eqb_neq in H1, H2.
    destruct Hfz; congruence. }
  apply pinned_spec in Hpz.
  assert (0 <= a * b) by nia.
  assert (0 <= a * b * c) by nia.
  rewrite (u32_id (a * b)), (u32_id (a * b * c)) by lia.
  destruct (Z.eqb_spec (a * b * c) P) as [Heq|Hne]; cbn [negb].
  - assert (Hfa : fact a b c) by (repeat split; lia).
    assert (Hfi : fits a b c) by (repeat split; assumption).
    destruct Hinv as [(-> & Hnone)|(Hf & Hfac & Hfit & Hmin & Hall)].
    + rewrite not_found_yet; cbn [negb]; rewrite orb_true_r.
      right; repeat split;
        cbn [found_decomposition s_nx s_ny s_nz min_surface_area];
        try lia; try apply Qeq_refl; try assumption; try apply Hfi.
      intros a' b' c' Hfa' Hfi' [HV|(-> & -> & ->)]; [|apply Qle_refl].
      exfalso; exact (Hnone _ _ _ Hfa' Hfi' HV).
    + rewrite Hf; cbn [negb]; rewrite orb_false_r.
      pose proof (scalar_lt_spec (surface_area_of L a b c) (min_surface_area s)) as Hlt.
      destruct (scalar_lt (surface_area_of L a b c) (min_surface_area s)).
      * right; repeat split;
          cbn [found_decomposition s_nx s_ny s_nz min_surface_area];
          try lia; try apply Qeq_refl; try assumption; try apply Hfi.
        intros a' b' c' Hfa' Hfi' [HV|(-> & -> & ->)]; [|apply Qle_refl].
        apply Qle_trans with (min_surface_area s); [now apply Qlt_le_weak|auto].
      * right; repeat split; trivial; try apply Hfac; try apply Hfit.
        intros a' b' c' Hfa' Hfi' [HV|(-> & -> & ->)]; auto.
  - apply (pinned_inv_weaken V); trivial.
    intros a' b' c' (_ & _ & _ & Hprod) _ [HV|(-> & -> & ->)]; [trivial|lia].
Qed.

Lemma loop_nz_pinned (V : Z -> Z -> Z -> Prop) (a b : Z) (s : search) :
  1 <= a -> 1 <= b -> a * b <= P ->
  (nx_in = 0 \/ a = nx_in) -> (ny_in = 0 \/ b = ny_in) ->
  pinned_inv V s ->
  exists s', loop_nz fuel P L nz_in a b s = Some s'
             /\ pinned_inv (fun a' b' c' => V a' b' c' \/ (a' = a /\ b' = b)) s'.
Proof.
  intros Ha Hb Hab Hpx Hpy Hinv.
  assert (Hab0 : 0 < a * b) by nia.
  pose proof (product_bound_next P (a * b) ltac:(lia) Hab0) as Hnext.
  assert (0 <= P / (a * b) <= P).
  { split; [apply Z.div_pos; lia|].
    apply Z.div_le_upper_bound; [lia|]. nia. }
  destruct (for_loop_inv
              (fun k s => pinned_inv (fun a' b' c' =>
                            V a' b' c' \/ (a' = a /\ b' = b /\ c' < k)) s)
              (fun nz_try => u32 (u32 (a * b) * nz_try) <=? P)
              (fun nz_try s => Some (try_triple P L nz_in a b nz_try s))
              (P / (a * b) + 1) ltac:(lia))
    with (fuel := fuel) (lo := 1) (s := s) as (s' & Hrun & Hs').
  - rewrite (u32_id (a * b)), u32_id by lia. apply Z.leb_gt; lia.
  - lia.
  - intros i Hi.
    assert (a * b * i <= P) by (apply product_bound; lia).
    assert (0 <= a * b * i) by nia.
    rewrite (u32_id (a * b)), u32_id by lia. now apply Z.leb_le.
  - intros i s1 Hi Hinv1; eexists; split; [reflexivity|].
    assert (a * b * i <= P) by (apply product_bound; lia).
    assert (0 <= a * b * i) by nia.
    pose proof (try_triple_pinned _ a b i s1 ltac:(lia) ltac:(lia) ltac:(lia)
                  ltac:(lia) ltac:(lia) Hpx Hpy Hinv1) as Hstep.
    eapply pinned_inv_weaken; [exact Hstep|].
    cbn beta; intros a' b' c' _ _ [HV|(-> & -> & Hc)]; [auto|].
    destruct (Z.eq_dec c' i) as [->|]; [right; auto|].
    left; right; repeat split; lia.
  - eapply pinned_inv_weaken; [exact Hinv|].
    cbn beta; intros a' b' c' (_ & _ & Hc' & _) _ [HV|(_ & _ & Hc)]; [trivial|lia].
  - unfold fuel; lia.
  - exists s'; split; [exact Hrun|].
    eapply pinned_inv_weaken; [exact Hs'|].
    cbn beta; intros a' b' c' (Ha' & Hb' & Hc' & Hprod) _ [HV|(-> & ->)]; [auto|].
    right; repeat split; trivial.
    assert (c' <= P / (a * b)) by (apply product_bound; lia).
    lia.
Qed.

Lemma loop_ny_pinned (V : Z -> Z -> Z -> Prop) (a : Z) (s : search) :
  1 <= a <= P -> (nx_in = 0 \/ a = nx_in) ->
  pinned_inv V s ->
  exists s', loop_ny fuel P L ny_in nz_in a s = Some s'
             /\ pinned_inv (fun a' b' c' => V a' b' c' \/ a' = a) s'.
Proof.
  intros Ha Hpx Hinv.
  pose proof (product_bound_next P a ltac:(lia) ltac:(lia)) as Hnext.
  assert (0 <= P / a <= P).
  { split; [apply Z.div_pos; lia|].
    apply Z.div_le_upper_bound; [lia|]. nia. }
  destruct (for_loop_inv
              (fun j s => pinned_inv (fun a' b' c' =>
                            V a' b' c' \/ (a' = a /\ b' < j)) s)
              (fun ny_try => u32 (a * ny_try) <=? P)
              (fun ny_try s =>
                 if negb (ny_in =? 0) && negb (ny_try =? ny_in) then Some s
                 else loop_nz fuel P L nz_in a ny_try s)
              (P / a + 1) ltac:(lia))
    with (fuel := fuel) (lo := 1) (s := s) as (s' & Hrun & Hs').
  - rewrite u32_id by lia. apply Z.leb_gt; lia.
  - lia.
  - intros i Hi.
    assert (a * i <= P) by (apply product_bound; lia).
    assert (0 <= a * i) by nia.
    rewrite u32_id by lia. now apply Z.leb_le.
  - intros i s1 Hi Hinv1.
    assert (a * i <= P) by (apply product_bound; lia).
    destruct (negb (ny_in =? 0) && negb (i =? ny_in)) eqn:Hpy.
    + exists s1; split; [reflexivity|].
      eapply pinned_inv_weaken; [exact Hinv1|].
      cbn beta; intros a' b' c' _ (_ & Hfy & _) [HV|(-> & Hb)]; [auto|].
      destruct (Z.eq_dec b' i) as [->|]; [|right; split; lia].
      exfalso; apply andb_prop in Hpy; destruct Hpy as (H1 & H2).
      apply negb_true_iff in H1, H2; apply Z.eqb_neq in H1, H2.
      destruct Hfy; congruence.
    + apply pinned_spec in Hpy.
      destruct (loop_nz_pinned _ a i s1 ltac:(lia) ltac:(lia) ltac:(lia)
                  Hpx Hpy Hinv1) as (s2 & Hrun2 & Hs2).
      exists s2; split; [exact Hrun2|].
      eapply pinned_inv_weaken; [exact Hs2|].
      cbn beta; intros a' b' c' _ _ [HV|(-> & Hb)]; [auto|].
      destruct (Z.eq_dec b' i) as [->|]; [right; auto|].
      left; right; split; lia.
  - eapply pinned_inv_weaken; [exact Hinv|].
    cbn beta; intros a' b' c' (_ & Hb' & _) _ [HV|(_ & Hb)]; [trivial|lia].
  - unfold fuel; lia.
  - exists s'; split; [exact Hrun|].
    eapply pinned_inv_weaken; [exact Hs'|].
    cbn beta; intros a' b' c' (Ha' & Hb' & Hc' & Hprod) _ [HV| ->]; [auto|].
    right; split; trivial.
    assert (a * b' <= P) by nia.
    assert (b' <= P / a) by (apply product_bound; lia).
    lia.
Qed.

Lemma loop_nx_pinned :
  exists s', loop_nx fuel P L nx_in ny_in nz_in s0 = Some s'
             /\ pinned_inv (fun _ _ _ => True) s'.
Proof.
  destruct (for_loop_inv
              (fun i s => pinned_inv (fun a' b' c' => a' < i) s)
              (fun nx_try => nx_try <=? P)
              (fun nx_try s =>
                 if negb (nx_in =? 0) && negb (nx_try =? nx_in) then Some s
                 else loop_ny fuel P L ny_in nz_in nx_try s)
              (P + 1) ltac:(lia))
    with (fuel := fuel) (lo := 1) (s := s0) as (s' & Hrun & Hs').
  - apply Z.leb_gt; lia.
  - lia.
  - intros i Hi. apply Z.leb_le; lia.
  - intros i s1 Hi Hinv1.
    destruct (negb (nx_in =? 0) && negb (i =? nx_in)) eqn:Hpx.
    + exists s1; split; [reflexivity|].
      eapply pinned_inv_weaken; [exact Hinv1|].
      cbn beta; intros a' b' c' _ (Hfx & _) Ha'.
      destruct (Z.eq_dec a' i) as [->|]; [|lia].
      exfalso; apply andb_prop in Hpx; destruct Hpx as (H1 & H2).
      apply negb_true_iff in H1, H2; apply Z.eqb_neq in H1, H2.
      destruct Hfx; congruence.
    + apply pinned_spec in Hpx.
      destruct (loop_ny_pinned _ i s1 ltac:(lia) Hpx Hinv1) as (s2 & Hrun2 & Hs2).
      exists s2; split; [exact Hrun2|].
      eapply pinned_inv_weaken; [exact Hs2|].
      cbn beta; intros a' b' c' _ _ Ha'.
      destruct (Z.eq_dec a' i); [now right | left; lia].
  - left; split; [reflexivity|].
    intros a' b' c' (Ha' & _) _ Hlt; lia.
  - unfold fuel; lia.
  - exists s'; split; [exact Hrun|].
    eapply pinned_inv_weaken; [exact Hs'|].
    cbn beta; intros a' b' c' (Ha' & Hb' & Hc' & Hprod) _ _.
    assert (1 <= b' * c') by nia.
    nia.
Qed.

End Pinned.

(** The search from a request that pins a dimension. *)
Lemma pinned_search_state (P : Z) (L : Scalar3) (nx ny nz : Z) :
  0 < P < 2 ^ 31 ->
  (nx =? 0) && (ny =? 0) && (nz =? 0) = false ->
  let s0 := mkSearch 1 1 P
              (Lx L * Ly L * inject_Z P + Lx L * Lz L + Ly L * Lz L)%Q false in
  exists s',
    findDecomposition P L nx ny nz
    = Some (found_decomposition s', (s_nx s', s_ny s', s_nz s'))
    /\ pinned_inv P L nx ny nz s0 (fun _ _ _ => True) s'.
Proof.
  intros HP Hzero s0.
  destruct (loop_nx_pinned P L HP nx ny nz s0 eq_refl) as (s' & Hrun & Hinv).
  exists s'; split; [|exact Hinv].
  unfold findDecomposition, findDecomposition_fuel.
  rewrite Hzero; fold s0; now rewrite Hrun.
Qed.

Lemma all_unpinned (nx ny nz : Z) :
  (nx =? 0) && (ny =? 0) && (nz =? 0) = true -> nx = 0 /\ ny = 0 /\ nz = 0.
Proof.
  intros H; apply andb_prop in H; destruct H as (H & Hz).
  apply andb_prop in H; destruct H as (Hx & Hy).
  apply Z.eqb_eq in Hx, Hy, Hz; auto.
Qed.





End PinnedSearchFacts.


(** ** DomainDecomposition: boundaries, neighbours and local boxes *)

Module BoundaryFacts.

Import Uint UintFacts DomainDecomposition NeighborFacts.

(** Component [axis] (0, 1 or 2) of a grid position, of the grid extents
    and of a vector. *)
Definition coord (axis : Z) (p : uint3) : Z :=
  if axis =? 0 then ux p else if axis =? 1 then uy p else uz p.

Definition extent (axis : Z) (dd : t) : Z :=
  if axis =? 0 then m_nx dd else if axis =? 1 then m_ny dd else m_nz dd.

Definition comp (axis : Z) (v : Scalar3) : Scalar :=
  if axis =? 0 then Lx v else if axis =? 1 then Ly v else Lz v.

Definition flag (axis : Z) (f : bool * bool * bool) : bool :=
  if axis =? 0 then fst (fst f) else if axis =? 1 then snd (fst f) else snd f.

Lemma mod_step_up (c n : Z) :
  0 <= c < n -> (c + 1) mod n = if c =? n - 1 then 0 else c + 1.
Proof.
  intros H; destruct (Z.eqb_spec c (n - 1)) as [->|Hne].
  - replace (n - 1 + 1) with n by lia. apply Z.mod_same; lia.
  - apply Z.mod_small; lia.
Qed.

Lemma mod_step_down (c n : Z) :
  0 <= c < n -> (c + -1) mod n = if c =? 0 then n - 1 else c - 1.
Proof.
  intros H; destruct (Z.eqb_spec c 0) as [->|Hne].
  - symmetry; apply Z.mod_unique with (q := -1); lia.
  - apply Z.mod_small; lia.
Qed.

Lemma mod_stay (c n : Z) : 0 <= c < n -> (c + 0) mod n = c.
Proof. intros H; rewrite Z.add_0_r; apply Z.mod_small; lia. Qed.

Section Grid.

Variables nx ny nz A root : Z.
Hypothesis Hx : 0 < nx.
Hypothesis Hy : 0 < ny.
Hypothesis Hz : 0 < nz.
Hypothesis Hsize : nx * ny * nz < 2 ^ 31.
Hypothesis HA : 0 <= A < nx * ny * nz.

Let dd := on_rank nx ny nz A root.
Let p := getTriple (mkIndex3D nx ny nz) A.

Lemma extents_small : nx < 2 ^ 31 /\ ny < 2 ^ 31 /\ nz < 2 ^ 31.
Proof.
  assert (0 < nx * ny) by nia.
  assert (nx * ny * 1 <= nx * ny * nz) by (apply Z.mul_le_mono_nonneg_l; lia).
  assert (nx * 1 <= nx * ny) by (apply Z.mul_le_mono_nonneg_l; lia).
  assert (1 * ny <= nx * ny) by (apply Z.mul_le_mono_nonneg_r; lia).
  assert (0 < ny * nz) by nia.
  assert (1 * (ny * nz) <= nx * (ny * nz)) by (apply Z.mul_le_mono_nonneg_r; lia).
  assert (1 * nz <= ny * nz) by (apply Z.mul_le_mono_nonneg_r; lia).
  lia.
Qed.

Lemma position_in_grid :
  0 <= ux p < nx /\ 0 <= uy p < ny /\ 0 <= uz p < nz
  /\ (uz p * ny + uy p) * nx + ux p = A.
Proof. exact (getTriple_in_grid nx ny nz A Hx Hy Hz Hsize HA). Qed.

(** Position of the neighbour reached along the row [(ai, aj, ak)]. *)
Lemma neighbor_position (ai aj ak : Z) :
  -1 <= ai <= 1 -> -1 <= aj <= 1 -> -1 <= ak <= 1 ->
  let B := neighbor_by dd (ai, aj, ak) in
  getTriple (mkIndex3D nx ny nz) B
  = make_uint3 ((ux p + ai) mod nx) ((uy p + aj) mod ny) ((uz p + ak) mod nz)
  /\ B = ((uz p + ak) mod nz * ny + (uy p + aj) mod ny) * nx + (ux p + ai) mod nx.
Proof.
  intros Hai Haj Hak B.
  destruct (neighbor_by_torus nx ny nz A root ai aj ak Hx Hy Hz Hsize HA Hai Haj Hak)
    as (HT & HB & _).
  change (getTriple (mkIndex3D nx ny nz) B
          = make_uint3 ((ux p + ai) mod nx) ((uy p + aj) mod ny)
                       ((uz p + ak) mod nz)) in HT.
  split; [exact HT|].
  destruct (getTriple_in_grid nx ny nz B Hx Hy Hz Hsize HB) as (_ & _ & _ & E).
  cbv zeta in E; rewrite HT in E; cbn [ux uy uz] in E. now symmetry.
Qed.

(** [isAtBoundary] tests the coordinate on the axis of the direction
    against the end of the grid that the direction points to. *)
Lemma isAtBoundary_spec (d : Z) :
  0 <= d < 6 ->
  isAtBoundary dd d
  = (coord (d / 2) p =? (if Z.even d then extent (d / 2) dd - 1 else 0)).
Proof.
  intros Hd.
  destruct extents_small as (Sx & Sy & Sz).
  assert (Hcases : d = 0 \/ d = 1 \/ d = 2 \/ d = 3 \/ d = 4 \/ d = 5) by lia.
  unfold isAtBoundary, dd, on_rank; cbn [m_grid_pos m_nx m_ny m_nz].
  fold p.
  rewrite (u32_id (nx - 1)), (u32_id (ny - 1)), (u32_id (nz - 1)) by lia.
  destruct Hcases as [->|[->|[->|[->|[->| ->]]]]]; cbn;
    repeat rewrite orb_false_r; reflexivity.
Qed.

Lemma product_cancel (u v m : Z) : 0 < m -> u * m = v * m -> u = v.
Proof. intros Hm H; nia. Qed.

(** The neighbour in direction [d], seen on the axis of [d]. *)
Lemma neighbor_on_axis (d : Z) :
  0 <= d < 6 ->
  let B := getNeighborRank dd d in
  let q := getTriple (mkIndex3D nx ny nz) B in
  let k := d / 2 in
  coord k q = (coord k p + (if Z.even d then 1 else -1)) mod extent k dd
  /\ (forall k', 0 <= k' < 3 -> k' <> k -> coord k' q = coord k' p)
  /\ (B = A <-> coord k q = coord k p).
Proof.
  intros Hd B q k.
  destruct position_in_grid as (Px & Py & Pz & PA).
  assert (Hcases : d = 0 \/ d = 1 \/ d = 2 \/ d = 3 \/ d = 4 \/ d = 5) by lia.
  unfold k, q, B; rewrite getNeighborRank_by.
  destruct Hcases as [->|[->|[->|[->|[->| ->]]]]];
    match goal with
    | |- context [neighbor_by dd (adj ?j)] =>
        let a := eval vm_compute in (adj j) in change (adj j) with a
    end;
    match goal with
    | |- context [neighbor_by dd (?ai, ?aj, ?ak)] =>
        destruct (neighbor_position ai aj ak ltac:(lia) ltac:(lia) ltac:(lia))
          as (HT & HB)
    end;
    cbv zeta in HT, HB; rewrite HT, HB;
    rewrite ?mod_stay by assumption;
    unfold dd, on_rank; cbn [extent coord ux uy uz m_nx m_ny m_nz Z.eqb Z.div Z.even];
    change (1 / 2) with 0; change (2 / 2) with 1; change (3 / 2) with 1;
    change (4 / 2) with 2; change (5 / 2) with 2; change (0 / 2) with 0;
    cbn [extent coord ux uy uz m_nx m_ny m_nz Z.eqb Pos.eqb Z.even];
    (split; [reflexivity|]);
    (split;
     [intros k' Hk' Hne;
      assert (Hk : k' = 0 \/ k' = 1 \/ k' = 2) by lia;
      destruct Hk as [->|[->| ->]]; try lia; reflexivity|]);
    (split; intros HE; [rewrite <- PA in HE|rewrite HE; exact PA]).
  - lia.
  - lia.
  - assert (((uy p + 1) mod ny) * nx = uy p * nx) by lia.
    now apply (product_cancel _ _ nx).
  - assert (((uy p + -1) mod ny) * nx = uy p * nx) by lia.
    now apply (product_cancel _ _ nx).
  - assert (((uz p + 1) mod nz) * (ny * nx) = uz p * (ny * nx)) by lia.
    apply (product_cancel _ _ (ny * nx)); [nia|assumption].
  - assert (((uz p + -1) mod nz) * (ny * nx) = uz p * (ny * nx)) by lia.
    apply (product_cancel _ _ (ny * nx)); [nia|assumption].
Qed.

End Grid.

(** A rank is at the boundary in direction [d] exactly when its
    coordinate on the axis of [d] is the last one (positive directions)
    or the first one (negative directions).  Its neighbour in direction
    [d] then sits at the other end of the grid; otherwise the neighbour
    is one step further on that axis.  The other two coordinates are
    those of the rank.  A rank is its own neighbour, and at the boundary
    in both directions of an axis, exactly when the grid has extent one
    on that axis. *)
Theorem boundary_is_where_the_neighbor_wraps (nx ny nz A root d : Z) :
  0 < nx -> 0 < ny -> 0 < nz -> nx * ny * nz < 2 ^ 31 ->
  0 <= A < nx * ny * nz -> 0 <= d < 6 ->
  let dd := on_rank nx ny nz A root in
  let p := m_grid_pos dd in
  let B := getNeighborRank dd d in
  let q := getTriple (m_index dd) B in
  let k := d / 2 in
  let n := extent k dd in
  (isAtBoundary dd d = true <-> coord k p = (if Z.even d then n - 1 else 0))
  /\ coord k q
     = (if isAtBoundary dd d then (if Z.even d then 0 else n - 1)
        else (if Z.even d then coord k p + 1 else coord k p - 1))
  /\ (forall k', 0 <= k' < 3 -> k' <> k -> coord k' q = coord k' p)
  /\ (B = A <-> n = 1)
  /\ (isAtBoundary dd d = true /\ isAtBoundary dd (opposite d) = true <-> n = 1).
Proof.
  intros Hx Hy Hz Hsize HA Hd dd p B q k n.
  destruct (neighbor_on_axis nx ny nz A root Hx Hy Hz Hsize HA d Hd)
    as (Hq & Hother & Hself).
  fold dd in Hq, Hself. change (coord k q = (coord k p + (if Z.even d then 1 else -1)) mod n) in Hq.
  change (forall k', 0 <= k' < 3 -> k' <> k -> coord k' q = coord k' p) in Hother.
  change (B = A <-> coord k q = coord k p) in Hself.
  assert (Hc : 0 <= coord k p < n).
  { destruct (position_in_grid nx ny nz A Hx Hy Hz Hsize HA) as (Px & Py & Pz & _).
    assert (Hcases : d = 0 \/ d = 1 \/ d = 2 \/ d = 3 \/ d = 4 \/ d = 5) by lia.
    unfold k, n; destruct Hcases as [->|[->|[->|[->|[->| ->]]]]]; assumption. }
  assert (Hb : forall e, 0 <= e < 6 -> e / 2 = k ->
            isAtBoundary dd e = (coord k p =? (if Z.even e then n - 1 else 0))).
  { intros e He Hek; unfold n; rewrite <- Hek.
    exact (isAtBoundary_spec nx ny nz A root Hx Hy Hz Hsize e He). }
  assert (Hopp : 0 <= opposite d < 6 /\ opposite d / 2 = k
                 /\ Z.even (opposite d) = negb (Z.even d)).
  { assert (Hcases : d = 0 \/ d = 1 \/ d = 2 \/ d = 3 \/ d = 4 \/ d = 5) by lia.
    unfold k; destruct Hcases as [->|[->|[->|[->|[->| ->]]]]];
      vm_compute; repeat split; congruence. }
  destruct Hopp as (Ho & Hok & Hoe).
  rewrite (Hb (opposite d) Ho Hok), Hoe, (Hb d Hd eq_refl).
  rewrite Hself, Hq.
  destruct (Z.even d); cbn [negb].
  - rewrite mod_step_up by assumption.
    destruct (Z.eqb_spec (coord k p) (n - 1)) as [E|E];
      destruct (Z.eqb_spec (coord k p) 0) as [E0|E0];
      repeat split; try intros; try lia; try discriminate; auto;
      try (destruct H; discriminate).
  - rewrite mod_step_down by assumption.
    destruct (Z.eqb_spec (coord k p) (n - 1)) as [E|E];
      destruct (Z.eqb_spec (coord k p) 0) as [E0|E0];
      repeat split; try intros; try lia; try discriminate; auto;
      try (destruct H; discriminate).
Qed.

Lemma boundary_is_where_the_neighbor_wraps_witness :
  getNeighborRank (on_rank 3 2 2 2 0) 0 = 2 <-> extent (0 / 2) (on_rank 3 2 2 2 0) = 1.
Proof.
  exact (proj1 (proj2 (proj2 (proj2
    (boundary_is_where_the_neighbor_wraps 3 2 2 2 0 0
       ltac:(lia) ltac:(lia) ltac:(lia) ltac:(lia) ltac:(lia) ltac:(lia)))))).
Defined.

End BoundaryFacts.

(** ** DomainDecomposition: the local boxes tile the global box *)

Module LocalBoxFacts.

Import Uint UintFacts DomainDecomposition NeighborFacts BoundaryFacts.

Definition box_lo (b : Scalar3 * Scalar3 * (bool * bool * bool)) : Scalar3 :=
  fst (fst b).
Definition box_hi (b : Scalar3 * Scalar3 * (bool * bool * bool)) : Scalar3 :=
  snd (fst b).
Definition box_periodic (b : Scalar3 * Scalar3 * (bool * bool * bool))
  : bool * bool * bool := snd b.

(** The box of the rank at coordinate [c] on an axis of extent [n]
    starts [c] slices above the global lower bound. *)
Lemma calculateLocalBox_axis (dd : t) (L lo_g : Scalar3) (k : Z) :
  let b := calculateLocalBox dd L lo_g in
  let w := (comp k L / inject_Z (extent k dd))%Q in
  comp k (box_lo b)
  = (comp k lo_g + inject_Z (coord k (m_grid_pos dd)) * w)%Q
  /\ comp k (box_hi b) = (comp k (box_lo b) + w)%Q
  /\ flag k (box_periodic b) = (extent k dd =? 1).
Proof.
  unfold calculateLocalBox, comp, coord, extent, flag, box_lo, box_hi, box_periodic.
  cbn [fst snd Lx Ly Lz].
  destruct (k =? 0); [|destruct (k =? 1)]; repeat split; reflexivity.
Qed.

Lemma inject_Z_nonzero (n : Z) : 0 < n -> ~ (inject_Z n == 0)%Q.
Proof. intros Hn H; unfold Qeq in H; cbn in H; lia. Qed.

Lemma slice_times_extent (l : Q) (n : Z) :
  0 < n -> (l / inject_Z n * inject_Z n == l)%Q.
Proof.
  intros Hn. field. now apply inject_Z_nonzero.
Qed.

Lemma slices_up_to_extent (l : Q) (n : Z) :
  0 < n -> (inject_Z (n - 1) * (l / inject_Z n) + l / inject_Z n == l)%Q.
Proof.
  intros Hn. replace (n - 1) with (n + -1) by lia. rewrite inject_Z_plus.
  change (inject_Z (-1)) with (- (1))%Q.
  field. now apply inject_Z_nonzero.
Qed.



End LocalBoxFacts.

(** ** IntegratorHPMCMonoGPU::update: the launches and what they write *)

Module UpdateTraceFacts.

Import Uint UintFacts IntegratorHPMCMonoGPU.

(** The arrays of the device memory; the free energy accumulator counts
    as one array per depletant index. *)
Inductive array : Type :=
| A_pdata | A_trial | A_reject_out_of_cell | A_reject | A_reject_out
| A_condition | A_n_depletants | A_deltaF_int (k : Z) | A_req_len
| A_counters | A_update_order.

(** How a depletant index is sampled. *)
Inductive mode : Type := NoDepletants | Direct | Auxiliary.

(** Launches that start, commit or finish a sweep. *)
Definition marker (l : launch) : bool :=
  match l with
  | GenMoves _ | UpdatePdata | Shift => true
  | _ => false
  end.

Section Trace.

Context {ParticleData Trial Depletants Counters : Type}.

Local Abbreviation Mem := (mem ParticleData Trial Depletants Counters).
Local Abbreviation State := (state ParticleData Trial Depletants Counters).

Variable K : kernels ParticleData Trial Depletants Counters.
Variable cfg : config.
Variable timestep : Z.

Definition same (a : array) (m m' : Mem) : Prop :=
  match a with
  | A_pdata => pdata m' = pdata m
  | A_trial => trial m' = trial m
  | A_reject_out_of_cell => m_reject_out_of_cell m' = m_reject_out_of_cell m
  | A_reject => m_reject m' = m_reject m
  | A_reject_out => m_reject_out m' = m_reject_out m
  | A_condition => m_condition m' = m_condition m
  | A_n_depletants => m_n_depletants m' = m_n_depletants m
  | A_deltaF_int k => m_deltaF_int m' k = m_deltaF_int m k
  | A_req_len => m_req_len m' = m_req_len m
  | A_counters => counters m' = counters m
  | A_update_order => m_update_order m' = m_update_order m
  end.

(** The arrays a launch is handed for writing. *)
Definition written (l : launch) (a : array) : bool :=
  match l, a with
  | GenMoves _, (A_trial | A_reject_out_of_cell) => true
  | ResetDeltaF itype jtype, A_deltaF_int k => k =? m_depletant_idx cfg itype jtype
  | NarrowPhase, (A_reject_out | A_counters) => true
  | GenerateNumDepletants _ _, A_n_depletants => true
  | InsertDepletants _ _, (A_reject_out | A_counters) => true
  | GenerateNumDepletantsNtrial _ _, A_n_depletants => true
  | DepletantsPhase1 itype jtype, A_deltaF_int k => k =? m_depletant_idx cfg itype jtype
  | DepletantsPhase1 _ _, (A_req_len | A_counters) => true
  | DepletantsPhase2 itype jtype, A_deltaF_int k => k =? m_depletant_idx cfg itype jtype
  | DepletantsPhase2 _ _, (A_req_len | A_counters) => true
  | DepletantsAccept, A_reject_out => true
  | PatchEnergy, A_reject_out => true
  | CheckConvergence, (A_reject | A_reject_out | A_condition) => true
  | SwapReject _, (A_reject | A_reject_out) => true
  | UpdatePdata, (A_pdata | A_counters) => true
  | Shift, A_pdata => true
  | _, _ => false
  end.

Definition mode_of (k : Z) : mode :=
  if scalar_is_zero (m_fugacity cfg k) then NoDepletants
  else if m_ntrial cfg k =? 0 then Direct else Auxiliary.

Definition pair_mode (itype jtype : Z) : mode :=
  mode_of (m_depletant_idx cfg itype jtype).

Definition type_pair (itype jtype : Z) : Prop :=
  0 <= itype <= jtype /\ jtype < NTypes cfg.

(** What the configuration lets [update] launch. *)
Definition permitted (l : launch) : Prop :=
  match l with
  | GenMoves i => 0 <= i < m_nselect cfg
  | ResetDeltaF itype jtype
  | GenerateNumDepletantsNtrial itype jtype
  | DepletantsPhase1 itype jtype
  | DepletantsPhase2 itype jtype =>
      type_pair itype jtype /\ pair_mode itype jtype = Auxiliary
  | GenerateNumDepletants itype jtype
  | InsertDepletants itype jtype =>
      type_pair itype jtype /\ pair_mode itype jtype = Direct
  | DepletantsAccept =>
      exists itype jtype, type_pair itype jtype /\ pair_mode itype jtype = Auxiliary
  | PatchEnergy => patch_enabled cfg = true
  | NarrowPhase | CheckConvergence | SwapReject _ | UpdatePdata | Shift => True
  end.

(** The launches inside the convergence loop. *)
Definition inner (l : launch) : Prop := permitted l /\ marker l = false.

(** [s'] is reached from [s] by launches that are all [allowed]; the
    scratch length has not shrunk; and an array that neither the host
    code ([host]) nor one of these launches writes is as it was. *)
Definition within (allowed : launch -> Prop) (host : array -> bool)
    (s s' : State) : Prop :=
  m_max_len s <= m_max_len s'
  /\ exists new,
       issued s' = new ++ issued s
       /\ Forall allowed new
       /\ forall a, host a = false ->
                    Forall (fun l => written l a = false) new ->
                    same a (dev s) (dev s').

Lemma same_refl (a : array) (m : Mem) : same a m m.
Proof. destruct a; reflexivity. Qed.

Lemma same_trans (a : array) (m1 m2 m3 : Mem) :
  same a m1 m2 -> same a m2 m3 -> same a m1 m3.
Proof. destruct a; cbn; congruence. Qed.

Lemma type_pairs_spec (itype jtype : Z) :
  In (itype, jtype) (type_pairs cfg) <-> type_pair itype jtype.
Proof.
  unfold type_pairs, type_pair; rewrite in_flat_map; split.
  - intros (it & Hit & Hin). apply in_map_iff in Hin.
    destruct Hin as (d & Heq & Hd). apply in_seq in Hit, Hd.
    injection Heq as <- <-. lia.
  - intros H. exists (Z.to_nat itype); split; [apply in_seq; lia|].
    apply in_map_iff. exists (Z.to_nat (jtype - itype)); split.
    + f_equal; lia.
    + apply in_seq; lia.
Qed.

Lemma mode_direct (itype jtype : Z) :
  scalar_is_zero (m_fugacity cfg (m_depletant_idx cfg itype jtype)) = false ->
  (m_ntrial cfg (m_depletant_idx cfg itype jtype) =? 0) = true ->
  pair_mode itype jtype = Direct.
Proof. intros Hz Hn; unfold pair_mode, mode_of; now rewrite Hz, Hn. Qed.

Lemma mode_auxiliary (itype jtype : Z) :
  scalar_is_zero (m_fugacity cfg (m_depletant_idx cfg itype jtype)) = false ->
  (m_ntrial cfg (m_depletant_idx cfg itype jtype) =? 0) = false ->
  pair_mode itype jtype = Auxiliary.
Proof. intros Hz Hn; unfold pair_mode, mode_of; now rewrite Hz, Hn. Qed.

(** *** The scan of the depletant parameters *)

Definition is_depletant (p : Z * Z) : bool :=
  negb (scalar_is_zero (m_fugacity cfg (m_depletant_idx cfg (fst p) (snd p)))).

Definition is_auxiliary (p : Z * Z) : bool :=
  is_depletant p && negb (m_ntrial cfg (m_depletant_idx cfg (fst p) (snd p)) =? 0).

(** Trial insertions per depletant, summed over the pairs sampled with
    auxiliary variables. *)
Definition total_ntrial (l : list (Z * Z)) : Z :=
  fold_right
    (fun p acc =>
       if is_auxiliary p
       then m_ntrial cfg (m_depletant_idx cfg (fst p) (snd p)) + acc
       else acc)
    0 l.

Lemma total_ntrial_none (l : list (Z * Z)) :
  existsb is_auxiliary l = false -> total_ntrial l = 0.
Proof.
  induction l as [|p l IH]; [reflexivity|]; cbn [existsb total_ntrial fold_right].
  intros H; apply orb_false_iff in H; destruct H as [Hp Hl].
  rewrite Hp. exact (IH Hl).
Qed.

Lemma scan_fold (l : list (Z * Z)) (d x : bool) (c : Z) :
  fold_left
    (fun '(have_depletants, have_aux, ntrial_tot) '(itype, jtype) =>
       let k := m_depletant_idx cfg itype jtype in
       if scalar_is_zero (m_fugacity cfg k)
       then (have_depletants, have_aux, ntrial_tot)
       else
         let ntrial := m_ntrial cfg k in
         if ntrial =? 0 then (true, have_aux, ntrial_tot)
         else (true, true, u32 (ntrial_tot + ntrial)))
    l (d, x, c)
  = (d || existsb is_depletant l, x || existsb is_auxiliary l,
     if existsb is_auxiliary l then u32 (c + total_ntrial l) else c).
Proof.
  revert d x c; induction l as [|[itype jtype] l IH]; intros d x c.
  - cbn. now rewrite !orb_false_r.
  - cbn [fold_left existsb total_ntrial fold_right].
    fold (total_ntrial l).
    assert (Hd : is_depletant (itype, jtype)
                 = negb (scalar_is_zero
                           (m_fugacity cfg (m_depletant_idx cfg itype jtype))))
      by reflexivity.
    assert (Ha : is_auxiliary (itype, jtype)
                 = negb (scalar_is_zero
                           (m_fugacity cfg (m_depletant_idx cfg itype jtype)))
                   && negb (m_ntrial cfg (m_depletant_idx cfg itype jtype) =? 0))
      by reflexivity.
    rewrite Ha, Hd; cbn [fst snd]; cbv zeta.
    destruct (scalar_is_zero _) eqn:Hz; cbn [negb andb orb].
    + rewrite IH. reflexivity.
    + destruct (_ =? 0) eqn:Hn; cbn [negb andb orb].
      * rewrite IH, orb_true_r. reflexivity.
      * rewrite IH, !orb_true_r. f_equal.
        destruct (existsb is_auxiliary l) eqn:Hl.
        -- unfold u32. rewrite Zplus_mod_idemp_l. f_equal. lia.
        -- rewrite (total_ntrial_none l Hl). f_equal. lia.
Qed.

Lemma scan_depletants_fold :
  scan_depletants cfg
  = (existsb is_depletant (type_pairs cfg),
     existsb is_auxiliary (type_pairs cfg),
     u32 (total_ntrial (type_pairs cfg))).
Proof.
  unfold scan_depletants. rewrite scan_fold. cbn [orb]. f_equal.
  destruct (existsb is_auxiliary _) eqn:H; [reflexivity|].
  now rewrite (total_ntrial_none _ H).
Qed.

Lemma is_auxiliary_mode (itype jtype : Z) :
  is_auxiliary (itype, jtype) = true <-> pair_mode itype jtype = Auxiliary.
Proof.
  unfold is_auxiliary, is_depletant, pair_mode, mode_of; cbn [fst snd].
  destruct (scalar_is_zero _); [cbn; split; discriminate|].
  destruct (_ =? 0); cbn; split; congruence.
Qed.

Lemma is_depletant_mode (itype jtype : Z) :
  is_depletant (itype, jtype) = true <-> pair_mode itype jtype <> NoDepletants.
Proof.
  unfold is_depletant, pair_mode, mode_of; cbn [fst snd].
  destruct (scalar_is_zero _); [cbn; split; [discriminate|congruence]|].
  destruct (_ =? 0); cbn; split; congruence.
Qed.

Lemma auxiliary_somewhere :
  have_depletants cfg && have_auxilliary_variables cfg = true ->
  exists itype jtype, type_pair itype jtype /\ pair_mode itype jtype = Auxiliary.
Proof.
  unfold have_depletants, have_auxilliary_variables.
  rewrite scan_depletants_fold; cbn [fst snd].
  intros H; apply andb_true_iff in H; destruct H as [_ H].
  apply existsb_exists in H; destruct H as ([itype jtype] & Hin & Haux).
  exists itype, jtype; split; [now apply type_pairs_spec|now apply is_auxiliary_mode].
Qed.

(** *** Runs as sequences of launches *)

Section Level.

Variable allowed : launch -> Prop.
Variable host : array -> bool.

Local Abbreviation R := (within allowed host).

Lemma within_refl (s : State) : R s s.
Proof.
  split; [lia|]. exists []; split; [reflexivity|]. split; [constructor|].
  intros a _ _; apply same_refl.
Qed.

Lemma within_trans (s1 s2 s3 : State) : R s1 s2 -> R s2 s3 -> R s1 s3.
Proof.
  intros (Hm1 & n1 & Hi1 & Hf1 & Hs1) (Hm2 & n2 & Hi2 & Hf2 & Hs2).
  split; [lia|]. exists (n2 ++ n1); split; [rewrite Hi2, Hi1; apply app_assoc|].
  split; [apply Forall_app; now split|].
  intros a Hh Hw; apply Forall_app in Hw; destruct Hw as [Hw2 Hw1].
  apply (same_trans a _ (dev s2)); auto.
Qed.

Lemma within_launch (l : launch) (f : Mem -> Mem) (s : State) :
  allowed l ->
  (forall a, host a = false -> written l a = false -> same a (dev s) (f (dev s))) ->
  R s (log l (on_dev f s)).
Proof.
  intros Hl Hf; split; [cbn; lia|]. exists [l]; split; [reflexivity|].
  split; [now constructor|].
  intros a Hh Hw; apply Hf; [exact Hh|]. now inversion Hw.
Qed.

Lemma within_host (f : Mem -> Mem) (s : State) :
  (forall a, host a = false -> same a (dev s) (f (dev s))) ->
  R s (on_dev f s).
Proof.
  intros Hf; split; [cbn; lia|]. exists []; split; [reflexivity|].
  split; [constructor|]. intros a Hh _; now apply Hf.
Qed.

Lemma within_grow (v : Z) (s : State) : m_max_len s <= v -> R s (set_max_len v s).
Proof.
  intros Hv; split; [exact Hv|]. exists []; split; [reflexivity|].
  split; [constructor|]. intros a _ _; apply same_refl.
Qed.

Lemma within_fold {A : Type} (f : State -> A -> State) (l : list A) :
  (forall s a, In a l -> R s (f s a)) ->
  forall s, R s (fold_left f l s).
Proof.
  induction l as [|a l IH]; intros Hf s; [apply within_refl|].
  cbn [fold_left]; eapply within_trans; [apply Hf; now left|].
  apply IH; intros s' a' Ha'; apply Hf; now right.
Qed.

Hypothesis allow_inner : forall l, inner l -> allowed l.
Hypothesis host_condition : host A_condition = true.

Lemma allow_auxiliary (l : launch) (itype jtype : Z) :
  In (itype, jtype) (type_pairs cfg) ->
  scalar_is_zero (m_fugacity cfg (m_depletant_idx cfg itype jtype)) = false ->
  (m_ntrial cfg (m_depletant_idx cfg itype jtype) =? 0) = false ->
  l = ResetDeltaF itype jtype \/ l = GenerateNumDepletantsNtrial itype jtype
  \/ l = DepletantsPhase1 itype jtype \/ l = DepletantsPhase2 itype jtype ->
  allowed l.
Proof.
  intros Hin Hz Hn Hl; apply allow_inner.
  assert (Hp : type_pair itype jtype /\ pair_mode itype jtype = Auxiliary).
  { split; [now apply type_pairs_spec|now apply mode_auxiliary]. }
  destruct Hl as [->|[->|[->| ->]]]; split; (exact Hp || reflexivity).
Qed.

Lemma allow_direct (l : launch) (itype jtype : Z) :
  In (itype, jtype) (type_pairs cfg) ->
  scalar_is_zero (m_fugacity cfg (m_depletant_idx cfg itype jtype)) = false ->
  (m_ntrial cfg (m_depletant_idx cfg itype jtype) =? 0) = true ->
  l = GenerateNumDepletants itype jtype \/ l = InsertDepletants itype jtype ->
  allowed l.
Proof.
  intros Hin Hz Hn Hl; apply allow_inner.
  assert (Hp : type_pair itype jtype /\ pair_mode itype jtype = Direct).
  { split; [now apply type_pairs_spec|now apply mode_direct]. }
  destruct Hl as [->| ->]; split; (exact Hp || reflexivity).
Qed.

Ltac frame :=
  let Hh := fresh "Hh" in
  let Hw := fresh "Hw" in
  intros [| | | | | | |?k| | |] Hh Hw; cbn in Hw |- *;
  try discriminate; try reflexivity;
  try (unfold set_slice; now rewrite Hw).

Lemma within_reset_deltaF (s : State) : R s (reset_deltaF cfg s).
Proof.
  unfold reset_deltaF; apply within_fold.
  intros s' [itype jtype] Hin.
  destruct (scalar_is_zero _) eqn:Hz; [apply within_refl|].
  destruct (_ =? 0) eqn:Hn; cbn [negb]; [apply within_refl|].
  apply within_launch; [|frame].
  apply (allow_auxiliary _ itype jtype); auto.
Qed.

Lemma within_narrow_phase (i : Z) (s : State) :
  R s (launch_narrow_phase K cfg timestep i s).
Proof.
  unfold launch_narrow_phase; destruct (hpmc_narrow_phase _ _ _ _ _) as [r c].
  apply within_launch; [|frame]. apply allow_inner; split; exact I || reflexivity.
Qed.

Lemma within_insert_pair (i : Z) (acc : State * Z) (p : Z * Z) :
  In p (type_pairs cfg) ->
  R (fst acc) (fst (insert_pair K cfg timestep i acc p)).
Proof.
  destruct acc as [s off], p as [itype jtype]; intros Hin.
  unfold insert_pair; cbn [fst].
  destruct (scalar_is_zero _) eqn:Hz; [apply within_refl|].
  destruct (m_ntrial cfg _ =? 0) eqn:Hn.
  - destruct (hpmc_insert_depletants _ _ _ _ _ _ _) as [r c]; cbn [fst].
    eapply within_trans;
      [|apply within_launch; [apply (allow_direct _ itype jtype); auto|frame]].
    apply within_launch; [apply (allow_direct _ itype jtype); auto|frame].
  - destruct (hpmc_depletants_auxilliary_phase2 _ _ _ _ _ _ _ _ _)
      as [[sl2 rq2] c2].
    cbn [fst].
    eapply within_trans;
      [|apply within_launch; [apply (allow_auxiliary _ itype jtype); auto|frame]].
    destruct (hpmc_depletants_auxilliary_phase1 _ _ _ _ _ _ _ _ _)
      as [[sl1 rq1] c1].
    eapply within_trans;
      [|apply within_launch; [apply (allow_auxiliary _ itype jtype); auto|frame]].
    apply within_launch; [apply (allow_auxiliary _ itype jtype); auto|frame].
Qed.

Lemma within_insert_pairs (i : Z) (l : list (Z * Z)) (acc : State * Z) :
  incl l (type_pairs cfg) ->
  R (fst acc) (fst (fold_left (insert_pair K cfg timestep i) l acc)).
Proof.
  revert acc; induction l as [|p l IH]; intros acc Hl; [apply within_refl|].
  cbn [fold_left].
  eapply within_trans; [apply within_insert_pair; apply Hl; now left|].
  apply IH; intros q Hq; apply Hl; now right.
Qed.

Lemma within_pass (i : Z) (s : State) :
  R s (insert_depletants K cfg timestep i
         (launch_narrow_phase K cfg timestep i (reset_deltaF cfg s))).
Proof.
  eapply within_trans; [apply within_reset_deltaF|].
  eapply within_trans; [apply within_narrow_phase|].
  exact (within_insert_pairs i (type_pairs cfg) (_, 0) (incl_refl _)).
Qed.

Lemma within_reallocate_loop (fuel : nat) (i : Z) (s : State) :
  R s (state_of (reallocate_loop K cfg timestep fuel i s)).
Proof.
  revert s; induction fuel as [|fuel IH]; intros s; [apply within_refl|].
  cbn [reallocate_loop].
  pose proof (within_pass i s) as H3.
  set (s3 := insert_depletants K cfg timestep i
               (launch_narrow_phase K cfg timestep i (reset_deltaF cfg s))) in *.
  destruct (Z.ltb_spec (m_max_len s3) (m_req_len (dev s3))) as [Hlt|Hge];
    [|exact H3].
  apply (within_trans s s3); [exact H3|].
  apply (within_trans s3 (set_max_len (m_req_len (dev s3)) s3));
    [apply within_grow; lia|apply IH].
Qed.

Lemma within_depletants_accept (i : Z) (s : State) :
  have_depletants cfg && have_auxilliary_variables cfg = true ->
  R s (launch_depletants_accept K cfg timestep i s).
Proof.
  intros H; unfold launch_depletants_accept; apply within_launch; [|frame].
  apply allow_inner; split; [|reflexivity].
  exact (auxiliary_somewhere H).
Qed.

Lemma within_patch (i : Z) (s : State) :
  patch_enabled cfg = true -> R s (launch_patch K cfg timestep i s).
Proof.
  intros H; unfold launch_patch; apply within_launch; [|frame].
  apply allow_inner; split; [exact H|reflexivity].
Qed.

Lemma within_check_convergence (s : State) :
  R s (launch_check_convergence K cfg s).
Proof.
  unfold launch_check_convergence.
  destruct (hpmc_check_convergence _ _ _) as [[rj rjo] cd].
  apply within_launch; [|frame]. apply allow_inner; split; exact I || reflexivity.
Qed.

Lemma within_swap_reject (s : State) : R s (swap_reject s).
Proof.
  unfold swap_reject; cbv zeta; apply within_launch; [|frame].
  apply allow_inner; split; exact I || reflexivity.
Qed.

Lemma within_set_condition (s : State) : R s (on_dev (set_condition 0) s).
Proof.
  apply within_host; intros [| | | | | | |k| | |] Hh;
    try reflexivity; congruence.
Qed.

Lemma within_converge (fuel : nat) (i : Z) (s : State) :
  R s (state_of (converge K cfg timestep fuel i s)).
Proof.
  revert s; induction fuel as [|fuel IH]; intros s; [apply within_refl|].
  cbn [converge].
  pose proof (within_reallocate_loop (S fuel) i (on_dev (set_condition 0) s)) as H1.
  pose proof (within_set_condition s) as H0.
  destruct (reallocate_loop K cfg timestep (S fuel) i _) as [s1|s1|s1];
    cbn [state_of] in *; try (eapply within_trans; eassumption).
  assert (H01 : R s s1) by (eapply within_trans; eassumption).
  set (finish := fun s2 : State =>
         swap_reject
           (launch_check_convergence K cfg
              (if patch_enabled cfg then launch_patch K cfg timestep i s2 else s2))).
  assert (Hfinish : forall s2, R s2 (finish s2)).
  { intros s2; unfold finish.
    eapply within_trans; [|apply within_swap_reject].
    eapply within_trans; [|apply within_check_convergence].
    destruct (patch_enabled cfg) eqn:Hp; [now apply within_patch|apply within_refl]. }
  assert (Hrest : forall s2, R s s2 ->
            R s (state_of (if m_condition (dev (finish s2)) =? 0
                           then Finished (finish s2)
                           else converge K cfg timestep fuel i (finish s2)))).
  { intros s2 H2.
    assert (R s (finish s2)) by (eapply within_trans; [exact H2|apply Hfinish]).
    destruct (_ =? 0); [assumption|].
    eapply within_trans; [eassumption|apply IH]. }
  destruct (have_depletants cfg && have_auxilliary_variables cfg) eqn:Hd.
  - destruct (Z.ltb_spec (m_max_len s1) (m_req_len (dev s1))) as [Hlt|Hge].
    + apply (within_trans s s1); [exact H01|].
      apply (within_trans s1 (set_max_len (m_req_len (dev s1)) s1));
        [apply within_grow; lia|apply IH].
    + apply Hrest. eapply within_trans; [exact H01|].
      now apply within_depletants_accept.
  - now apply Hrest.
Qed.

Hypothesis allow_gen_moves : forall i, 0 <= i < m_nselect cfg -> allowed (GenMoves i).
Hypothesis allow_update_pdata : allowed UpdatePdata.
Hypothesis host_reject : host A_reject = true.
Hypothesis host_reject_out : host A_reject_out = true.

Lemma within_sweep (fuel : nat) (i : Z) (s : State) :
  0 <= i < m_nselect cfg ->
  R s (state_of (sweep K cfg timestep fuel i s)).
Proof.
  intros Hi; unfold sweep.
  assert (H0 : R s (init_reject cfg (launch_gen_moves K cfg timestep i s))).
  { apply (within_trans s (launch_gen_moves K cfg timestep i s)).
    - unfold launch_gen_moves.
      destruct (hpmc_gen_moves _ _ _ _ _) as [tr ooc].
      apply within_launch; [now apply allow_gen_moves|frame].
    - apply within_host; intros [| | | | | | |k| | |] Hh;
        try reflexivity; congruence. }
  pose proof (within_converge fuel i
                (init_reject cfg (launch_gen_moves K cfg timestep i s))) as H1.
  destruct (converge _ _ _ _ _ _) as [s1|s1|s1]; cbn [state_of] in *;
    try (eapply within_trans; eassumption).
  eapply within_trans; [eapply within_trans; eassumption|].
  unfold launch_update_pdata; destruct (hpmc_update_pdata _ _) as [p c].
  apply within_launch; [exact allow_update_pdata|frame].
Qed.

Lemma within_sweeps (fuel : nat) (todo : list nat) (s : State) :
  Forall (fun i => Z.of_nat i < m_nselect cfg) todo ->
  R s (state_of (sweeps K cfg timestep fuel todo s)).
Proof.
  revert s; induction todo as [|i todo IH]; intros s Htodo; [apply within_refl|].
  cbn [sweeps]. inversion Htodo as [|? ? Hi Hrest]; subst.
  pose proof (within_sweep fuel (Z.of_nat i) s ltac:(lia)) as H1.
  destruct (sweep _ _ _ _ _ _) as [s1|s1|s1]; cbn [state_of] in *; trivial.
  eapply within_trans; [exact H1|now apply IH].
Qed.

Lemma sweeps_in_range :
  Forall (fun i => Z.of_nat i < m_nselect cfg) (seq 0 (Z.to_nat (m_nselect cfg))).
Proof. apply Forall_forall; intros i Hi; apply in_seq in Hi; lia. Qed.

End Level.

(** *** The levels of [update] *)

Definition host_of_loop (a : array) : bool :=
  match a with A_condition => true | _ => false end.

Definition host_of_sweep (a : array) : bool :=
  match a with A_condition | A_reject | A_reject_out => true | _ => false end.

Definition host_of_update (a : array) : bool :=
  match a with
  | A_condition | A_reject | A_reject_out | A_update_order => true
  | _ => false
  end.

Definition not_shift (l : launch) : Prop := permitted l /\ l <> Shift.

Lemma converge_inner (fuel : nat) (i : Z) (s : State) :
  within inner host_of_loop s (state_of (converge K cfg timestep fuel i s)).
Proof. apply within_converge; [auto|reflexivity]. Qed.

Lemma sweeps_not_shift (fuel : nat) (s : State) :
  within not_shift host_of_sweep s
    (state_of (sweeps K cfg timestep fuel (seq 0 (Z.to_nat (m_nselect cfg))) s)).
Proof.
  apply within_sweeps;
    [intros l [Hp Hm]; split; [exact Hp|]; intros ->; discriminate
    |reflexivity
    |intros i Hi; split; [exact Hi|discriminate]
    |split; [exact I|discriminate]
    |reflexivity|reflexivity|apply sweeps_in_range].
Qed.

Lemma inner_preserves (a : array) (new : list launch) :
  a = A_pdata \/ a = A_trial \/ a = A_reject_out_of_cell \/ a = A_update_order ->
  Forall inner new -> Forall (fun l => written l a = false) new.
Proof.
  intros Ha; apply Forall_impl; intros l [_ Hm].
  destruct Ha as [->|[->|[->| ->]]]; destruct l; try reflexivity; discriminate.
Qed.

Lemma order_never_written (new : list launch) :
  Forall (fun l => written l A_update_order = false) new.
Proof. apply Forall_forall; intros l _; now destruct l. Qed.

(** *** The shared memory checks *)

Lemma reallocate_loop_fits (fuel : nat) (i : Z) (s s1 : State) :
  reallocate_loop K cfg timestep fuel i s = Finished s1 ->
  m_req_len (dev s1) <= m_max_len s1.
Proof.
  revert s; induction fuel as [|fuel IH]; intros s; [discriminate|].
  cbn [reallocate_loop].
  set (s3 := insert_depletants K cfg timestep i
               (launch_narrow_phase K cfg timestep i (reset_deltaF cfg s))).
  destruct (Z.ltb_spec (m_max_len s3) (m_req_len (dev s3))) as [Hlt|Hge].
  - apply IH.
  - intros H; injection H as <-. exact Hge.
Qed.

(** The tail of one pass of the convergence loop, after the kernels
    have run with enough scratch memory. *)
Definition finish_pass (i : Z) (s1 : State) : State :=
  let s2 := if have_depletants cfg && have_auxilliary_variables cfg
            then launch_depletants_accept K cfg timestep i s1 else s1 in
  let s3 := if patch_enabled cfg then launch_patch K cfg timestep i s2 else s2 in
  swap_reject (launch_check_convergence K cfg s3).

Lemma finish_pass_lengths (i : Z) (s1 : State) :
  m_req_len (dev (finish_pass i s1)) = m_req_len (dev s1)
  /\ m_max_len (finish_pass i s1) = m_max_len s1.
Proof.
  unfold finish_pass, swap_reject, launch_check_convergence, launch_patch,
    launch_depletants_accept; cbv zeta.
  destruct (hpmc_check_convergence _ _ _) as [[rj rjo] cd].
  destruct (have_depletants cfg && have_auxilliary_variables cfg),
    (patch_enabled cfg); split; reflexivity.
Qed.

Lemma converge_pass_equation (fuel : nat) (i : Z) (s : State) :
  converge K cfg timestep (S fuel) i s
  = match reallocate_loop K cfg timestep (S fuel) i (on_dev (set_condition 0) s) with
    | Finished s1 =>
        if m_condition (dev (finish_pass i s1)) =? 0
        then Finished (finish_pass i s1)
        else converge K cfg timestep fuel i (finish_pass i s1)
    | r => r
    end.
Proof.
  cbn [converge].
  destruct (reallocate_loop K cfg timestep (S fuel) i _) as [s1|s1|s1] eqn:Hr;
    try reflexivity.
  pose proof (reallocate_loop_fits _ _ _ _ Hr) as Hfit.
  unfold finish_pass.
  destruct (have_depletants cfg && have_auxilliary_variables cfg); [|reflexivity].
  destruct (Z.ltb_spec (m_max_len s1) (m_req_len (dev s1))); [lia|reflexivity].
Qed.

Lemma converge_exit (fuel : nat) (i : Z) (s s' : State) :
  converge K cfg timestep fuel i s = Finished s' ->
  m_condition (dev s') = 0 /\ m_req_len (dev s') <= m_max_len s'.
Proof.
  revert s; induction fuel as [|fuel IH]; intros s; [discriminate|].
  rewrite converge_pass_equation.
  destruct (reallocate_loop K cfg timestep (S fuel) i _) as [s1|s1|s1] eqn:Hr;
    try discriminate.
  pose proof (reallocate_loop_fits _ _ _ _ Hr) as Hfit.
  destruct (finish_pass_lengths i s1) as [Hq Hm].
  destruct (Z.eqb_spec (m_condition (dev (finish_pass i s1))) 0) as [Hc|Hc].
  - intros H; injection H as <-. split; [exact Hc|lia].
  - apply IH.
Qed.

(** *** The sweeps of one step *)

(** The markers among the launches issued from [s] to [s']. *)
Definition markers_since (s s' : State) (ms : list launch) : Prop :=
  exists new, issued s' = new ++ issued s /\ filter marker new = ms.

Lemma markers_trans (s1 s2 s3 : State) (m1 m2 : list launch) :
  markers_since s1 s2 m1 -> markers_since s2 s3 m2 ->
  markers_since s1 s3 (m2 ++ m1).
Proof.
  intros (n1 & Hi1 & Hf1) (n2 & Hi2 & Hf2).
  exists (n2 ++ n1); split; [rewrite Hi2, Hi1; apply app_assoc|].
  now rewrite filter_app, Hf1, Hf2.
Qed.

Lemma converge_no_markers (fuel : nat) (i : Z) (s : State) :
  markers_since s (state_of (converge K cfg timestep fuel i s)) [].
Proof.
  destruct (converge_inner fuel i s) as (_ & new & Hi & Hf & _).
  exists new; split; [exact Hi|]. clear Hi.
  induction Hf as [|l new [_ Hm] _ IH]; [reflexivity|].
  cbn [filter]; now rewrite Hm.
Qed.

Lemma sweep_markers (fuel : nat) (i : Z) (s s' : State) :
  sweep K cfg timestep fuel i s = Finished s' ->
  markers_since s s' [UpdatePdata; GenMoves i].
Proof.
  unfold sweep.
  pose proof (converge_no_markers fuel i
                (init_reject cfg (launch_gen_moves K cfg timestep i s))) as H1.
  destruct (converge _ _ _ _ _ _) as [s1|s1|s1]; try discriminate.
  cbn [state_of] in H1. intros H; injection H as <-.
  assert (H0 : markers_since s (init_reject cfg (launch_gen_moves K cfg timestep i s))
                 [GenMoves i]).
  { unfold launch_gen_moves; destruct (hpmc_gen_moves _ _ _ _ _) as [tr ooc].
    exists [GenMoves i]; split; reflexivity. }
  assert (H2 : markers_since s1 (launch_update_pdata K s1) [UpdatePdata]).
  { unfold launch_update_pdata; destruct (hpmc_update_pdata _ _) as [p c].
    exists [UpdatePdata]; split; reflexivity. }
  exact (markers_trans _ _ _ _ _ (markers_trans _ _ _ _ _ H0 H1) H2).
Qed.

(** The markers of the sweeps [todo], most recent first. *)
Definition sweep_markers_of (todo : list nat) : list launch :=
  flat_map (fun i => [UpdatePdata; GenMoves (Z.of_nat i)]) (rev todo).

Lemma sweeps_markers (fuel : nat) (todo : list nat) (s s' : State) :
  sweeps K cfg timestep fuel todo s = Finished s' ->
  markers_since s s' (sweep_markers_of todo).
Proof.
  revert s; induction todo as [|i todo IH]; intros s.
  - cbn [sweeps]; intros H; injection H as <-. exists []; split; reflexivity.
  - cbn [sweeps].
    destruct (sweep K cfg timestep fuel (Z.of_nat i) s) as [s1|s1|s1] eqn:Hs;
      try discriminate.
    intros H. pose proof (markers_trans _ _ _ _ _ (sweep_markers _ _ _ _ Hs) (IH _ H)) as Hm.
    unfold sweep_markers_of in *; cbn [rev]. rewrite flat_map_app; cbn [flat_map].
    now rewrite app_nil_r.
Qed.

End Trace.

(** The launches of one call of [update], and what lies between them. *)
Lemma update_within {ParticleData Trial Depletants Counters : Type}
    (K : kernels ParticleData Trial Depletants Counters) (cfg : config)
    (timestep : Z) (shuffle_draw : Z -> Z -> Z -> bool) (fuel : nat)
    (s : state ParticleData Trial Depletants Counters) :
  within cfg (permitted cfg) host_of_update s
    (state_of (update K cfg timestep shuffle_draw fuel s)).
Proof.
  unfold update.
  destruct (0 <? N cfg); [|apply within_refl].
  destruct (box_too_small cfg); [apply within_refl|].
  set (s1 := on_dev _ s).
  assert (H0 : within cfg (permitted cfg) host_of_update s s1).
  { apply within_host; intros [| | | | | | |k| | |] Hh;
      try reflexivity; discriminate. }
  assert (H1 : within cfg (permitted cfg) host_of_update s1
                 (state_of (sweeps K cfg timestep fuel
                              (seq 0 (Z.to_nat (m_nselect cfg))) s1))).
  { apply within_sweeps;
      [intros l [Hp _]; exact Hp|reflexivity|intros i Hi; exact Hi|exact I
      |reflexivity|reflexivity|apply sweeps_in_range]. }
  destruct (sweeps K cfg timestep fuel _ s1) as [s2|s2|s2];
    cbn [state_of] in H1 |- *;
    try exact (within_trans cfg _ _ s s1 s2 H0 H1).
  apply (within_trans cfg _ _ s s2); [exact (within_trans cfg _ _ s s1 s2 H0 H1)|].
  apply within_launch; [exact I|].
  intros [| | | | | | |k| | |] Hh Hw; try reflexivity; discriminate.
Qed.

(** Whatever the kernels do and however far [update] gets, every launch
    it issues is one the configuration asks for: a sweep index below
    [m_nselect]; the direct depletant kernels only for a pair of types
    [itype <= jtype < NTypes] of non-zero fugacity and [ntrial == 0]; the
    accumulator reset and the auxiliary variable kernels only for such a
    pair with [ntrial != 0]; the depletant acceptance only if some pair
    is sampled with auxiliary variables; the patch energy only if a patch
    is set.  Without local particles, or in a box that is too small,
    nothing is launched. *)
Theorem launches_follow_the_configuration
    {ParticleData Trial Depletants Counters : Type}
    (K : kernels ParticleData Trial Depletants Counters) (cfg : config)
    (timestep : Z) (shuffle_draw : Z -> Z -> Z -> bool) (fuel : nat)
    (s : state ParticleData Trial Depletants Counters) :
  let s' := state_of (update K cfg timestep shuffle_draw fuel s) in
  (exists new, issued s' = new ++ issued s /\ Forall (permitted cfg) new)
  /\ (N cfg <= 0 \/ box_too_small cfg = true -> issued s' = issued s).
Proof.
  intros s'; split.
  - destruct (update_within K cfg timestep shuffle_draw fuel s)
      as (_ & new & Hi & Hf & _).
    exists new; split; assumption.
  - unfold s', update. intros [HN|Hbox].
    + destruct (Z.ltb_spec 0 (N cfg)); [lia|reflexivity].
    + rewrite Hbox. now destruct (0 <? N cfg).
Qed.

Lemma launches_follow_the_configuration_witness :
  issued (state_of (update UpdateFacts.idle_kernels
                      (UpdateFacts.small_system 3 1%Q) 0 (fun _ _ _ => false) 3
                      (UpdateFacts.fresh_state 42)))
  = issued (UpdateFacts.fresh_state 42).
Proof.
  apply (proj2 (launches_follow_the_configuration UpdateFacts.idle_kernels
                  (UpdateFacts.small_system 3 1%Q) 0 (fun _ _ _ => false) 3
                  (UpdateFacts.fresh_state 42))).
  right; reflexivity.
Defined.

(** The update order is drawn once per call of [update], with selection
    index 0, before the first sweep: whatever the kernels do, however
    many sweeps are run and however the call ends, the order it leaves is
    the one shuffled on entry.  The scratch length never shrinks. *)
Theorem update_order_is_drawn_once
    {ParticleData Trial Depletants Counters : Type}
    (K : kernels ParticleData Trial Depletants Counters) (cfg : config)
    (timestep : Z) (shuffle_draw : Z -> Z -> Z -> bool) (fuel : nat)
    (s : state ParticleData Trial Depletants Counters) :
  0 < N cfg -> box_too_small cfg = false ->
  let s' := state_of (update K cfg timestep shuffle_draw fuel s) in
  m_update_order (dev s')
  = UpdateOrderGPU.shuffle shuffle_draw timestep 0
      (UpdateOrderGPU.resize (N cfg) (m_update_order (dev s)))
  /\ m_max_len s <= m_max_len s'.
Proof.
  intros HN Hbox s'; split.
  - unfold s', update. destruct (Z.ltb_spec 0 (N cfg)); [|lia]. rewrite Hbox.
    set (s1 := on_dev _ s).
    destruct (sweeps_not_shift K cfg timestep fuel s1) as (_ & new & _ & _ & Hs).
    specialize (Hs A_update_order eq_refl (order_never_written cfg new)).
    cbn [same] in Hs.
    destruct (sweeps K cfg timestep fuel _ s1) as [s2|s2|s2];
      cbn [state_of] in Hs |- *;
      cbn [log on_dev dev set_pdata m_update_order]; rewrite Hs; reflexivity.
  - exact (proj1 (update_within K cfg timestep shuffle_draw fuel s)).
Qed.

Lemma update_order_is_drawn_once_witness :
  m_update_order
    (dev (state_of (update UpdateFacts.idle_kernels
                      (UpdateFacts.small_system 3 10%Q) 7 (fun _ _ _ => true) 3
                      (UpdateFacts.fresh_state 42))))
  = UpdateOrderGPU.shuffle (fun _ _ _ => true) 7 0
      (UpdateOrderGPU.resize 2 (UpdateOrderGPU.empty 42)).
Proof.
  apply (proj1 (update_order_is_drawn_once UpdateFacts.idle_kernels
                  (UpdateFacts.small_system 3 10%Q) 7 (fun _ _ _ => true) 3
                  (UpdateFacts.fresh_state 42) eq_refl eq_refl)).
Defined.

(** The convergence loop decides which trial moves are rejected and
    nothing else: whatever the kernels do and however it ends, it leaves
    the particle data, the trial moves, the out-of-cell flags and the
    update order as it found them, and it issues no move generation, no
    commit and no shift. *)
Theorem convergence_loop_keeps_the_trial_moves
    {ParticleData Trial Depletants Counters : Type}
    (K : kernels ParticleData Trial Depletants Counters) (cfg : config)
    (timestep : Z) (fuel : nat) (i : Z)
    (s : state ParticleData Trial Depletants Counters) :
  let s' := state_of (converge K cfg timestep fuel i s) in
  pdata (dev s') = pdata (dev s)
  /\ trial (dev s') = trial (dev s)
  /\ m_reject_out_of_cell (dev s') = m_reject_out_of_cell (dev s)
  /\ m_update_order (dev s') = m_update_order (dev s)
  /\ exists new, issued s' = new ++ issued s
                 /\ Forall (fun l => marker l = false) new.
Proof.
  intros s'.
  destruct (converge_inner K cfg timestep fuel i s) as (_ & new & Hi & Hf & Hs).
  fold s' in Hi, Hs.
  assert (Hkeep : forall a,
            a = A_pdata \/ a = A_trial \/ a = A_reject_out_of_cell
            \/ a = A_update_order -> same a (dev s) (dev s')).
  { intros a Ha; apply Hs.
    - destruct Ha as [->|[->|[->| ->]]]; reflexivity.
    - now apply inner_preserves. }
  split; [exact (Hkeep A_pdata ltac:(auto))|].
  split; [exact (Hkeep A_trial ltac:(auto))|].
  split; [exact (Hkeep A_reject_out_of_cell ltac:(auto))|].
  split; [exact (Hkeep A_update_order ltac:(auto))|].
  exists new; split; [exact Hi|].
  revert Hf; apply Forall_impl; intros l [_ Hm]; exact Hm.
Qed.

(** Without a pair of types sampled with auxiliary variables, [update]
    never touches the free energy accumulators nor the requested scratch
    length, whatever the kernels do. *)
Theorem no_auxiliary_variables_no_scratch_request
    {ParticleData Trial Depletants Counters : Type}
    (K : kernels ParticleData Trial Depletants Counters) (cfg : config)
    (timestep : Z) (shuffle_draw : Z -> Z -> Z -> bool) (fuel : nat)
    (s : state ParticleData Trial Depletants Counters) :
  (forall itype jtype, type_pair cfg itype jtype ->
                       pair_mode cfg itype jtype <> Auxiliary) ->
  let s' := state_of (update K cfg timestep shuffle_draw fuel s) in
  m_req_len (dev s') = m_req_len (dev s)
  /\ forall k, m_deltaF_int (dev s') k = m_deltaF_int (dev s) k.
Proof.
  intros Hno s'.
  destruct (update_within K cfg timestep shuffle_draw fuel s)
    as (_ & new & _ & Hf & Hs).
  fold s' in Hs.
  assert (Hw : forall a, a = A_req_len \/ (exists k, a = A_deltaF_int k) ->
                 Forall (fun l => written cfg l a = false) new).
  { intros a Ha; revert Hf; apply Forall_impl; intros l Hl.
    destruct l; cbn in Hl;
      try (destruct Ha as [->|[k ->]]; reflexivity);
      destruct Hl as [Hp Hm]; now destruct (Hno _ _ Hp Hm). }
  split; [|intros k].
  - apply (Hs A_req_len eq_refl). apply Hw; now left.
  - apply (Hs (A_deltaF_int k) eq_refl). apply Hw; right; now exists k.
Qed.

Lemma no_auxiliary_variables_no_scratch_request_witness :
  m_req_len (dev (state_of (update UpdateFacts.idle_kernels
                              (UpdateFacts.small_system 3 10%Q) 0
                              (fun _ _ _ => false) 3 (UpdateFacts.fresh_state 42))))
  = m_req_len (dev (UpdateFacts.fresh_state 42)).
Proof.
  apply (proj1 (no_auxiliary_variables_no_scratch_request UpdateFacts.idle_kernels
                  (UpdateFacts.small_system 3 10%Q) 0 (fun _ _ _ => false) 3
                  (UpdateFacts.fresh_state 42)
                  (fun itype jtype _ H => ltac:(discriminate H)))).
Defined.

(** The requested scratch length is checked twice per pass of the
    convergence loop, and the second check never fires: the inner loop
    ends only when the request fits, and nothing in between changes it.
    So each pass that leaves the inner loop goes on to the convergence
    test, and the loop itself ends only with [m_condition == 0] and
    scratch memory that was large enough. *)
Theorem second_overflow_check_never_fires
    {ParticleData Trial Depletants Counters : Type}
    (K : kernels ParticleData Trial Depletants Counters) (cfg : config)
    (timestep : Z) (fuel : nat) (i : Z)
    (s : state ParticleData Trial Depletants Counters) :
  (forall s1, reallocate_loop K cfg timestep fuel i s = Finished s1 ->
              m_req_len (dev s1) <= m_max_len s1 /\ m_max_len s <= m_max_len s1)
  /\ converge K cfg timestep (S fuel) i s
     = match reallocate_loop K cfg timestep (S fuel) i
               (on_dev (set_condition 0) s) with
       | Finished s1 =>
           if m_condition (dev (finish_pass K cfg timestep i s1)) =? 0
           then Finished (finish_pass K cfg timestep i s1)
           else converge K cfg timestep fuel i (finish_pass K cfg timestep i s1)
       | r => r
       end
  /\ (forall s', converge K cfg timestep fuel i s = Finished s' ->
                 m_condition (dev s') = 0 /\ m_req_len (dev s') <= m_max_len s').
Proof.
  split; [|split].
  - intros s1 Hr; split; [exact (reallocate_loop_fits K cfg timestep _ _ _ _ Hr)|].
    pose proof (within_reallocate_loop K cfg timestep (inner cfg) host_of_loop
                  (fun l H => H) fuel i s) as (Hm & _).
    now rewrite Hr in Hm.
  - apply converge_pass_equation.
  - intros s'; apply converge_exit.
Qed.

(** A call of [update] that returns has generated and committed the
    trial moves of the sweeps [0 .. m_nselect - 1], each once and in this
    order, with the commit of a sweep before the moves of the next, and
    has shifted the particles once, at the end.  Without local particles
    it has done none of this. *)
Theorem sweeps_commit_in_order
    {ParticleData Trial Depletants Counters : Type}
    (K : kernels ParticleData Trial Depletants Counters) (cfg : config)
    (timestep : Z) (shuffle_draw : Z -> Z -> Z -> bool) (fuel : nat)
    (s s' : state ParticleData Trial Depletants Counters) :
  update K cfg timestep shuffle_draw fuel s = Finished s' ->
  markers_since s s'
    (if 0 <? N cfg
     then Shift :: sweep_markers_of (seq 0 (Z.to_nat (m_nselect cfg)))
     else []).
Proof.
  unfold update.
  destruct (0 <? N cfg).
  - destruct (box_too_small cfg); [discriminate|].
    set (s1 := on_dev _ s).
    destruct (sweeps K cfg timestep fuel _ s1) as [s2|s2|s2] eqn:Hs;
      try discriminate.
    intros H; injection H as <-.
    destruct (sweeps_markers K cfg timestep _ _ _ _ Hs) as (new & Hi & Hm).
    exists (Shift :: new); split; [cbn; now rewrite Hi|].
    cbn [filter marker]. now rewrite Hm.
  - intros H; injection H as <-. exists []; split; reflexivity.
Qed.

Lemma sweeps_commit_in_order_witness :
  markers_since (UpdateFacts.fresh_state 42)
    (state_of (update UpdateFacts.idle_kernels (UpdateFacts.small_system 3 10%Q) 0
                 (fun _ _ _ => false) 3 (UpdateFacts.fresh_state 42)))
    [Shift; UpdatePdata; GenMoves 0].
Proof.
  destruct (update UpdateFacts.idle_kernels (UpdateFacts.small_system 3 10%Q) 0
              (fun _ _ _ => false) 3 (UpdateFacts.fresh_state 42))
    as [s'|s'|s'] eqn:Hu.
  - exact (sweeps_commit_in_order _ _ _ _ _ _ _ Hu).
  - vm_compute in Hu; discriminate Hu.
  - vm_compute in Hu; discriminate Hu.
Defined.

(** The scan at the head of [update] sets [have_depletants] exactly when
    some pair of types [itype <= jtype < NTypes] has a non-zero fugacity,
    and [have_auxilliary_variables] exactly when such a pair has
    [ntrial != 0]; [ntrial_tot] is the sum of [ntrial] over the latter
    pairs, in 32 bit arithmetic. *)
Theorem scan_depletants_finds_the_modes (cfg : config) :
  (have_depletants cfg = true
   <-> exists itype jtype,
         type_pair cfg itype jtype /\ pair_mode cfg itype jtype <> NoDepletants)
  /\ (have_auxilliary_variables cfg = true
      <-> exists itype jtype,
            type_pair cfg itype jtype /\ pair_mode cfg itype jtype = Auxiliary)
  /\ snd (scan_depletants cfg) = u32 (total_ntrial cfg (type_pairs cfg)).
Proof.
  unfold have_depletants, have_auxilliary_variables.
  rewrite scan_depletants_fold; cbn [fst snd].
  split; [|split; [|reflexivity]]; rewrite existsb_exists; split.
  - intros ([itype jtype] & Hin & Hp); exists itype, jtype.
    split; [now apply type_pairs_spec|now apply is_depletant_mode].
  - intros (itype & jtype & Hin & Hp); exists (itype, jtype).
    split; [now apply type_pairs_spec|now apply is_depletant_mode].
  - intros ([itype jtype] & Hin & Hp); exists itype, jtype.
    split; [now apply type_pairs_spec|now apply is_auxiliary_mode].
  - intros (itype & jtype & Hin & Hp); exists (itype, jtype).
    split; [now apply type_pairs_spec|now apply is_auxiliary_mode].
Qed.

End UpdateTraceFacts.

(** ** HarmonicBondForceCompute: parameters and the force arrays *)

Module BondParameterFacts.

Import Floats.
Import HarmonicBondForceCompute.

Lemma alter_length {A : Type} (f : A -> A) (i : nat) (l : list A) :
  length (alter f i l) = length l.
Proof.
  revert i; induction l as [|v l IH]; intros [|i]; cbn; auto.
Qed.

Lemma nth_alter_same {A : Type} (f : A -> A) (i : nat) (l : list A) (d : A) :
  (i < length l)%nat -> nth i (alter f i l) d = f (nth i l d).
Proof.
  revert i; induction l as [|v l IH]; intros [|i] H; cbn in *; try lia; auto.
  apply IH; lia.
Qed.

Lemma nth_alter_other {A : Type} (f : A -> A) (i j : nat) (l : list A) (d : A) :
  j <> i -> nth j (alter f i l) d = nth j l d.
Proof.
  revert i j; induction l as [|v l IH]; intros [|i] [|j] H; cbn; auto.
  congruence.
Qed.

Lemma nth_constant {A B : Type} (c : B) (l : list A) (i : nat) :
  nth i (map (fun _ => c) l) c = c.
Proof. revert i; induction l as [|v l IH]; intros [|i]; cbn; auto. Qed.

Lemma fold_left_ext_in {A B : Type} (f g : A -> B -> A) (l : list B) (a : A) :
  (forall a b, In b l -> f a b = g a b) -> fold_left f l a = fold_left g l a.
Proof.
  revert a; induction l as [|b l IH]; intros a H; [reflexivity|].
  cbn [fold_left]. rewrite (H a b (or_introl eq_refl)).
  apply IH; intros a' b' Hb'; apply H; now right.
Qed.

(** The invariant of the class: there is a bond type, and both
    parameter arrays have one entry per bond type. *)
Definition well_formed (p : params) : Prop :=
  0 < NBondTypes p
  /\ length (m_K p) = Z.to_nat (NBondTypes p)
  /\ length (m_r_0 p) = Z.to_nat (NBondTypes p).

Lemma construct_well_formed (n : Z) (junk_K junk_r_0 : nat -> Scalar) (p : params) :
  0 <= n -> construct n junk_K junk_r_0 = Returned p ->
  well_formed p /\ NBondTypes p = n.
Proof.
  unfold construct; intros Hn.
  destruct (Z.eqb_spec n 0) as [|Hne]; [discriminate|].
  intros H; injection H as <-; unfold well_formed; cbn [NBondTypes m_K m_r_0].
  rewrite !length_map, !length_seq. repeat split; lia.
Qed.

Lemma setParams_returns (p : params) (typ : Z) (K r_0 : Scalar) :
  typ < NBondTypes p ->
  setParams p typ K r_0
  = Returned (mkParams (NBondTypes p)
                (alter (fun _ => K) (Z.to_nat typ) (m_K p))
                (alter (fun _ => r_0) (Z.to_nat typ) (m_r_0 p)),
              (if (K <? 0)%float then [NegativeK] else [])
              ++ (if (r_0 <? 0)%float then [NegativeR0] else [])).
Proof.
  intros H; unfold setParams. destruct (Z.leb_spec (NBondTypes p) typ); [lia|reflexivity].
Qed.

(** The constructor refuses a system without bond types and otherwise
    establishes the invariant of the class.  [setParams] throws on a type
    that does not exist and leaves the parameters alone; on a type that
    exists it writes [K] and [r_0] at that type and nowhere else, keeps
    the invariant, and warns exactly about a negative [K] and a negative
    [r_0]: a zero [r_0] passes although the warning reads [r_0 <= 0]. *)
Theorem setParams_sets_one_type
    (n : Z) (junk_K junk_r_0 : nat -> Scalar) (typ : Z) (K r_0 : Scalar) :
  0 <= n -> 0 <= typ ->
  match construct n junk_K junk_r_0 with
  | Thrown _ => n = 0
  | Returned p =>
      well_formed p /\ NBondTypes p = n
      /\ match setParams p typ K r_0 with
         | Thrown _ => n <= typ
         | Returned (p', warnings) =>
             typ < n /\ well_formed p' /\ NBondTypes p' = n
             /\ nth (Z.to_nat typ) (m_K p') 0%float = K
             /\ nth (Z.to_nat typ) (m_r_0 p') 0%float = r_0
             /\ (forall t, 0 <= t -> t <> typ ->
                   nth (Z.to_nat t) (m_K p') 0%float = nth (Z.to_nat t) (m_K p) 0%float
                   /\ nth (Z.to_nat t) (m_r_0 p') 0%float
                      = nth (Z.to_nat t) (m_r_0 p) 0%float)
             /\ (In NegativeK warnings <-> (K <? 0)%float = true)
             /\ (In NegativeR0 warnings <-> (r_0 <? 0)%float = true)
         end
  end.
Proof.
  intros Hn Htyp.
  destruct (construct n junk_K junk_r_0) as [p|what] eqn:Hc.
  - destruct (construct_well_formed n junk_K junk_r_0 p Hn Hc) as [Hwf HN].
    split; [exact Hwf|]. split; [exact HN|].
    destruct Hwf as (Hpos & HK & Hr).
    destruct (Z.lt_ge_cases typ (NBondTypes p)) as [Hlt|Hge].
    + rewrite (setParams_returns p typ K r_0 Hlt); cbn [NBondTypes m_K m_r_0].
      split; [lia|]. split.
      { repeat split; cbn [NBondTypes m_K m_r_0]; rewrite ?alter_length; assumption. }
      split; [exact HN|].
      split; [apply (nth_alter_same (fun _ => K)); lia|].
      split; [apply (nth_alter_same (fun _ => r_0)); lia|].
      split.
      { intros t Ht Hne; split; apply nth_alter_other; lia. }
      destruct (K <? 0)%float, (r_0 <? 0)%float; cbn;
        repeat split; intros; try discriminate; try tauto;
        repeat match goal with
               | H : _ \/ _ |- _ => destruct H
               | H : False |- _ => destruct H
               end; discriminate.
    + unfold setParams. destruct (Z.leb_spec (NBondTypes p) typ); lia.
  - unfold construct in Hc. destruct (Z.eqb_spec n 0); [assumption|discriminate].
Qed.

Lemma setParams_sets_one_type_witness :
  match construct 2 (fun _ => 0%float) (fun _ => 0%float) with
  | Thrown _ => 2 = 0
  | Returned p =>
      well_formed p /\ NBondTypes p = 2
      /\ match setParams p 1 (-1)%float 0%float with
         | Thrown _ => 2 <= 1
         | Returned (p', warnings) =>
             1 < 2 /\ well_formed p' /\ NBondTypes p' = 2
             /\ nth (Z.to_nat 1) (m_K p') 0%float = (-1)%float
             /\ nth (Z.to_nat 1) (m_r_0 p') 0%float = 0%float
             /\ (forall t, 0 <= t -> t <> 1 ->
                   nth (Z.to_nat t) (m_K p') 0%float = nth (Z.to_nat t) (m_K p) 0%float
                   /\ nth (Z.to_nat t) (m_r_0 p') 0%float
                      = nth (Z.to_nat t) (m_r_0 p) 0%float)
             /\ (In NegativeK warnings <-> ((-1) <? 0)%float = true)
             /\ (In NegativeR0 warnings <-> (0 <? 0)%float = true)
         end
  end.
Proof.
  apply (setParams_sets_one_type 2 (fun _ => 0%float) (fun _ => 0%float) 1
           (-1)%float 0%float); lia.
Defined.

Section Compute.

Variable box : BoxDim.
Variable h_pos : list Scalar4.
Variable h_rtag : list Z.
Variable virial_pitch : nat.

(** Index of the particle with tag [tag]. *)
Definition idx_of (tag : Z) : nat := Z.to_nat (nth (Z.to_nat tag) h_rtag 0).

Lemma add_virial_length (idx : nat) (t : terms) (v : list Scalar) :
  length (add_virial virial_pitch idx t v) = length v.
Proof. unfold add_virial; now rewrite !alter_length. Qed.

Lemma add_virial_other (idx : nat) (t : terms) (v : list Scalar) (j : nat) :
  (forall row, (row < 6)%nat -> j <> (row * virial_pitch + idx)%nat) ->
  nth j (add_virial virial_pitch idx t v) 0%float = nth j v 0%float.
Proof.
  intros H; unfold add_virial.
  rewrite !nth_alter_other; [reflexivity|apply H; lia ..].
Qed.

Section Parameters.

Variables K_of r_0_of : list Scalar.

Local Abbreviation step := (add_bond box h_pos h_rtag K_of r_0_of virial_pitch).

Lemma add_bond_lengths (acc : arrays) (bond : Bond) :
  length (h_force (step acc bond)) = length (h_force acc)
  /\ length (h_virial (step acc bond)) = length (h_virial acc).
Proof.
  unfold add_bond; cbn [h_force h_virial].
  now rewrite !alter_length, !add_virial_length.
Qed.

Lemma add_bond_force_other (acc : arrays) (bond : Bond) (idx : nat) :
  idx_of (a bond) <> idx -> idx_of (b bond) <> idx ->
  nth idx (h_force (step acc bond)) zero4 = nth idx (h_force acc) zero4.
Proof.
  intros Ha Hb; unfold add_bond; cbn [h_force].
  rewrite !nth_alter_other; [reflexivity|..]; unfold idx_of in *; congruence.
Qed.

Lemma add_bond_virial_other (acc : arrays) (bond : Bond) (j : nat) :
  (forall row, (row < 6)%nat ->
     j <> (row * virial_pitch + idx_of (a bond))%nat
     /\ j <> (row * virial_pitch + idx_of (b bond))%nat) ->
  nth j (h_virial (step acc bond)) 0%float = nth j (h_virial acc) 0%float.
Proof.
  intros H; unfold add_bond; cbn [h_virial].
  rewrite !add_virial_other; [reflexivity|..];
    intros row Hrow; apply (H row Hrow).
Qed.

Lemma fold_add_bond (bonds : list Bond) (acc : arrays) :
  let out := fold_left step bonds acc in
  length (h_force out) = length (h_force acc)
  /\ length (h_virial out) = length (h_virial acc)
  /\ (forall idx,
        (forall bond, In bond bonds ->
           idx_of (a bond) <> idx /\ idx_of (b bond) <> idx) ->
        nth idx (h_force out) zero4 = nth idx (h_force acc) zero4)
  /\ (forall j,
        (forall bond row, In bond bonds -> (row < 6)%nat ->
           j <> (row * virial_pitch + idx_of (a bond))%nat
           /\ j <> (row * virial_pitch + idx_of (b bond))%nat) ->
        nth j (h_virial out) 0%float = nth j (h_virial acc) 0%float).
Proof.
  revert acc; induction bonds as [|bond bonds IH]; intros acc; cbn [fold_left].
  - repeat split; reflexivity.
  - destruct (IH (step acc bond)) as (Hf & Hv & Hforce & Hvirial).
    destruct (add_bond_lengths acc bond) as [Hf1 Hv1].
    cbv zeta. split; [congruence|]. split; [congruence|]. split.
    + intros idx H. rewrite Hforce by (intros bd Hbd; apply H; now right).
      apply add_bond_force_other; apply (H bond (or_introl eq_refl)).
    + intros j H. rewrite Hvirial by (intros bd row Hbd; apply H; now right).
      apply add_bond_virial_other; intros row Hrow.
      apply (H bond row (or_introl eq_refl) Hrow).
Qed.

End Parameters.

End Compute.

(** [computeForces] never throws, keeps the sizes of both arrays and
    overwrites them: what they held before does not matter.  A particle
    that takes part in no bond ends with zero force and zero energy, and
    a virial entry that belongs to no bonded particle ends as zero. *)
Theorem unbonded_particles_get_zero_force
    (box : BoxDim) (h_pos : list Scalar4) (h_rtag : list Z)
    (K_of r_0_of : list Scalar) (virial_pitch : nat)
    (bonds : list Bond) (old : arrays) :
  exists out,
    computeForces box h_pos h_rtag K_of r_0_of virial_pitch bonds old = Returned out
    /\ length (h_force out) = length (h_force old)
    /\ length (h_virial out) = length (h_virial old)
    /\ (forall old',
          length (h_force old') = length (h_force old) ->
          length (h_virial old') = length (h_virial old) ->
          computeForces box h_pos h_rtag K_of r_0_of virial_pitch bonds old'
          = Returned out)
    /\ (forall idx,
          (forall bond, In bond bonds ->
             idx_of h_rtag (a bond) <> idx /\ idx_of h_rtag (b bond) <> idx) ->
          nth idx (h_force out) zero4 = zero4)
    /\ (forall j,
          (forall bond row, In bond bonds -> (row < 6)%nat ->
             j <> (row * virial_pitch + idx_of h_rtag (a bond))%nat
             /\ j <> (row * virial_pitch + idx_of h_rtag (b bond))%nat) ->
          nth j (h_virial out) 0%float = 0%float).
Proof.
  unfold computeForces; eexists; split; [reflexivity|].
  set (zeroed := mkArrays (map (fun _ => zero4) (h_force old))
                          (map (fun _ => 0%float) (h_virial old))).
  destruct (fold_add_bond box h_pos h_rtag virial_pitch K_of r_0_of bonds zeroed)
    as (Hf & Hv & Hforce & Hvirial).
  split; [rewrite Hf; apply length_map|].
  split; [rewrite Hv; apply length_map|].
  split; [|split].
  - intros old' Hf' Hv'. do 2 f_equal. unfold zeroed. f_equal.
    + clear - Hf'. revert Hf'. generalize (h_force old') (h_force old).
      induction l as [|v l IH]; intros [|v' l'] H; try discriminate; cbn; [reflexivity|].
      f_equal. apply IH. now injection H.
    + clear - Hv'. revert Hv'. generalize (h_virial old') (h_virial old).
      induction l as [|v l IH]; intros [|v' l'] H; try discriminate; cbn; [reflexivity|].
      f_equal. apply IH. now injection H.
  - intros idx H. rewrite (Hforce idx H). apply nth_constant.
  - intros j H. rewrite (Hvirial j H). apply nth_constant.
Qed.

(** Setting the parameters of one bond type changes nothing for a
    system that has no bond of that type: [computeForces] returns the
    same arrays with the parameters before and after [setParams]. *)
Theorem forces_ignore_other_bond_types
    (box : BoxDim) (h_pos : list Scalar4) (h_rtag : list Z) (virial_pitch : nat)
    (p p' : params) (typ : Z) (K r_0 : Scalar) (warnings : list warning)
    (bonds : list Bond) (old : arrays) :
  0 <= typ ->
  setParams p typ K r_0 = Returned (p', warnings) ->
  Forall (fun bond => 0 <= type bond /\ type bond <> typ) bonds ->
  computeForces box h_pos h_rtag (m_K p') (m_r_0 p') virial_pitch bonds old
  = computeForces box h_pos h_rtag (m_K p) (m_r_0 p) virial_pitch bonds old.
Proof.
  intros Htyp Hset Hbonds.
  unfold setParams in Hset.
  destruct (NBondTypes p <=? typ)%Z; [discriminate|].
  injection Hset as <- _; cbn [m_K m_r_0].
  unfold computeForces; f_equal. apply fold_left_ext_in.
  intros acc bond Hin.
  rewrite Forall_forall in Hbonds. destruct (Hbonds bond Hin) as [H0 Hne].
  unfold add_bond, terms_of.
  rewrite !(nth_alter_other _ (Z.to_nat typ) (Z.to_nat (type bond))) by lia.
  reflexivity.
Qed.

Lemma forces_ignore_other_bond_types_witness :
  computeForces HarmonicBondFacts.unit_box
    [HarmonicBondFacts.origin; HarmonicBondFacts.origin] [0; 1]
    [1%float; 7%float] [1%float; 3%float] 2
    [HarmonicBondFacts.coincident_bond]
    (mkArrays [zero4; zero4] [])
  = computeForces HarmonicBondFacts.unit_box
      [HarmonicBondFacts.origin; HarmonicBondFacts.origin] [0; 1]
      [1%float; 2%float] [1%float; 2%float] 2
      [HarmonicBondFacts.coincident_bond]
      (mkArrays [zero4; zero4] []).
Proof.
  apply (forces_ignore_other_bond_types HarmonicBondFacts.unit_box
           [HarmonicBondFacts.origin; HarmonicBondFacts.origin] [0; 1] 2%nat
           (mkParams 2 [1%float; 2%float] [1%float; 2%float])
           (mkParams 2 [1%float; 7%float] [1%float; 3%float])
           1 7%float 3%float []).
  - lia.
  - reflexivity.
  - repeat constructor; cbn; lia.
Defined.

End BondParameterFacts.
